(** * Multi-destination upload orchestrator (src/pages/Upload.tsx)

    A shallow embedding of the [Upload] component's state logic: the
    [upload] batch driver, [clearTransfers], the per-destination checkbox
    handler and the file-selection handlers, followed by the properties of
    the ledger they maintain.

    Modelling conventions.
    - A JavaScript [number] holding a byte count is an [N]: [File.size] is a
      non-negative integer and double arithmetic is exact on the integers
      below 2^53.
    - The ledger [{ [key: string]: TransferStats }] is a map from
      destination names to *references*: [upload] mutates the
      [TransferStats] objects in place (lines 45 and 60) and the spread
      [{ ...ut }] copies references, not objects.  The objects live in
      [heap]; a ledger is a [gmap string loc].
    - [upload] is an async function.  Each awaited collaborator either
      resolves or rejects; a rejection propagates out of [upload] because
      the function has no [try]/[catch].  The outcome of every call is
      supplied by [Collaborators], indexed by the position of the
      destination and of the file, so that any pattern of failures can be
      expressed.
    - [setTransfers(ut => ...)] of line 41 hands React an updater.  React
      runs it when it next processes the queue of the cell: inside the call
      (it computes the new state eagerly when nothing else is queued),
      while [upload] is suspended in one of the [await]s that follow, or
      once [upload] has returned or thrown.  The choice is React's; it is
      the parameter [delay] of a batch, and every property is stated for
      all of its values.  The updater writes into the objects that the
      ledger shares with the closure of [upload], so what it does is the
      same whenever it runs, but what a reader sees at a given instant is
      not.
    - The handlers of different user events do not overlap: when one
      starts, React has processed what the previous one queued.  A batch
      is one run of [upload] followed by that processing.  The queueing of
      [setFiles] and of the other [setTransfers] calls is therefore not
      modelled: nothing reads those cells before the handler has ended.
    - Every collaborator call, every state setter and every [console.log]
      is recorded in a trace together with the ledger as a reader would see
      it at that instant.  [upload] runs without interruption from one
      [await] to the next, so the ledger can change only at these entries
      and while the function is suspended in a call.

    The view logic of the blob list (src/components/BlobList/BlobList.tsx):
    the four filtered lists, the effect that corrects the mode and the
    guards of the mode buttons, is modelled in the module [BlobList]. *)

From Stdlib Require Import NArith Lia.
From stdpp Require Import base option list gmap strings fin_maps sorting.

Open Scope string_scope.
Open Scope list_scope.
Open Scope N_scope.

(** ** Data model *)

(** The part of a DOM [File] that the component reads. *)
Record File := { file_name : string; file_size : N }.

(** An element of [useServers()]; only [name] is read here. *)
Record Server := { name : string }.

(** An element of [useServerInfo().serverInfo]; only [url] is read here. *)
Record ServerInfo := { url : string }.

(** [type TransferStats] (lines 11-15). *)
Record TransferStats := { enabled : bool; size : N; transferred : N }.

(** Modelled from the spec: the authorization artifact returned by
    [BlossomClient.getUploadAuth] is opaque to the orchestrator; it is
    represented by its serialisation. *)
Definition SignedEvent := string.

(** Modelled from the spec: the descriptor returned by
    [BlossomClient.uploadBlob],
    [{ digest, size, type, createdAt, url }]. *)
Record BlobDescriptor :=
  { digest : string; blob_size : N; blob_type : string;
    createdAt : N; blob_url : string }.

#[global] Instance File_eq_dec : EqDecision File.
Proof. solve_decision. Defined.
#[global] Instance Server_eq_dec : EqDecision Server.
Proof. solve_decision. Defined.
#[global] Instance TransferStats_eq_dec : EqDecision TransferStats.
Proof. solve_decision. Defined.
#[global] Instance BlobDescriptor_eq_dec : EqDecision BlobDescriptor.
Proof. solve_decision. Defined.

(** References to [TransferStats] objects. *)
Definition loc := positive.

(** An update of the [transfers] cell that React holds in its queue: the
    updater of lines 41-49 with the [totalSize] and the [servers] of its
    closure, and the number of suspensions of [upload] that go by before
    React runs it. *)
Record Pending :=
  { p_total : N; p_servers : list Server; p_delay : nat }.

(** The component's mutable state: the object heap, the two [useState]
    cells [transfers] and [files], and the queue of the [transfers] cell. *)
Record World :=
  { heap : gmap loc TransferStats;
    transfersState : gmap string loc;
    filesState : list File;
    pendingState : option Pending }.

(** What a reader of the [transfers] state sees: every key with the
    contents of the object it refers to. *)
Definition observe (w : World) : gmap string TransferStats :=
  omap (λ l : loc, heap w !! l) (transfersState w).

(** ** Collaborators and the trace *)

(** The external calls.  [None] is a rejected promise.  The first index of
    [getUploadAuth] and [uploadBlob] is the position of the destination in
    [servers], the second the position of the file in [filesToUpload]. *)
Record Collaborators :=
  { removeExifData : nat → File → option File;
    getUploadAuth : nat → nat → File → option SignedEvent;
    uploadBlob : nat → nat → string → File → SignedEvent → option BlobDescriptor }.

(** The [server] and [j] arguments of an event locate it: the destination
    whose pass issued it and the position of the file in [filesToUpload]
    (counted from 0).  The other arguments are those of the call. *)
Inductive Event :=
  | RemoveExifData (f : File)
  | SetTransfers
  | UpdaterThrew
  | GetUploadAuth (server : string) (j : nat) (file : File)
  | UploadBlob (server : string) (serverUrl : string) (j : nat) (file : File)
  | ConsoleLog (server : string) (newBlob : BlobDescriptor)
  | InvalidateQueries (server : string)
  | SetFiles (fs : list File).

#[global] Instance Event_eq_dec : EqDecision Event.
Proof. solve_decision. Defined.

(** A trace entry: the event and the ledger visible once it has happened. *)
Definition Entry : Type := Event * gmap string TransferStats.

Inductive Error := TypeError | ExifRejected | AuthRejected | TransportRejected.

Inductive Res (A : Type) :=
  | Ok (a : A)
  | Throw (e : Error).
Arguments Ok {A} a.
Arguments Throw {A} e.

(** ** The monad of the async function: state, exceptions and a trace *)

Definition M (A : Type) : Type := World → Res A * World * list Entry.

Definition ret {A} (a : A) : M A := λ w, (Ok a, w, []).

Definition throw {A} (e : Error) : M A := λ w, (Throw e, w, []).

Definition bind {A B} (m : M A) (k : A → M B) : M B := λ w,
  match m w with
  | (Ok a, w1, t1) => let '(r, w2, t2) := k a w1 in (r, w2, t1 ++ t2)
  | (Throw e, w1, t1) => (Throw e, w1, t1)
  end.

Declare Scope upload_scope.
Delimit Scope upload_scope with upload.
Notation "x <- c1 ;; c2" := (bind c1 (λ x, c2))
  (at level 100, c1 at next level, right associativity) : upload_scope.
Notation "c1 ;;; c2" := (bind c1 (λ _, c2))
  (at level 100, right associativity) : upload_scope.
Open Scope upload_scope.

Definition emit (ev : Event) : M unit := λ w, (Ok tt, w, [(ev, observe w)]).

(** ** Ledger objects *)

Definition set_size (n : N) (ts : TransferStats) : TransferStats :=
  {| enabled := enabled ts; size := n; transferred := transferred ts |}.

Definition add_transferred (n : N) (ts : TransferStats) : TransferStats :=
  {| enabled := enabled ts; size := size ts; transferred := transferred ts + n |}.

(** An object literal: a new object at an unused reference. *)
Definition alloc (ts : TransferStats) (h : gmap loc TransferStats)
  : loc * gmap loc TransferStats :=
  let l := fresh (dom h) in (l, <[l := ts]> h).

(** ** The sizing updater and React's queue *)

(** Lines 43-47, the body of the updater: the loop writes [size] into the
    objects that [newTransfers] shares with [ut].  A missing entry makes
    [newTransfers[server.name].enabled] throw after the earlier servers'
    objects have been written. *)
Fixpoint sizeEntries (total : N) (servers : list Server)
    (newTransfers : gmap string loc) (h : gmap loc TransferStats)
  : Res unit * gmap loc TransferStats :=
  match servers with
  | [] => (Ok tt, h)
  | server :: rest =>
      match newTransfers !! name server with
      | None => (Throw TypeError, h)
      | Some l =>
          match h !! l with
          | None => (Throw TypeError, h)
          | Some ts =>
              if enabled ts
              then sizeEntries total rest newTransfers (<[l := set_size total ts]> h)
              else sizeEntries total rest newTransfers h
          end
      end
  end.

(** Lines 42-48, the updater when React runs it on the current state.  It
    runs as one uninterrupted function; when it returns, the copy
    [newTransfers] becomes the state.  When it throws, the state cell keeps
    its value (the error surfaces in the render, not in [upload]) but the
    writes already made to shared objects remain.  Either way the update
    has left the queue. *)
Definition run_updater (total : N) (servers : list Server) (w : World)
  : Res unit * World :=
  let newTransfers := transfersState w in
  match sizeEntries total servers newTransfers (heap w) with
  | (Ok _, h) =>
      (Ok tt, {| heap := h; transfersState := newTransfers;
                 filesState := filesState w; pendingState := None |})
  | (Throw e, h) =>
      (Throw e, {| heap := h; transfersState := transfersState w;
                   filesState := filesState w; pendingState := None |})
  end.

(** What React does while [upload] is suspended once more: it runs the
    queued updater if its time has come. *)
Definition render (w : World) : World :=
  match pendingState w with
  | None => w
  | Some p =>
      match p_delay p with
      | 0%nat => (run_updater (p_total p) (p_servers p) w).2
      | S d =>
          {| heap := heap w; transfersState := transfersState w;
             filesState := filesState w;
             pendingState := Some {| p_total := p_total p;
                                     p_servers := p_servers p;
                                     p_delay := d |} |}
      end
  end.

(** What React does once the handler has ended: it runs what is left in the
    queue. *)
Definition settle (w : World) : World :=
  match pendingState w with
  | None => w
  | Some p => (run_updater (p_total p) (p_servers p) w).2
  end.

(** [await call]: the call is issued and the function is suspended; then
    the call resolves or rejects. *)
Definition await {A} (ev : Event) (outcome : option A) (e : Error) : M A :=
  emit ev ;;;
  (λ w, (Ok tt, render w, [])) ;;;
  match outcome with
  | Some a => ret a
  | None => throw e
  end.

(** ** [upload] (lines 26-67) *)

(** Lines 27-34: [filesToUpload] is built file by file. *)
Fixpoint sanitize (E : Collaborators) (cleanPrivateData : bool) (i : nat)
    (files filesToUpload : list File) : M (list File) :=
  match files with
  | [] => ret filesToUpload
  | f :: rest =>
      if cleanPrivateData then
        g <- await (RemoveExifData f) (removeExifData E i f) ExifRejected ;;
        sanitize E cleanPrivateData (S i) rest (filesToUpload ++ [g])
      else sanitize E cleanPrivateData (S i) rest (filesToUpload ++ [f])
  end.

(** Line 38: [filesToUpload.reduce((acc, f) => acc + f.size, 0)]. *)
Definition totalSize (filesToUpload : list File) : N :=
  foldl (λ acc f, acc + file_size f) 0 filesToUpload.

(** Lines 41-49, the call [setTransfers(ut => ...)].  With [delay = 0] React
    runs the updater inside the call; the entry of the trace then shows the
    ledger it leaves.  Otherwise the updater is queued, to be run during the
    [delay]-th suspension from here, and the call changes nothing that can
    be seen. *)
Definition setTransfers_sizes (delay : nat) (total : N) (servers : list Server)
  : M unit := λ w,
  match delay with
  | 0%nat =>
      let '(r, w') := run_updater total servers w in
      (Ok tt, w', [(match r with Ok _ => SetTransfers | Throw _ => UpdaterThrew end,
                    observe w')])
  | S d =>
      let w' := {| heap := heap w; transfersState := transfersState w;
                   filesState := filesState w;
                   pendingState := Some {| p_total := total;
                                           p_servers := servers;
                                           p_delay := d |} |} in
      (Ok tt, w', [(SetTransfers, observe w')])
  end.

(** Line 52: [transfers[server.name]?.enabled], read through the ledger the
    closure captured. *)
Definition read_enabled (transfers : gmap string loc) (n : string) (w : World) : bool :=
  match transfers !! n with
  | Some l => match heap w !! l with
              | Some ts => enabled ts
              | None => false
              end
  | None => false
  end.

(** Line 60: [transfers[server.name].transferred += file.size]. *)
Definition bump_transferred (transfers : gmap string loc) (n : string) (k : N)
  : M unit := λ w,
  match transfers !! n with
  | Some l =>
      match heap w !! l with
      | Some ts =>
          (Ok tt,
           {| heap := <[l := add_transferred k ts]> (heap w);
              transfersState := transfersState w;
              filesState := filesState w;
              pendingState := pendingState w |}, [])
      | None => (Throw TypeError, w, [])
      end
  | None => (Throw TypeError, w, [])
  end.

(** Line 64: [setFiles([])]. *)
Definition setFiles (fs : list File) : M unit := λ w,
  let w' := {| heap := heap w; transfersState := transfersState w;
               filesState := fs;
               pendingState := pendingState w |} in
  (Ok tt, w', [(SetFiles fs, observe w')]).

(** Lines 56-62: the file loop of one destination. *)
Fixpoint uploadFiles (E : Collaborators) (transfers : gmap string loc)
    (i : nat) (server : Server) (serverUrl : string)
    (j : nat) (filesToUpload : list File) : M unit :=
  match filesToUpload with
  | [] => ret tt
  | file :: rest =>
      uploadAuth <- await (GetUploadAuth (name server) j file)
                          (getUploadAuth E i j file) AuthRejected ;;
      newBlob <- await (UploadBlob (name server) serverUrl j file)
                       (uploadBlob E i j serverUrl file uploadAuth)
                       TransportRejected ;;
      bump_transferred transfers (name server) (file_size file) ;;;
      emit (ConsoleLog (name server) newBlob) ;;;
      uploadFiles E transfers i server serverUrl (S j) rest
  end.

(** Lines 51-65: the destination loop. *)
Fixpoint uploadServers (E : Collaborators) (serverInfo : gmap string ServerInfo)
    (transfers : gmap string loc) (filesToUpload : list File)
    (i : nat) (servers : list Server) : M unit :=
  match servers with
  | [] => ret tt
  | server :: rest =>
      λ w,
      if negb (read_enabled transfers (name server) w)
      then uploadServers E serverInfo transfers filesToUpload (S i) rest w
      else
        (serverUrl <- match serverInfo !! name server with
                      | Some info => ret (url info)
                      | None => throw TypeError
                      end ;;
         uploadFiles E transfers i server serverUrl 0 filesToUpload ;;;
         emit (InvalidateQueries (name server)) ;;;
         setFiles [] ;;;
         uploadServers E serverInfo transfers filesToUpload (S i) rest) w
  end.

(** The whole function.  [servers], [serverInfo], [transfers], [files] and
    [cleanPrivateData] are the values captured by the closure at the render
    it was created in; [delay] is React's. *)
Definition upload (delay : nat) (E : Collaborators) (servers : list Server)
    (serverInfo : gmap string ServerInfo) (transfers : gmap string loc)
    (files : list File) (cleanPrivateData : bool) : M unit :=
  filesToUpload <- sanitize E cleanPrivateData 0 files [] ;;
  match filesToUpload with
  | _ :: _ =>
      setTransfers_sizes delay (totalSize filesToUpload) servers ;;;
      uploadServers E serverInfo transfers filesToUpload 0 servers
  | [] => ret tt
  end.

(** ** The other handlers *)

Definition fresh_stats : TransferStats :=
  {| enabled := true; size := 0; transferred := 0 |}.

(** Line 70, the reducer of [clearTransfers]:
    [(acc, s) => ({ ...acc, [s.name]: { enabled: true, size: 0, transferred: 0 } })]. *)
Definition clear_step (acc : gmap string loc * gmap loc TransferStats) (s : Server)
  : gmap string loc * gmap loc TransferStats :=
  let '(l, h) := alloc fresh_stats acc.2 in (<[name s := l]> acc.1, h).

(** Lines 69-71. *)
Definition clearTransfers (servers : list Server) (w : World) : World :=
  let '(acc, h) := foldl clear_step (∅, heap w) servers in
  {| heap := h; transfersState := acc; filesState := filesState w;
     pendingState := pendingState w |}.

(** Lines 116-118, the checkbox's [onChange] for the server named [n]:
    [setTransfers(ut => ({ ...ut, [s.name]: { enabled: checked, transferred: 0, size: 0 } }))]. *)
Definition toggle (n : string) (checked : bool) (w : World) : World :=
  let '(l, h) := alloc {| enabled := checked; size := 0; transferred := 0 |} (heap w) in
  {| heap := h; transfersState := <[n := l]> (transfersState w);
     filesState := filesState w;
     pendingState := pendingState w |}.

(** Lines 77-92, [handleFileChange] and [handleDrop]. *)
Definition addFiles (newFiles : list File) (w : World) : World :=
  match newFiles with
  | [] => w
  | _ :: _ =>
      {| heap := heap w; transfersState := transfersState w;
         filesState := filesState w ++ newFiles;
         pendingState := pendingState w |}
  end.

(** The component before its first effect has run. *)
Definition mount : World :=
  {| heap := ∅; transfersState := ∅; filesState := []; pendingState := None |}.

Definition outcome {A} (x : Res A * World * list Entry) : Res A := x.1.1.
Definition final {A} (x : Res A * World * list Entry) : World := x.1.2.
Definition trace {A} (x : Res A * World * list Entry) : list Entry := x.2.
Arguments outcome {A} !x /.
Arguments final {A} !x /.
Arguments trace {A} !x /.


(** Line 146, [onClick={() => upload()}]: the closure of the current render
    runs, so the ledger and the selection it captured are the current
    state.  The batch is over when [upload] has returned or thrown and React
    has processed what it queued. *)
Definition click_upload (delay : nat) (E : Collaborators) (servers : list Server)
    (serverInfo : gmap string ServerInfo) (cleanPrivateData : bool) : M unit :=
  λ w,
  let x := upload delay E servers serverInfo (transfersState w) (filesState w)
             cleanPrivateData w in
  (outcome x, settle (final x), trace x).

(** ** Reachable states *)

(** The states in which a handler can find the component while the
    destination list is [servers].  The first render shows [mount], with
    the empty ledger of line 22; the effect of lines 73-75 runs
    [clearTransfers] right after it, before any handler, and again
    whenever [servers] changes.  Between batches the user toggles
    destinations and selects files; a batch runs to its end. *)
Inductive reachable : list Server → World → Prop :=
  | reach_mount servers :
      reachable servers (clearTransfers servers mount)
  | reach_servers servers servers' w :
      reachable servers w →
      reachable servers' (clearTransfers servers' w)
  | reach_toggle servers w s checked :
      reachable servers w → s ∈ servers →
      reachable servers (toggle (name s) checked w)
  | reach_addFiles servers w newFiles :
      reachable servers w →
      reachable servers (addFiles newFiles w)
  | reach_upload servers w delay E serverInfo cleanPrivateData :
      reachable servers w →
      reachable servers
        (final (click_upload delay E servers serverInfo cleanPrivateData w)).

(** ** Vocabulary of the statements *)

Definition names (servers : list Server) : list string := map name servers.

(** Every ledger key refers to an object, no object is shared by two keys,
    and React's queue is empty. *)
Definition ledger_wf (w : World) : Prop :=
  (∀ n l, transfersState w !! n = Some l → is_Some (heap w !! l)) ∧
  (∀ n1 n2 l, transfersState w !! n1 = Some l →
              transfersState w !! n2 = Some l → n1 = n2) ∧
  pendingState w = None.

Definition covers (servers : list Server) (w : World) : Prop :=
  ∀ s, s ∈ servers → is_Some (transfersState w !! name s).

Definition inert_stats : TransferStats :=
  {| enabled := false; size := 0; transferred := 0 |}.

(** A disabled entry carries no counters. *)
Definition disabled_inert (w : World) : Prop :=
  ∀ n ts, observe w !! n = Some ts → enabled ts = false → ts = inert_stats.

(** The destination is enabled in the current ledger (line 52). *)
Definition is_enabled (w : World) (s : Server) : bool :=
  read_enabled (transfersState w) (name s) w.

(** The ledger at the successive observation points of a run started in
    [w]: before it, at every trace entry, after it. *)
Definition observations {A} (w : World) (x : Res A * World * list Entry)
  : list (gmap string TransferStats) :=
  observe w :: map snd (trace x) ++ [observe (final x)].

(** The destination an event belongs to. *)
Definition ev_server (ev : Event) : option string :=
  match ev with
  | GetUploadAuth s _ _ | UploadBlob s _ _ _ | ConsoleLog s _
  | InvalidateQueries s => Some s
  | _ => None
  end.

(** Authorizer and Transport calls. *)
Definition is_call (ev : Event) : bool :=
  match ev with
  | GetUploadAuth _ _ _ | UploadBlob _ _ _ _ => true
  | _ => false
  end.

(** The end-of-pass signals of lines 63-64. *)
Definition is_signal (ev : Event) : bool :=
  match ev with
  | InvalidateQueries _ | SetFiles _ => true
  | _ => false
  end.

Definition signals (t : list Entry) : list Event :=
  filter (λ ev, is_signal ev = true) (map fst t).

Definition pass_signals (s : Server) : list Event :=
  [InvalidateQueries (name s); SetFiles []].

(** How often [invalidateQueries] was called with the key of [n]. *)
Definition invalidations (n : string) (t : list Entry) : nat :=
  length (filter (λ e : Entry, e.1 = InvalidateQueries n) t).

(** How often the selection was cleared. *)
Definition clearings (t : list Entry) : nat :=
  length (filter (λ e : Entry, e.1 = SetFiles []) t).

(** One world evolves into another during a batch: the ledger keeps its
    references, no object appears or disappears, [enabled] is constant,
    [transferred] does not decrease and a disabled object is not written. *)
Definition grows (ts ts' : TransferStats) : Prop :=
  enabled ts' = enabled ts ∧ transferred ts ≤ transferred ts' ∧
  (enabled ts = false → ts' = ts).

Definition evolves (w w' : World) : Prop :=
  transfersState w' = transfersState w ∧
  ∀ l, option_Forall2 grows (heap w !! l) (heap w' !! l).

(** A trace whose entries observe successive worlds of an evolution from
    [w] to [w']. *)
Inductive history : World → list Entry → World → Prop :=
  | history_nil w w' : evolves w w' → history w [] w'
  | history_cons w w1 w' ev t :
      evolves w w1 → history w1 t w' →
      history w ((ev, observe w1) :: t) w'.

(** The same relation seen through the ledger. *)
Definition ledger_le (v v' : gmap string TransferStats) : Prop :=
  ∀ n, option_Forall2 grows (v !! n) (v' !! n).

(** The Authorizer and Transport calls of a trace, in order. *)
Definition calls (t : list Entry) : list Event :=
  filter (λ ev, is_call ev = true) (map fst t).

(** [console.log(newBlob)] of line 61 in the pass of [D]: it follows the
    increment of line 60. *)
Definition is_log (D : string) (ev : Event) : bool :=
  match ev with
  | ConsoleLog s _ => bool_decide (s = D)
  | _ => false
  end.

(** How many files have been transferred to [D] in the trace [t]. *)
Definition transfers (D : string) (t : list Entry) : nat :=
  length (filter (λ ev, is_log D ev = true) (map fst t)).

(** The sanitized batch of a click. *)
Definition sanitized (E : Collaborators) (clean : bool) (w : World) : list File :=
  match outcome (sanitize E clean 0 (filesState w) [] w) with
  | Ok fs => fs
  | Throw _ => []
  end.

(** The entry of [n] once the updater of lines 41-49 has run on a ledger
    in which it is [ts]: an enabled destination of the list gets the size
    [total], every other entry is as it was. *)
Definition resized (total : N) (servers : list Server) (n : string)
    (ts : TransferStats) : TransferStats :=
  if enabled ts && bool_decide (n ∈ names servers)
  then set_size total ts else ts.

(** ** Auxiliary notions of the proofs *)

(** The ledger after [x] more bytes have been counted for [n]. *)
Definition counted (n : string) (x : N) (ts : TransferStats)
    (v : gmap string TransferStats) : gmap string TransferStats :=
  <[n := add_transferred x ts]> v.

(** [v] is [v0] with the sizes of some first files of the batch counted for
    each destination, and none for a destination that is disabled or
    outside [nms]. *)
Definition within (files : list File) (nms : list string)
    (v0 v : gmap string TransferStats) : Prop :=
  ∀ n, match v0 !! n with
       | None => v !! n = None
       | Some ts0 =>
           ∃ m : nat,
             v !! n = Some (add_transferred (totalSize (take m files)) ts0) ∧
             (totalSize (take m files) ≠ 0 → enabled ts0 = true ∧ n ∈ nms)
       end.

(** The destination loop never writes [size]. *)
Definition same_sizes (v0 v : gmap string TransferStats) : Prop :=
  ∀ n ts, v0 !! n = Some ts → ∃ ts', v !! n = Some ts' ∧ size ts' = size ts.

(** The selection after the passes of the destinations in [l]. *)
Definition selection_after (w : World) (l : list Server) (fs : list File)
  : list File :=
  match filter (λ s, is_enabled w s = true) l with
  | [] => fs
  | _ :: _ => []
  end.

Definition with_heap (h : gmap loc TransferStats) (w : World) : World :=
  {| heap := h; transfersState := transfersState w; filesState := filesState w;
     pendingState := pendingState w |}.

Definition sizing_event (r : Res unit) : Event :=
  match r with Ok _ => SetTransfers | Throw _ => UpdaterThrew end.

(** A ledger under construction: every key has its own new object. *)
Definition fresh_ledger (p : gmap string loc * gmap loc TransferStats) : Prop :=
  (∀ n l, p.1 !! n = Some l → p.2 !! l = Some fresh_stats) ∧
  (∀ n1 n2 l, p.1 !! n1 = Some l → p.1 !! n2 = Some l → n1 = n2).

(** ** The schedule of the sizing updater *)

(** The sizes a ledger shows. *)
Definition sizes (v : gmap string TransferStats) : gmap string N := size <$> v.

(** The ledger [v] showing the sizes [sz]. *)
Definition with_sizes (sz : gmap string N) (v : gmap string TransferStats)
  : gmap string TransferStats :=
  map_imap (λ n ts, Some (match sz !! n with
                          | Some k => set_size k ts
                          | None => ts
                          end)) v.

(** The trace [t] of a run in which the updater has run, as it is when the
    updater runs only during the [d]-th call from the start of [t]: the
    entries up to that call show the sizes [sz] of before. *)
Fixpoint lag (sz : gmap string N) (d : nat) (t : list Entry) : list Entry :=
  match t with
  | [] => []
  | e :: t' =>
      match d with
      | 0%nat => e :: t'
      | S d' =>
          (e.1, with_sizes sz e.2)
          :: lag sz (if is_call e.1 then d' else d) t'
      end
  end.

(** The number of calls that are still to be issued before the queued
    updater runs. *)
Definition lagging (w : World) : nat :=
  match pendingState w with
  | None => 0
  | Some p => S (p_delay p)
  end.

(** The state once the updater has run. *)
Definition sized (total : N) (servers : list Server) (w : World) : World :=
  (run_updater total servers w).2.

(** A computation that goes the same way whether the queued updater has
    run or not: the same outcome, the same events, the same state in the
    end; only the sizes that its first entries show differ. *)
Definition sim {A} (m : M A) : Prop :=
  ∀ w,
    outcome (m w) = outcome (m (settle w)) ∧
    settle (final (m w)) = final (m (settle w)) ∧
    trace (m w)
      = lag (sizes (observe w)) (lagging w) (trace (m (settle w))) ∧
    lagging (final (m w))
      = (lagging w - length (calls (trace (m (settle w)))))%nat ∧
    (lagging (final (m w)) ≠ 0%nat →
     sizes (observe (final (m w))) = sizes (observe w)).

(** What the updater may change in the objects: sizes only. *)
Definition resizes (h h' : gmap loc TransferStats) : Prop :=
  ∀ l, option_Forall2 (λ ts ts', set_size (size ts) ts' = ts) (h !! l) (h' !! l).

(** ** Concrete batches *)

Definition srvA : Server := {| name := "A" |}.
Definition srvB : Server := {| name := "B" |}.

Definition file50 : File := {| file_name := "c.png"; file_size := 50 |}.
Definition file100 : File := {| file_name := "a.jpg"; file_size := 100 |}.
Definition file200 : File := {| file_name := "b.jpg"; file_size := 200 |}.

Definition info_AB : gmap string ServerInfo :=
  <["A" := {| url := "https://a.example" |}]>
    (<["B" := {| url := "https://b.example" |}]> ∅).

Definition stored (serverUrl : string) (f : File) : BlobDescriptor :=
  {| digest := file_name f; blob_size := file_size f; blob_type := "image";
     createdAt := 0; blob_url := serverUrl |}.

(** Every call resolves. *)
Definition all_resolve : Collaborators :=
  {| removeExifData := λ _ f, Some f;
     getUploadAuth := λ _ _ _, Some "auth";
     uploadBlob := λ _ _ serverUrl f _, Some (stored serverUrl f) |}.


(** The Transport rejects the call for file [j0] of destination [i0]. *)
Definition transport_rejects (i0 j0 : nat) : Collaborators :=
  {| removeExifData := λ _ f, Some f;
     getUploadAuth := λ _ _ _, Some "auth";
     uploadBlob := λ i j serverUrl f _,
       if Nat.eqb i i0 && Nat.eqb j j0 then None
       else Some (stored serverUrl f) |}.

(** Two destinations, both enabled, two files selected. *)
Definition ready_AB : World :=
  addFiles [file100; file200] (clearTransfers [srvA; srvB] mount).

(** The same with B unchecked. *)
Definition ready_A_only : World :=
  addFiles [file100; file200]
    (toggle "B" false (clearTransfers [srvA; srvB] mount)).

(** One destination, one file of 50 bytes. *)
Definition ready_one : World :=
  addFiles [file50] (clearTransfers [srvA] mount).

(** One destination after a first batch of 300 bytes went through, with a
    new file of 50 bytes selected. *)
Definition after_first_batch : World :=
  final (click_upload 1 all_resolve [srvA] info_AB true
           (addFiles [file100; file200] (clearTransfers [srvA] mount))).

Definition second_batch : World := addFiles [file50] after_first_batch.

(** ** Vocabulary of the further properties *)

(** The calls of a complete pass over [files], the first of which has
    position [j]: for each file one Authorizer call, then one Transport
    call. *)
Fixpoint file_calls (n serverUrl : string) (j : nat) (files : list File)
  : list Event :=
  match files with
  | [] => []
  | f :: rest =>
      GetUploadAuth n j f :: UploadBlob n serverUrl j f
      :: file_calls n serverUrl (S j) rest
  end.

(** The calls of the complete pass of destination [s]. *)
Definition pass_calls (serverInfo : gmap string ServerInfo) (files : list File)
    (s : Server) : list Event :=
  match serverInfo !! name s with
  | Some info => file_calls (name s) (url info) 0 files
  | None => []
  end.

(** The entry of [n] once the passes of the enabled destinations of
    [servers] have completed. *)
Definition counted_all (total : N) (servers : list Server) (n : string)
    (ts : TransferStats) : TransferStats :=
  if enabled ts && bool_decide (n ∈ names servers)
  then add_transferred total ts else ts.

(** Two destinations, both enabled, nothing selected. *)
Definition idle_AB : World := clearTransfers [srvA; srvB] mount.

(** The sanitizer rejects the file at position [k0]. *)
Definition exif_rejects (k0 : nat) : Collaborators :=
  {| removeExifData := λ k f, if Nat.eqb k k0 then None else Some f;
     getUploadAuth := λ _ _ _, Some "auth";
     uploadBlob := λ _ _ serverUrl f _, Some (stored serverUrl f) |}.

(** Only A has a base address. *)
Definition info_A : gmap string ServerInfo :=
  <["A" := {| url := "https://a.example" |}]> ∅.

(** ** The blob list (src/components/BlobList/BlobList.tsx) *)

Module BlobList.

(** The fields of a [BlobDescriptor] that the component reads; [type] is
    optional. *)
Record BlobDescriptor :=
  { sha256 : string; size : N; type : option string; created : N;
    url : string }.

(** [type ListMode] (line 19). *)
Inductive ListMode :=
  | mode_gallery | mode_list | mode_audio | mode_video | mode_docs.

#[global] Instance ListMode_eq_dec : EqDecision ListMode.
Proof. solve_decision. Defined.

(** [b.type?.startsWith(p)]: a missing type gives [undefined], which the
    filter drops. *)
Definition type_startsWith (p : string) (b : BlobDescriptor) : bool :=
  match type b with
  | Some t => String.prefix p t
  | None => false
  end.

(** [.sort((a, b) => (a.created > b.created ? -1 : 1))].  The comparator
    never answers 0, so it is not a consistent comparator in the sense of
    ECMAScript and the order of the result is left to the engine; what every
    engine returns is the elements it was given. *)
Record Sorting :=
  { newest_first : list BlobDescriptor → list BlobDescriptor;
    newest_first_perm : ∀ l, newest_first l ≡ₚ l }.

(** Lines 32-35, 37-40, 60-63 and 77-80. *)
Definition images (S : Sorting) (blobs : list BlobDescriptor) :=
  newest_first S (filter (λ b, type_startsWith "image/" b = true) blobs).

Definition videos (S : Sorting) (blobs : list BlobDescriptor) :=
  newest_first S (filter (λ b, type_startsWith "video/" b = true) blobs).

Definition audioFiles (S : Sorting) (blobs : list BlobDescriptor) :=
  newest_first S (filter (λ b, type_startsWith "audio/" b = true) blobs).

Definition docs (S : Sorting) (blobs : list BlobDescriptor) :=
  newest_first S (filter (λ b, type_startsWith "application/pdf" b = true) blobs).

(** Lines 82-97, the effect that runs after every render in which the mode
    or one of the lists changed: the mode it leaves. *)
Definition effect (S : Sorting) (blobs : list BlobDescriptor) (mode : ListMode)
  : ListMode :=
  match mode with
  | mode_video => if Nat.eqb (length (videos S blobs)) 0 then mode_list else mode
  | mode_audio => if Nat.eqb (length (audioFiles S blobs)) 0 then mode_list else mode
  | mode_gallery => if Nat.eqb (length (images S blobs)) 0 then mode_list else mode
  | mode_docs => if Nat.eqb (length (docs S blobs)) 0 then mode_list else mode
  | mode_list => mode
  end.

(** Lines 126-160, the [disabled] attribute of the button of a mode; the
    button of the documents is guarded by the videos (line 155). *)
Definition disabled (S : Sorting) (blobs : list BlobDescriptor) (m : ListMode)
  : bool :=
  match m with
  | mode_list => false
  | mode_gallery => Nat.eqb (length (images S blobs)) 0
  | mode_audio => Nat.eqb (length (audioFiles S blobs)) 0
  | mode_video => Nat.eqb (length (videos S blobs)) 0
  | mode_docs => Nat.eqb (length (videos S blobs)) 0
  end.

(** A click on the button of [m]: [setMode(m)], unless the button is
    disabled, in which case the browser delivers no click. *)
Definition click (S : Sorting) (blobs : list BlobDescriptor) (m mode : ListMode)
  : ListMode :=
  if disabled S blobs m then mode else m.

(** The list a mode maps over (lines 166, 195, 214, 253 and 282). *)
Definition listed (S : Sorting) (blobs : list BlobDescriptor) (mode : ListMode)
  : list BlobDescriptor :=
  match mode with
  | mode_gallery => images S blobs
  | mode_video => videos S blobs
  | mode_audio => audioFiles S blobs
  | mode_docs => docs S blobs
  | mode_list => blobs
  end.

(** The prefix a gallery filters on. *)
Definition gallery_prefix (m : ListMode) : string :=
  match m with
  | mode_gallery => "image/"
  | mode_video => "video/"
  | mode_audio => "audio/"
  | _ => "application/pdf"
  end.

(** The blobs that no gallery lists. *)
Definition uncategorised (b : BlobDescriptor) : bool :=
  negb (type_startsWith "image/" b || type_startsWith "video/" b
        || type_startsWith "audio/" b || type_startsWith "application/pdf" b).

(** An engine: stdpp's merge sort on [created], newest first. *)
Definition newer_or_same (a b : BlobDescriptor) : Prop := created b ≤ created a.

#[global] Instance newer_or_same_dec : RelDecision newer_or_same :=
  λ a b, decide (created b ≤ created a).

Definition merge_sorting : Sorting :=
  {| newest_first := merge_sort newer_or_same;
     newest_first_perm := merge_sort_Permutation newer_or_same |}.

End BlobList.

(** A picture, a film, a document and a blob without a type. *)
Definition blob_png : BlobList.BlobDescriptor :=
  {| BlobList.sha256 := "01"; BlobList.size := 10;
     BlobList.type := Some "image/png"; BlobList.created := 3;
     BlobList.url := "https://a.example/01" |}.
Definition blob_mp4 : BlobList.BlobDescriptor :=
  {| BlobList.sha256 := "02"; BlobList.size := 20;
     BlobList.type := Some "video/mp4"; BlobList.created := 5;
     BlobList.url := "https://a.example/02" |}.
Definition blob_pdf : BlobList.BlobDescriptor :=
  {| BlobList.sha256 := "03"; BlobList.size := 30;
     BlobList.type := Some "application/pdf"; BlobList.created := 4;
     BlobList.url := "https://a.example/03" |}.
Definition blob_untyped : BlobList.BlobDescriptor :=
  {| BlobList.sha256 := "04"; BlobList.size := 40;
     BlobList.type := None; BlobList.created := 1;
     BlobList.url := "https://a.example/04" |}.

Definition some_blobs : list BlobList.BlobDescriptor :=
  [blob_png; blob_mp4; blob_pdf; blob_untyped].

(** * Properties *)

(** ** Sums of sizes *)

Lemma foldl_size_acc (fs : list File) (a : N) :
  foldl (λ acc f, acc + file_size f) a fs = a + totalSize fs.
Proof.
  unfold totalSize. revert a.
  induction fs as [|f fs IH]; intros a; simpl.
  - lia.
  - rewrite IH, (IH (0 + file_size f)). lia.
Qed.

Lemma totalSize_nil : totalSize [] = 0.
Proof. reflexivity. Qed.

Lemma totalSize_cons f fs : totalSize (f :: fs) = file_size f + totalSize fs.
Proof. unfold totalSize at 1. simpl. rewrite foldl_size_acc. lia. Qed.

Lemma totalSize_app fs1 fs2 :
  totalSize (fs1 ++ fs2) = totalSize fs1 + totalSize fs2.
Proof.
  induction fs1 as [|f fs1 IH]; simpl.
  - rewrite totalSize_nil. lia.
  - rewrite !totalSize_cons, IH. lia.
Qed.

Lemma totalSize_take_le (k : nat) fs : totalSize (take k fs) ≤ totalSize fs.
Proof.
  rewrite <- (take_drop k fs) at 2. rewrite totalSize_app. lia.
Qed.

(** ** Objects *)

Lemma add_transferred_0 ts : add_transferred 0 ts = ts.
Proof. destruct ts; unfold add_transferred; simpl. f_equal. lia. Qed.

Lemma add_transferred_add a b ts :
  add_transferred b (add_transferred a ts) = add_transferred (a + b) ts.
Proof. destruct ts; unfold add_transferred; simpl. f_equal. lia. Qed.

#[global] Instance grows_refl : Reflexive grows.
Proof. intros ts. unfold grows. split_and!; [done | lia | done]. Qed.

#[global] Instance grows_trans : Transitive grows.
Proof.
  intros a b c (Hab1 & Hab2 & Hab3) (Hbc1 & Hbc2 & Hbc3). unfold grows.
  split_and!.
  - congruence.
  - lia.
  - intros Ha. rewrite Hbc3, Hab3; [done | done | congruence].
Qed.

Lemma grows_set_size n ts : enabled ts = true → grows ts (set_size n ts).
Proof.
  intros Hen. unfold grows, set_size; simpl. split_and!; [done | lia | congruence].
Qed.

Lemma grows_add_transferred n ts :
  enabled ts = true → grows ts (add_transferred n ts).
Proof.
  intros Hen. unfold grows, add_transferred; simpl.
  split_and!; [done | lia | congruence].
Qed.

(** ** Reading the ledger *)

Lemma observe_lookup w n :
  observe w !! n = transfersState w !! n ≫= λ l, heap w !! l.
Proof. unfold observe. apply lookup_omap. Qed.

Lemma observe_Some w n ts :
  observe w !! n = Some ts ↔
  ∃ l, transfersState w !! n = Some l ∧ heap w !! l = Some ts.
Proof. rewrite observe_lookup, bind_Some. done. Qed.

Lemma read_enabled_observe w n :
  read_enabled (transfersState w) n w =
  match observe w !! n with Some ts => enabled ts | None => false end.
Proof.
  unfold read_enabled. rewrite observe_lookup.
  destruct (transfersState w !! n) as [l|]; simpl; [|done].
  by destruct (heap w !! l).
Qed.

(** Writing to the object of one key changes that key only. *)
Lemma observe_write w n l ts' :
  ledger_wf w → transfersState w !! n = Some l →
  observe {| heap := <[l := ts']> (heap w);
             transfersState := transfersState w;
             filesState := filesState w;
             pendingState := pendingState w |}
  = <[n := ts']> (observe w).
Proof.
  intros (_ & Hinj & _) Hn. apply map_eq. intros n'.
  rewrite observe_lookup; simpl.
  destruct (decide (n = n')) as [<-|Hne].
  - rewrite Hn, lookup_insert_eq; simpl. by rewrite lookup_insert_eq.
  - rewrite (lookup_insert_ne (observe w)), observe_lookup by done.
    destruct (transfersState w !! n') as [l'|] eqn:Hn'; simpl; [|done].
    rewrite lookup_insert_ne; [done|].
    intros <-. apply Hne. by eapply Hinj.
Qed.

Lemma ledger_wf_write w l ts ts' :
  ledger_wf w → heap w !! l = Some ts →
  ledger_wf {| heap := <[l := ts']> (heap w);
               transfersState := transfersState w;
               filesState := filesState w;
               pendingState := pendingState w |}.
Proof.
  intros (Hdang & Hinj & Hidle) Hl. split; simpl; [|done].
  intros n l' Hn. destruct (decide (l = l')) as [<-|Hne].
  - rewrite lookup_insert_eq. by eexists.
  - rewrite lookup_insert_ne by done. by eapply Hdang.
Qed.

(** ** Evolution of worlds *)

#[global] Instance evolves_refl : Reflexive evolves.
Proof. intros w. split; [done|]. intros l. reflexivity. Qed.

#[global] Instance evolves_trans : Transitive evolves.
Proof.
  intros w1 w2 w3 [Ht12 Hh12] [Ht23 Hh23]. split; [congruence|].
  intros l. etrans; [apply Hh12 | apply Hh23].
Qed.

Lemma evolves_write w l ts ts' :
  heap w !! l = Some ts → grows ts ts' →
  evolves w {| heap := <[l := ts']> (heap w);
               transfersState := transfersState w;
               filesState := filesState w;
               pendingState := pendingState w |}.
Proof.
  intros Hl Hg. split; [done|]. intros l'; simpl.
  destruct (decide (l = l')) as [<-|Hne].
  - rewrite lookup_insert_eq, Hl. by constructor.
  - rewrite lookup_insert_ne by done. reflexivity.
Qed.

Lemma evolves_files w fs :
  evolves w {| heap := heap w; transfersState := transfersState w;
               filesState := fs;
               pendingState := pendingState w |}.
Proof. split; [done|]. intros l. reflexivity. Qed.

Lemma evolves_ledger_le w w' : evolves w w' → ledger_le (observe w) (observe w').
Proof.
  intros [Ht Hh] n. rewrite !observe_lookup, Ht.
  destruct (transfersState w !! n) as [l|]; simpl; [apply Hh | constructor].
Qed.

Lemma evolves_read_enabled tr n w w' :
  evolves w w' → read_enabled tr n w' = read_enabled tr n w.
Proof.
  intros [_ Hh]. unfold read_enabled.
  destruct (tr !! n) as [l|]; [|done].
  specialize (Hh l). destruct Hh as [ts ts' (Hen & _ & _)|]; done.
Qed.

#[global] Instance ledger_le_refl : Reflexive ledger_le.
Proof. intros v n. reflexivity. Qed.

#[global] Instance ledger_le_trans : Transitive ledger_le.
Proof. intros v1 v2 v3 H12 H23 n. etrans; [apply H12 | apply H23]. Qed.

(** ** Histories *)

Lemma history_evolves w t w' : history w t w' → evolves w w'.
Proof. induction 1; [done | by etrans]. Qed.

Lemma history_pre w0 w t w' : evolves w0 w → history w t w' → history w0 t w'.
Proof.
  intros H0 H. destruct H.
  - constructor. by etrans.
  - constructor; [by etrans | done].
Qed.

Lemma history_app w t1 w1 t2 w2 :
  history w t1 w1 → history w1 t2 w2 → history w (t1 ++ t2) w2.
Proof.
  induction 1 as [w w' Hev | w wa w' ev t Hev Hh IH]; intros H2; simpl.
  - by eapply history_pre.
  - constructor; [done | by apply IH].
Qed.

Lemma history_emit w ev : history w [(ev, observe w)] w.
Proof. constructor; [reflexivity | constructor; reflexivity]. Qed.

(** Any two observation points of a history, in their order, are related. *)
Lemma history_ordered w t w' (i j : nat) vi vj :
  history w t w' → (i ≤ j)%nat →
  (observe w :: map snd t ++ [observe w']) !! i = Some vi →
  (observe w :: map snd t ++ [observe w']) !! j = Some vj →
  ledger_le vi vj.
Proof.
  intros H. revert i j vi vj.
  induction H as [w w' Hev | w w1 w' ev t Hev Hh IH]; intros i j vi vj Hij Hi Hj.
  - simpl in *. destruct i as [|[|i]], j as [|[|j]]; simplify_eq/=; try lia;
      try reflexivity.
    by apply evolves_ledger_le.
  - destruct i as [|i]; simpl in Hi.
    + injection Hi as <-. destruct j as [|j]; simpl in Hj.
      * injection Hj as <-. reflexivity.
      * etrans; [apply evolves_ledger_le, Hev|].
        apply (IH 0%nat j); [lia | done | done].
    + destruct j as [|j]; [lia|]. simpl in Hj.
      apply (IH i j); [lia | done | done].
Qed.

Lemma history_Forall w t w' :
  history w t w' →
  Forall (λ v, ledger_le (observe w) v) (map snd t ++ [observe w']).
Proof.
  intros H. apply Forall_forall. intros v Hv.
  apply list_elem_of_lookup in Hv as [j Hj].
  apply (history_ordered w t w' 0 (S j) (observe w) v H); [lia | done | done].
Qed.

(** ** Unfolding the loops *)

Lemma run_eta {A} (x : Res A * World * list Entry) :
  x = (outcome x, final x, trace x).
Proof. by destruct x as [[r w] t]. Qed.

Lemma bind_run_Ok {A B} (m : M A) (k : A → M B) w a w1 t1 :
  m w = (Ok a, w1, t1) →
  bind m k w = (outcome (k a w1), final (k a w1), t1 ++ trace (k a w1)).
Proof. intros Hm. unfold bind. rewrite Hm. by destruct (k a w1) as [[r w2] t2]. Qed.

Lemma bind_run_Throw {A B} (m : M A) (k : A → M B) w e w1 t1 :
  m w = (Throw e, w1, t1) → bind m k w = (Throw e, w1, t1).
Proof. intros Hm. unfold bind. by rewrite Hm. Qed.

Lemma render_idle w : pendingState w = None → render w = w.
Proof. intros Hidle. unfold render. by rewrite Hidle. Qed.

Lemma settle_idle w : pendingState w = None → settle w = w.
Proof. intros Hidle. unfold settle. by rewrite Hidle. Qed.

Lemma ledger_wf_idle w : ledger_wf w → pendingState w = None.
Proof. by intros (_ & _ & ?). Qed.

Lemma await_run {A} ev (o : option A) e w :
  await ev o e w
  = (match o with Some a => Ok a | None => Throw e end, render w,
     [(ev, observe w)]).
Proof. unfold await, bind, emit. simpl. by destruct o. Qed.

Lemma await_Some {A} ev (a : A) e w :
  await ev (Some a) e w = (Ok a, render w, [(ev, observe w)]).
Proof. by rewrite await_run. Qed.

Lemma await_None {A} ev e w :
  await (A := A) ev None e w = (Throw e, render w, [(ev, observe w)]).
Proof. by rewrite await_run. Qed.

Lemma await_run_Some {A} ev (a : A) e w :
  pendingState w = None →
  await ev (Some a) e w = (Ok a, w, [(ev, observe w)]).
Proof. intros Hidle. by rewrite await_run, render_idle. Qed.

Lemma await_run_None {A} ev e w :
  pendingState w = None →
  await (A := A) ev None e w = (Throw e, w, [(ev, observe w)]).
Proof. intros Hidle. by rewrite await_run, render_idle. Qed.

Lemma bump_transferred_run w n ts k :
  observe w !! n = Some ts →
  ∃ l, transfersState w !! n = Some l ∧ heap w !! l = Some ts ∧
       bump_transferred (transfersState w) n k w =
       (Ok tt, {| heap := <[l := add_transferred k ts]> (heap w);
                  transfersState := transfersState w;
                  filesState := filesState w;
                  pendingState := pendingState w |}, []).
Proof.
  intros (l & Hn & Hl)%observe_Some. exists l. split_and!; [done | done |].
  unfold bump_transferred. by rewrite Hn, Hl.
Qed.

Section uploadFiles_steps.
Context (E : Collaborators) (tr : gmap string loc) (i : nat) (s : Server)
        (serverUrl : string) (j : nat) (file : File) (rest : list File)
        (w : World).

Local Abbreviation auth_entry := (GetUploadAuth (name s) j file, observe w).
Local Abbreviation blob_entry := (UploadBlob (name s) serverUrl j file, observe w).

Hypothesis Hidle : pendingState w = None.

Lemma uploadFiles_auth_rejected :
  getUploadAuth E i j file = None →
  uploadFiles E tr i s serverUrl j (file :: rest) w
  = (Throw AuthRejected, w, [auth_entry]).
Proof.
  intros Ha. simpl. erewrite bind_run_Throw; [done|].
  rewrite Ha. by apply await_run_None.
Qed.

Lemma uploadFiles_transport_rejected a :
  getUploadAuth E i j file = Some a →
  uploadBlob E i j serverUrl file a = None →
  uploadFiles E tr i s serverUrl j (file :: rest) w
  = (Throw TransportRejected, w, [auth_entry; blob_entry]).
Proof.
  intros Ha Hb. simpl.
  erewrite bind_run_Ok by (rewrite Ha; by apply await_run_Some).
  erewrite bind_run_Throw by (rewrite Hb; by apply await_run_None).
  done.
Qed.

Lemma uploadFiles_transferred a b w1 :
  getUploadAuth E i j file = Some a →
  uploadBlob E i j serverUrl file a = Some b →
  bump_transferred tr (name s) (file_size file) w = (Ok tt, w1, []) →
  uploadFiles E tr i s serverUrl j (file :: rest) w
  = (outcome (uploadFiles E tr i s serverUrl (S j) rest w1),
     final (uploadFiles E tr i s serverUrl (S j) rest w1),
     auth_entry :: blob_entry :: (ConsoleLog (name s) b, observe w1)
     :: trace (uploadFiles E tr i s serverUrl (S j) rest w1)).
Proof.
  intros Ha Hb Hw1. simpl.
  erewrite bind_run_Ok by (rewrite Ha; by apply await_run_Some).
  erewrite bind_run_Ok by (rewrite Hb; by apply await_run_Some).
  erewrite bind_run_Ok by exact Hw1.
  erewrite bind_run_Ok by reflexivity.
  done.
Qed.
End uploadFiles_steps.

Section uploadServers_steps.
Context (E : Collaborators) (serverInfo : gmap string ServerInfo)
        (tr : gmap string loc) (filesToUpload : list File) (i : nat)
        (s : Server) (rest : list Server) (w : World).

Lemma uploadServers_skip :
  read_enabled tr (name s) w = false →
  uploadServers E serverInfo tr filesToUpload i (s :: rest) w
  = uploadServers E serverInfo tr filesToUpload (S i) rest w.
Proof. intros Hen. simpl. by rewrite Hen. Qed.

Lemma uploadServers_no_url :
  read_enabled tr (name s) w = true →
  serverInfo !! name s = None →
  uploadServers E serverInfo tr filesToUpload i (s :: rest) w
  = (Throw TypeError, w, []).
Proof. intros Hen Hinfo. simpl. rewrite Hen, Hinfo. reflexivity. Qed.

Lemma uploadServers_pass_Throw info e w1 t1 :
  read_enabled tr (name s) w = true →
  serverInfo !! name s = Some info →
  uploadFiles E tr i s (url info) 0 filesToUpload w = (Throw e, w1, t1) →
  uploadServers E serverInfo tr filesToUpload i (s :: rest) w
  = (Throw e, w1, t1).
Proof.
  intros Hen Hinfo Hpass. simpl. rewrite Hen, Hinfo; simpl.
  erewrite bind_run_Ok by reflexivity.
  erewrite bind_run_Throw by exact Hpass. done.
Qed.

Lemma uploadServers_pass_Ok info w1 t1 :
  read_enabled tr (name s) w = true →
  serverInfo !! name s = Some info →
  uploadFiles E tr i s (url info) 0 filesToUpload w = (Ok tt, w1, t1) →
  let w2 := {| heap := heap w1; transfersState := transfersState w1;
               filesState := [];
               pendingState := pendingState w1 |} in
  let x := uploadServers E serverInfo tr filesToUpload (S i) rest w2 in
  uploadServers E serverInfo tr filesToUpload i (s :: rest) w
  = (outcome x, final x,
     t1 ++ (InvalidateQueries (name s), observe w1)
        :: (SetFiles [], observe w2) :: trace x).
Proof.
  intros Hen Hinfo Hpass. simpl. rewrite Hen, Hinfo; simpl.
  erewrite bind_run_Ok by reflexivity.
  erewrite bind_run_Ok by exact Hpass.
  erewrite bind_run_Ok by reflexivity.
  erewrite bind_run_Ok by reflexivity.
  done.
Qed.
End uploadServers_steps.

(** ** One destination's file loop *)

Lemma counted_0 n ts v : v !! n = Some ts → counted n 0 ts v = v.
Proof. intros Hn. unfold counted. rewrite add_transferred_0. by apply insert_id. Qed.

Lemma counted_counted n a b ts v :
  counted n b (add_transferred a ts) (counted n a ts v) = counted n (a + b) ts v.
Proof. unfold counted. by rewrite insert_insert_eq, add_transferred_add. Qed.

(** The pass of an enabled destination over [files], started in [w] where
    its entry is [ts]: [k] files are transferred before the loop ends. *)
Lemma uploadFiles_spec E i server serverUrl files :
  ∀ (j : nat) w ts,
    ledger_wf w → observe w !! name server = Some ts → enabled ts = true →
    let x := uploadFiles E (transfersState w) i server serverUrl j files w in
    ∃ k : nat,
      (k ≤ length files)%nat ∧
      ledger_wf (final x) ∧
      transfersState (final x) = transfersState w ∧
      filesState (final x) = filesState w ∧
      observe (final x)
        = counted (name server) (totalSize (take k files)) ts (observe w) ∧
      history w (trace x) (final x) ∧
      Forall (λ e : Entry,
                ev_server e.1 = Some (name server) ∧ is_signal e.1 = false ∧
                ∃ m : nat, (m ≤ k)%nat ∧
                  e.2 = counted (name server) (totalSize (take m files)) ts
                          (observe w))
             (trace x) ∧
      match outcome x with
      | Ok _ => k = length files
      | Throw e =>
          ∃ t0 call f,
            files !! k = Some f ∧
            trace x = t0 ++ [(call, observe (final x))] ∧
            ((e = AuthRejected ∧ call = GetUploadAuth (name server) (j + k) f) ∨
             (e = TransportRejected ∧
              call = UploadBlob (name server) serverUrl (j + k) f))
      end.
Proof.
  induction files as [|file rest IH]; intros j w ts Hwf Hobs Hen x.
  - exists 0%nat. subst x. simpl.
    split_and!; try done.
    + by rewrite totalSize_nil, counted_0.
    + constructor. reflexivity.
  - assert (Hsame : observe w
                     = counted (name server)
                         (totalSize (take 0 (file :: rest))) ts (observe w))
      by (simpl; by rewrite totalSize_nil, counted_0).
    destruct (getUploadAuth E i j file) as [a|] eqn:Ha.
    2:{ exists 0%nat. subst x.
        rewrite (uploadFiles_auth_rejected _ _ _ _ _ _ _ _ _ (ledger_wf_idle _ Hwf) Ha). simpl.
        split_and!; try done.
        - lia.
        - apply history_emit.
        - repeat constructor. exists 0%nat. split; [lia | done].
        - exists [], (GetUploadAuth (name server) j file), file.
          split_and!; [done | done |]. left. split; [done|]. f_equal. lia. }
    destruct (uploadBlob E i j serverUrl file a) as [b|] eqn:Hb.
    2:{ exists 0%nat. subst x.
        rewrite (uploadFiles_transport_rejected _ _ _ _ _ _ _ _ _ (ledger_wf_idle _ Hwf) _ Ha Hb). simpl.
        split_and!; try done.
        - lia.
        - apply (history_app w [_] w [_] w); apply history_emit.
        - repeat constructor; exists 0%nat; (split; [lia | done]).
        - exists [(GetUploadAuth (name server) j file, observe w)],
            (UploadBlob (name server) serverUrl j file), file.
          split_and!; [done | done |]. right. split; [done|]. f_equal. lia. }
    destruct (bump_transferred_run w (name server) ts (file_size file) Hobs)
      as (l & Hl & Hts & Hbump).
    set (w1 := {| heap := <[l := add_transferred (file_size file) ts]> (heap w);
                  transfersState := transfersState w;
                  filesState := filesState w;
                  pendingState := pendingState w |}) in *.
    assert (Hwf1 : ledger_wf w1) by (by eapply ledger_wf_write).
    assert (Hobs1 : observe w1
                    = counted (name server) (file_size file) ts (observe w))
      by (by apply observe_write).
    assert (Hev1 : evolves w w1)
      by (eapply evolves_write; [done | by apply grows_add_transferred]).
    destruct (IH (S j) w1 (add_transferred (file_size file) ts) Hwf1)
      as (k & Hk & Hwf' & Htr' & Hfs' & Hobs' & Hhist' & Hall' & Hout');
      [by rewrite Hobs1; apply lookup_insert_eq | done |].
    change (transfersState w1) with (transfersState w) in *.
    change (filesState w1) with (filesState w) in *.
    exists (S k). subst x.
    rewrite (uploadFiles_transferred _ _ _ _ _ _ _ _ _ (ledger_wf_idle _ Hwf) _ _ _ Ha Hb Hbump).
    set (y := uploadFiles E (transfersState w) i server serverUrl (S j) rest w1) in *.
    assert (Hcount : ∀ m : nat,
      counted (name server) (totalSize (take m rest))
        (add_transferred (file_size file) ts) (observe w1)
      = counted (name server) (totalSize (take (S m) (file :: rest))) ts (observe w)).
    { intros m. rewrite Hobs1, counted_counted. simpl.
      by rewrite totalSize_cons. }
    unfold outcome, final, trace in *; simpl.
    split_and!.
    + simpl. lia.
    + done.
    + done.
    + done.
    + by rewrite Hobs', Hcount.
    + apply (history_app w [_; _] w); [apply (history_app w [_] w [_] w); apply history_emit|].
      constructor; [done | done].
    + constructor; [|constructor; [|constructor]].
      * split_and!; [done | done |]. exists 0%nat. split; [lia | done].
      * split_and!; [done | done |]. exists 0%nat. split; [lia | done].
      * split_and!; [done | done |]. exists 1%nat. split; [lia|]. simpl.
        rewrite Hobs1. simpl. rewrite take_0, totalSize_cons, totalSize_nil.
        f_equal. f_equal. lia.
      * eapply Forall_impl; [exact Hall'|]. intros e (He1 & He2 & m & Hm & He3).
        split_and!; [done | done |]. exists (S m). split; [lia|].
        by rewrite He3, Hcount.
    + destruct (y.1.1) as [u|e].
      * simpl. by rewrite Hout'.
      * destruct Hout' as (t0 & call & f & Hf & Ht & Hcall).
        exists ((GetUploadAuth (name server) j file, observe w)
                :: (UploadBlob (name server) serverUrl j file, observe w)
                :: (ConsoleLog (name server) b, observe w1) :: t0), call, f.
        split_and!; [done | by rewrite Ht |].
        replace (j + S k)%nat with (S j + k)%nat by lia. done.
Qed.

(** ** The destination loop *)

Lemma ledger_wf_files w fs :
  ledger_wf w →
  ledger_wf {| heap := heap w; transfersState := transfersState w;
               filesState := fs;
               pendingState := pendingState w |}.
Proof. done. Qed.

Lemma is_enabled_observe w s :
  is_enabled w s =
  match observe w !! name s with Some ts => enabled ts | None => false end.
Proof. apply read_enabled_observe. Qed.

Lemma is_enabled_true w s :
  is_enabled w s = true ↔ ∃ ts, observe w !! name s = Some ts ∧ enabled ts = true.
Proof.
  rewrite is_enabled_observe. destruct (observe w !! name s) as [ts|].
  - split; [by exists ts | by intros (? & [= <-] & ?)].
  - split; [done | by intros (? & ? & ?)].
Qed.

Section uploadServers_induction.
Context (E : Collaborators) (serverInfo : gmap string ServerInfo)
        (files : list File).

Local Abbreviation run i servers w :=
  (uploadServers E serverInfo (transfersState w) files i servers w).
Local Abbreviation pass i s info w :=
  (uploadFiles E (transfersState w) i s (url info) 0 files w).
Local Abbreviation cleared w :=
  {| heap := heap w; transfersState := transfersState w; filesState := []; pendingState := pendingState w |}.

Variable P : nat → list Server → World → Res unit * World * list Entry → Prop.

Hypothesis P_nil : ∀ i w, ledger_wf w → P i [] w (Ok tt, w, []).
Hypothesis P_skip : ∀ i s rest w,
  ledger_wf w → is_enabled w s = false →
  P (S i) rest w (run (S i) rest w) →
  P i (s :: rest) w (run (S i) rest w).
Hypothesis P_no_url : ∀ i s rest w,
  ledger_wf w → is_enabled w s = true → serverInfo !! name s = None →
  P i (s :: rest) w (Throw TypeError, w, []).
Hypothesis P_pass_Throw : ∀ i s rest w info ts e,
  ledger_wf w → observe w !! name s = Some ts → enabled ts = true →
  serverInfo !! name s = Some info →
  outcome (pass i s info w) = Throw e →
  P i (s :: rest) w (pass i s info w).
Hypothesis P_pass_Ok : ∀ i s rest w info ts,
  ledger_wf w → observe w !! name s = Some ts → enabled ts = true →
  serverInfo !! name s = Some info →
  outcome (pass i s info w) = Ok tt →
  P (S i) rest (cleared (final (pass i s info w)))
    (run (S i) rest (cleared (final (pass i s info w)))) →
  P i (s :: rest) w
    (outcome (run (S i) rest (cleared (final (pass i s info w)))),
     final (run (S i) rest (cleared (final (pass i s info w)))),
     trace (pass i s info w)
     ++ (InvalidateQueries (name s), observe (final (pass i s info w)))
     :: (SetFiles [], observe (cleared (final (pass i s info w))))
     :: trace (run (S i) rest (cleared (final (pass i s info w))))).

Lemma uploadServers_run_ind i servers w :
  ledger_wf w → P i servers w (run i servers w).
Proof.
  revert i w. induction servers as [|s rest IH]; intros i w Hwf.
  - by apply P_nil.
  - destruct (is_enabled w s) eqn:Hen.
    2:{ rewrite uploadServers_skip by exact Hen.
        apply P_skip; [done | done | by apply IH]. }
    destruct (serverInfo !! name s) as [info|] eqn:Hinfo.
    2:{ rewrite uploadServers_no_url by done. by apply P_no_url. }
    pose proof Hen as (ts & Hts & Htsen)%is_enabled_true.
    destruct (uploadFiles_spec E i s (url info) files 0 w ts Hwf Hts Htsen)
      as (k & _ & Hwf' & Htr' & _).
    destruct (outcome (pass i s info w)) as [[]|e] eqn:Hout.
    + rewrite (uploadServers_pass_Ok E serverInfo (transfersState w) files i s
                 rest w info (final (pass i s info w)) (trace (pass i s info w)))
        by (try done; rewrite <- Hout; apply run_eta).
      simpl. set (y := pass i s info w) in *. rewrite <- Htr'. subst y.
      eapply (P_pass_Ok i s rest w info ts); [done..|].
      apply IH. destruct Hwf' as [Hd Hi]. by split.
    + rewrite (uploadServers_pass_Throw E serverInfo (transfersState w) files i s
                 rest w info e (final (pass i s info w)) (trace (pass i s info w)))
        by (try done; rewrite <- Hout; apply run_eta).
      rewrite <- Hout, <- run_eta. by eapply P_pass_Throw.
Qed.
End uploadServers_induction.

Lemma observe_files w fs :
  observe {| heap := heap w; transfersState := transfersState w;
             filesState := fs;
             pendingState := pendingState w |} = observe w.
Proof. reflexivity. Qed.

Lemma evolves_is_enabled w w' s :
  evolves w w' → is_enabled w' s = is_enabled w s.
Proof.
  intros Hev. unfold is_enabled. rewrite (proj1 Hev).
  by apply evolves_read_enabled.
Qed.

(** A run of the destination loop is a history and keeps the ledger
    well formed. *)
Lemma uploadServers_history E serverInfo files i servers w :
  ledger_wf w →
  let x := uploadServers E serverInfo (transfersState w) files i servers w in
  ledger_wf (final x) ∧ transfersState (final x) = transfersState w ∧
  history w (trace x) (final x).
Proof.
  intros Hwf x. subst x. revert i servers w Hwf.
  apply (uploadServers_run_ind E serverInfo files
    (λ _ _ w x, ledger_wf (final x) ∧ transfersState (final x) = transfersState w
                ∧ history w (trace x) (final x))).
  - intros _ w Hwf. split_and!; [done | done | constructor; reflexivity].
  - done.
  - intros _ s rest w Hwf _ _. split_and!; [done | done | constructor; reflexivity].
  - intros i s rest w info ts e Hwf Hts Hen _ _.
    destruct (uploadFiles_spec E i s (url info) files 0 w ts Hwf Hts Hen)
      as (k & _ & Hwf' & Htr' & _ & _ & Hhist & _). done.
  - intros i s rest w info ts Hwf Hts Hen _ _ (IHwf & IHtr & IHhist).
    destruct (uploadFiles_spec E i s (url info) files 0 w ts Hwf Hts Hen)
      as (k & _ & Hwf' & Htr' & _ & _ & Hhist & _).
    unfold final, trace in *; simpl in *.
    split_and!; [done | congruence |].
    eapply history_app; [exact Hhist|].
    constructor; [reflexivity|].
    constructor; [apply evolves_files | exact IHhist].
Qed.

(** Events carry the names of destinations that are in the list and were
    enabled when the loop started. *)
Lemma uploadServers_tags E serverInfo files i servers w :
  ledger_wf w →
  Forall (λ e : Entry, ∀ n, ev_server e.1 = Some n →
            ∃ s, s ∈ servers ∧ name s = n ∧ is_enabled w s = true)
    (trace (uploadServers E serverInfo (transfersState w) files i servers w)).
Proof.
  revert i servers w.
  apply (uploadServers_run_ind E serverInfo files
    (λ _ servers w x,
       Forall (λ e : Entry, ∀ n, ev_server e.1 = Some n →
                 ∃ s, s ∈ servers ∧ name s = n ∧ is_enabled w s = true)
              (trace x))).
  - intros. constructor.
  - intros i s rest w _ _ IH. eapply Forall_impl; [exact IH|].
    intros e He n Hn. destruct (He n Hn) as (s' & Hs' & Hname & Hen').
    exists s'. split_and!; [by right | done | done].
  - intros. constructor.
  - intros i s rest w info ts e Hwf Hts Hen _ _.
    destruct (uploadFiles_spec E i s (url info) files 0 w ts Hwf Hts Hen)
      as (k & _ & _ & _ & _ & _ & _ & Hall & _).
    eapply Forall_impl; [exact Hall|].
    intros ev (Hsrv & _) n Hn. exists s.
    split_and!; [by left | congruence | apply is_enabled_true; eauto].
  - intros i s rest w info ts Hwf Hts Hen _ _ IH.
    destruct (uploadFiles_spec E i s (url info) files 0 w ts Hwf Hts Hen)
      as (k & _ & _ & Htr' & _ & _ & Hhist & Hall & _).
    assert (Hs : is_enabled w s = true) by (apply is_enabled_true; eauto).
    unfold trace in *; simpl in *.
    apply Forall_app. split; [|constructor; [|constructor]].
    + eapply Forall_impl; [exact Hall|].
      intros ev (Hsrv & _) n Hn. exists s.
      split_and!; [by left | congruence | done].
    + simpl. intros n [= <-]. exists s. split_and!; [by left | done | done].
    + simpl. intros n [=].
    + eapply Forall_impl; [exact IH|].
      intros e He n Hn. destruct (He n Hn) as (s' & Hs' & Hname & Hen').
      exists s'. split_and!; [by right | done |].
      rewrite <- Hen'. symmetry. apply evolves_is_enabled.
      etrans; [eapply history_evolves, Hhist | apply evolves_files].
Qed.

Lemma within_refl files nms v : within files nms v v.
Proof.
  intros n. destruct (v !! n) as [ts|] eqn:Hn; [|done].
  exists 0%nat. rewrite take_0, totalSize_nil.
  split; [by rewrite add_transferred_0 | done].
Qed.

Lemma within_mono files nms nms' v0 v :
  (∀ n, n ∈ nms → n ∈ nms') → within files nms v0 v → within files nms' v0 v.
Proof.
  intros Hsub H n. specialize (H n). destruct (v0 !! n) as [ts0|]; [|done].
  destruct H as (m & Hv & Hnz). exists m. split; [done|].
  intros Hc0. destruct (Hnz Hc0). split; [done | by apply Hsub].
Qed.

Lemma within_counted files nms D (m : nat) ts v0 :
  v0 !! D = Some ts → enabled ts = true →
  within files (D :: nms) v0 (counted D (totalSize (take m files)) ts v0).
Proof.
  intros HD Hen n. unfold counted.
  destruct (decide (D = n)) as [<-|Hne].
  - rewrite HD, lookup_insert_eq. exists m.
    split; [done|]. intros _. split; [done | by left].
  - rewrite lookup_insert_ne by done.
    destruct (v0 !! n) as [ts0|] eqn:Hn; [|done].
    exists 0%nat. rewrite take_0, totalSize_nil.
    split; [by rewrite add_transferred_0 | done].
Qed.

Lemma within_after_pass files nms D (k : nat) ts v0 v :
  v0 !! D = Some ts → enabled ts = true → D ∉ nms →
  within files nms (counted D (totalSize (take k files)) ts v0) v →
  within files (D :: nms) v0 v.
Proof.
  intros HD Hen Hnot H n. specialize (H n). unfold counted in H.
  destruct (decide (D = n)) as [<-|Hne].
  - rewrite lookup_insert_eq in H. rewrite HD.
    destruct H as (m & Hv & Hnz).
    destruct (decide (totalSize (take m files) = 0)) as [Hc|Hc].
    + rewrite Hc, add_transferred_0 in Hv. exists k.
      split; [done|]. intros _. split; [done | by left].
    + by destruct (Hnz Hc) as [_ ?].
  - rewrite lookup_insert_ne in H by done.
    destruct (v0 !! n) as [ts0|]; [|done].
    destruct H as (m & Hv & Hnz). exists m. split; [done|].
    intros Hc'. destruct (Hnz Hc'). split; [done | by right].
Qed.

(** Every observation of the destination loop is the starting ledger with
    whole files counted. *)
Lemma uploadServers_within E serverInfo files i servers w :
  ledger_wf w → NoDup (names servers) →
  let x := uploadServers E serverInfo (transfersState w) files i servers w in
  Forall (within files (names servers) (observe w))
         (map snd (trace x) ++ [observe (final x)]).
Proof.
  intros Hwf. revert i servers w Hwf.
  apply (uploadServers_run_ind E serverInfo files
    (λ _ servers w x,
       NoDup (names servers) →
       Forall (within files (names servers) (observe w))
              (map snd (trace x) ++ [observe (final x)]))).
  - intros i w _ _. repeat constructor. apply within_refl.
  - intros i s rest w _ _ IH [_ Hnd]%NoDup_cons.
    eapply Forall_impl; [exact (IH Hnd)|]. intros v.
    apply within_mono. intros n Hn. by right.
  - intros i s rest w _ _ _ _. repeat constructor. apply within_refl.
  - intros i s rest w info ts e Hwf Hts Hen _ _ [_ Hnd]%NoDup_cons.
    destruct (uploadFiles_spec E i s (url info) files 0 w ts Hwf Hts Hen)
      as (k & _ & _ & _ & _ & Hobs & _ & Hall & _).
    apply Forall_app. split.
    + apply Forall_fmap. eapply Forall_impl; [exact Hall|].
      intros ev (_ & _ & m & _ & Hv). simpl. rewrite Hv.
      by apply within_counted.
    + repeat constructor. rewrite Hobs. by apply within_counted.
  - intros i s rest w info ts Hwf Hts Hen _ Hout IH [Hnot Hnd]%NoDup_cons.
    destruct (uploadFiles_spec E i s (url info) files 0 w ts Hwf Hts Hen)
      as (k & _ & _ & _ & _ & Hobs & _ & Hall & Hk).
    rewrite Hout in Hk.
    unfold final, trace in *; simpl in *.
    rewrite map_app, <- app_assoc. apply Forall_app. split.
    + apply Forall_fmap. eapply Forall_impl; [exact Hall|].
      intros ev (_ & _ & m & _ & Hv). simpl. rewrite Hv.
      by apply within_counted.
    + simpl. constructor; [|constructor].
      * rewrite Hobs. by apply within_counted.
      * rewrite observe_files, Hobs. by apply within_counted.
      * eapply Forall_impl; [exact (IH Hnd)|]. intros v.
        rewrite observe_files, Hobs. by apply within_after_pass.
Qed.

Lemma same_sizes_refl v : same_sizes v v.
Proof. intros n ts Hn. by exists ts. Qed.

Lemma same_sizes_trans v1 v2 v3 :
  same_sizes v1 v2 → same_sizes v2 v3 → same_sizes v1 v3.
Proof.
  intros H12 H23 n ts Hn. destruct (H12 n ts Hn) as (ts2 & Hn2 & Hs2).
  destruct (H23 n ts2 Hn2) as (ts3 & Hn3 & Hs3). exists ts3.
  split; [done | congruence].
Qed.

Lemma same_sizes_counted D c ts v :
  v !! D = Some ts → same_sizes v (counted D c ts v).
Proof.
  intros HD n ts' Hn. unfold counted.
  destruct (decide (D = n)) as [<-|Hne].
  - rewrite lookup_insert_eq. eexists. split; [done|].
    rewrite HD in Hn. by injection Hn as <-.
  - rewrite lookup_insert_ne by done. by exists ts'.
Qed.

Lemma uploadServers_sizes E serverInfo files i servers w :
  ledger_wf w →
  let x := uploadServers E serverInfo (transfersState w) files i servers w in
  Forall (same_sizes (observe w)) (map snd (trace x) ++ [observe (final x)]).
Proof.
  revert i servers w.
  apply (uploadServers_run_ind E serverInfo files
    (λ _ _ w x,
       Forall (same_sizes (observe w)) (map snd (trace x) ++ [observe (final x)]))).
  - intros i w _. repeat constructor. apply same_sizes_refl.
  - done.
  - intros i s rest w _ _ _. repeat constructor. apply same_sizes_refl.
  - intros i s rest w info ts e Hwf Hts Hen _ _.
    destruct (uploadFiles_spec E i s (url info) files 0 w ts Hwf Hts Hen)
      as (k & _ & _ & _ & _ & Hobs & _ & Hall & _).
    apply Forall_app. split.
    + apply Forall_fmap. eapply Forall_impl; [exact Hall|].
      intros ev (_ & _ & m & _ & Hv). simpl. rewrite Hv.
      by apply same_sizes_counted.
    + repeat constructor. rewrite Hobs. by apply same_sizes_counted.
  - intros i s rest w info ts Hwf Hts Hen _ Hout IH.
    destruct (uploadFiles_spec E i s (url info) files 0 w ts Hwf Hts Hen)
      as (k & _ & _ & _ & _ & Hobs & _ & Hall & _).
    unfold final, trace in *; simpl in *.
    rewrite map_app, <- app_assoc. apply Forall_app. split.
    + apply Forall_fmap. eapply Forall_impl; [exact Hall|].
      intros ev (_ & _ & m & _ & Hv). simpl. rewrite Hv.
      by apply same_sizes_counted.
    + simpl. constructor; [|constructor].
      * rewrite Hobs. by apply same_sizes_counted.
      * rewrite observe_files, Hobs. by apply same_sizes_counted.
      * eapply Forall_impl; [exact IH|]. intros v.
        rewrite observe_files, Hobs. apply same_sizes_trans.
        by apply same_sizes_counted.
Qed.

(** ** End-of-pass signals *)

Lemma signals_app t1 t2 : signals (t1 ++ t2) = signals t1 ++ signals t2.
Proof. unfold signals. by rewrite map_app, filter_app. Qed.

Lemma signals_none t :
  Forall (λ e : Entry, is_signal e.1 = false) t → signals t = [].
Proof.
  induction 1 as [|e t He _ IH]; [done|].
  unfold signals in *. simpl. rewrite filter_cons_False; [done|]. congruence.
Qed.

Lemma uploadFiles_signals E i s serverUrl files w ts :
  ledger_wf w → observe w !! name s = Some ts → enabled ts = true →
  signals (trace (uploadFiles E (transfersState w) i s serverUrl 0 files w)) = [].
Proof.
  intros Hwf Hts Hen.
  destruct (uploadFiles_spec E i s serverUrl files 0 w ts Hwf Hts Hen)
    as (k & _ & _ & _ & _ & _ & _ & Hall & _).
  apply signals_none. eapply Forall_impl; [exact Hall|]. by intros e (_ & ? & _).
Qed.

Lemma filter_enabled_evolves w w' (l : list Server) :
  evolves w w' →
  filter (λ s, is_enabled w' s = true) l = filter (λ s, is_enabled w s = true) l.
Proof.
  intros Hev. apply list_filter_iff. intros s.
  by rewrite (evolves_is_enabled w w' s Hev).
Qed.

(** A destination loop that ends normally has signalled once, in order,
    for every enabled destination. *)
Lemma uploadServers_Ok E serverInfo files i servers w :
  ledger_wf w →
  let x := uploadServers E serverInfo (transfersState w) files i servers w in
  outcome x = Ok tt →
  signals (trace x)
    = flat_map pass_signals (filter (λ s, is_enabled w s = true) servers) ∧
  filesState (final x) = selection_after w servers (filesState w).
Proof.
  intros Hwf. revert i servers w Hwf.
  apply (uploadServers_run_ind E serverInfo files
    (λ _ servers w x,
       outcome x = Ok tt →
       signals (trace x)
         = flat_map pass_signals (filter (λ s, is_enabled w s = true) servers) ∧
       filesState (final x) = selection_after w servers (filesState w))).
  - done.
  - intros i s rest w _ Hen IH Hout. unfold selection_after.
    rewrite filter_cons_False by congruence. by apply IH.
  - done.
  - intros i s rest w info ts e _ _ _ _ Hout Hout'. congruence.
  - intros i s rest w info ts Hwf Hts Hen _ Hout IH Hout'.
    destruct (uploadFiles_spec E i s (url info) files 0 w ts Hwf Hts Hen)
      as (k & _ & _ & Htr' & _ & _ & Hhist & _ & _).
    assert (Hs : is_enabled w s = true) by (apply is_enabled_true; eauto).
    set (w1 := final (uploadFiles E (transfersState w) i s (url info) 0 files w))
      in *.
    assert (Hev : evolves w {| heap := heap w1; transfersState := transfersState w1;
                               filesState := [];
                               pendingState := pendingState w1 |})
      by (etrans; [eapply history_evolves, Hhist | apply evolves_files]).
    destruct (IH Hout') as [IHsig IHfs].
    unfold selection_after in *.
    rewrite (filter_enabled_evolves _ _ rest Hev) in IHsig, IHfs.
    simpl in *.
    rewrite filter_cons_True by done. split.
    + rewrite signals_app, (uploadFiles_signals E i s (url info) files w ts) by done.
      simpl. change (signals (?a :: ?b :: ?t)) with (a.1 :: b.1 :: signals t).
      by rewrite IHsig.
    + rewrite IHfs. by case_match.
Qed.

(** A destination loop that throws has stopped in the pass of one enabled
    destination [D]: the destinations before it are done, nothing has
    happened for those after it, and unless the base address of [D] was
    missing, the last thing that happened is the rejected call. *)
Lemma uploadServers_Throw E serverInfo files i servers w e :
  ledger_wf w → NoDup (names servers) →
  let x := uploadServers E serverInfo (transfersState w) files i servers w in
  outcome x = Throw e →
  ∃ before D after,
    servers = before ++ D :: after ∧
    is_enabled w D = true ∧
    signals (trace x)
      = flat_map pass_signals (filter (λ s, is_enabled w s = true) before) ∧
    filesState (final x) = selection_after w before (filesState w) ∧
    Forall (λ en : Entry, ∀ s, s ∈ after → ev_server en.1 ≠ Some (name s))
           (trace x) ∧
    ((e = TypeError ∧ serverInfo !! name D = None) ∨
     ∃ t0 call (j : nat) f ts0,
       trace x = t0 ++ [(call, observe (final x))] ∧
       files !! j = Some f ∧
       observe w !! name D = Some ts0 ∧
       observe (final x) !! name D
         = Some (add_transferred (totalSize (take j files)) ts0) ∧
       ((e = AuthRejected ∧ call = GetUploadAuth (name D) j f) ∨
        (e = TransportRejected ∧
         ∃ info, serverInfo !! name D = Some info ∧
                 call = UploadBlob (name D) (url info) j f))).
Proof.
  intros Hwf. revert i servers w Hwf e.
  apply (uploadServers_run_ind E serverInfo files
    (λ _ servers w x, ∀ e,
       NoDup (names servers) → outcome x = Throw e →
       ∃ before D after,
         servers = before ++ D :: after ∧
         is_enabled w D = true ∧
         signals (trace x)
           = flat_map pass_signals (filter (λ s, is_enabled w s = true) before) ∧
         filesState (final x) = selection_after w before (filesState w) ∧
         Forall (λ en : Entry, ∀ s, s ∈ after → ev_server en.1 ≠ Some (name s))
                (trace x) ∧
         ((e = TypeError ∧ serverInfo !! name D = None) ∨
          ∃ t0 call (j : nat) f ts0,
            trace x = t0 ++ [(call, observe (final x))] ∧
            files !! j = Some f ∧
            observe w !! name D = Some ts0 ∧
            observe (final x) !! name D
              = Some (add_transferred (totalSize (take j files)) ts0) ∧
            ((e = AuthRejected ∧ call = GetUploadAuth (name D) j f) ∨
             (e = TransportRejected ∧
              ∃ info, serverInfo !! name D = Some info ∧
                      call = UploadBlob (name D) (url info) j f))))).
  - done.
  - intros i s rest w _ Hen IH e [_ Hnd]%NoDup_cons Hout.
    destruct (IH e Hnd Hout)
      as (before & D & after & -> & HD & Hsig & Hfs & Hafter & Hlast).
    exists (s :: before), D, after. unfold selection_after in *.
    rewrite filter_cons_False by congruence. done.
  - intros i s rest w _ Hen Hinfo e _ [= <-].
    exists [], s, rest. split_and!; try done. by left.
  - intros i s rest w info ts e0 Hwf Hts Hen Hinfo Hout e [Hnot Hnd]%NoDup_cons Hout'.
    assert (e0 = e) as -> by congruence.
    destruct (uploadFiles_spec E i s (url info) files 0 w ts Hwf Hts Hen)
      as (k & _ & _ & _ & Hfs & Hobs & _ & Hall & Hk).
    rewrite Hout in Hk. destruct Hk as (t0 & call & f & Hf & Ht & Hcall).
    exists [], s, rest. split_and!.
    + done.
    + apply is_enabled_true; eauto.
    + by eapply uploadFiles_signals.
    + done.
    + eapply Forall_impl; [exact Hall|]. intros en (Hsrv & _) s' Hs'.
      rewrite Hsrv. intros [= Heq]. apply Hnot. rewrite Heq.
      by apply list_elem_of_fmap_2.
    + right. exists t0, call, k, f, ts. split_and!; [done | done | done | |].
      * rewrite Hobs. apply lookup_insert_eq.
      * destruct Hcall as [[-> ->]|[-> ->]]; [by left | right].
        split; [done|]. by exists info.
  - intros i s rest w info ts Hwf Hts Hen Hinfo Hout IH e [Hnot Hnd]%NoDup_cons Hout'.
    destruct (uploadFiles_spec E i s (url info) files 0 w ts Hwf Hts Hen)
      as (k & _ & _ & Htr' & _ & Hobs & Hhist & Hall & _).
    assert (Hs : is_enabled w s = true) by (apply is_enabled_true; eauto).
    set (w1 := final (uploadFiles E (transfersState w) i s (url info) 0 files w))
      in *.
    assert (Hev : evolves w {| heap := heap w1; transfersState := transfersState w1;
                               filesState := [];
                               pendingState := pendingState w1 |})
      by (etrans; [eapply history_evolves, Hhist | apply evolves_files]).
    destruct (IH e Hnd Hout')
      as (before & D & after & -> & HD & Hsig & Hfs & Hafter & Hlast).
    unfold selection_after in *.
    rewrite (filter_enabled_evolves _ _ before Hev) in Hsig, Hfs.
    rewrite (evolves_is_enabled _ _ D Hev) in HD.
    assert (HneD : name s ≠ name D).
    { intros Heq. apply Hnot. rewrite Heq. apply list_elem_of_fmap_2.
      apply elem_of_app. right. by left. }
    exists (s :: before), D, after. simpl in *.
    rewrite filter_cons_True by done. split_and!.
    + done.
    + done.
    + rewrite signals_app, (uploadFiles_signals E i s (url info) files w ts) by done.
      simpl. change (signals (?a :: ?b :: ?t)) with (a.1 :: b.1 :: signals t).
      by rewrite Hsig.
    + rewrite Hfs. by case_match.
    + apply Forall_app. split; [|constructor; [|constructor]].
      * eapply Forall_impl; [exact Hall|]. intros en (Hsrv & _) s' Hs'.
        rewrite Hsrv. intros [= Heq]. apply Hnot. rewrite Heq.
        apply list_elem_of_fmap_2. apply elem_of_app. right. by right.
      * simpl. intros s' Hs' [= Heq]. apply Hnot. rewrite Heq.
        apply list_elem_of_fmap_2. apply elem_of_app. right. by right.
      * simpl. done.
      * done.
    + destruct Hlast as [?|(t0 & call & j & f & ts0 & Ht & Hf & HtsD & HobsD & Hcall)];
        [by left | right].
      exists (trace (uploadFiles E (transfersState w) i s (url info) 0 files w)
              ++ (InvalidateQueries (name s),
                  observe (final (uploadFiles E (transfersState w) i s (url info) 0 files w)))
              :: (SetFiles [],
                  observe (final (uploadFiles E (transfersState w) i s (url info) 0 files w)))
              :: t0), call, j, f, ts0.
      split_and!; [| done | | done | done].
      * rewrite Ht. by rewrite <- app_assoc.
      * rewrite observe_files, Hobs in HtsD. unfold counted in HtsD.
        by rewrite lookup_insert_ne in HtsD.
Qed.

(** ** Ledger sizing *)

Lemma with_heap_heap w : with_heap (heap w) w = w.
Proof. by destruct w. Qed.

(** Whatever the ledger, the updater only writes [size] into enabled
    objects. *)
Lemma sizeEntries_evolves total servers tr : ∀ w,
  let w' := with_heap (sizeEntries total servers tr (heap w)).2 w in
  evolves w w' ∧ (ledger_wf w → ledger_wf w').
Proof.
  induction servers as [|s rest IH]; intros w; simpl.
  - rewrite with_heap_heap. split; [reflexivity | done].
  - destruct (tr !! name s) as [l|]; simpl;
      [|rewrite with_heap_heap; split; [reflexivity | done]].
    destruct (heap w !! l) as [ts|] eqn:Hl; simpl;
      [|rewrite with_heap_heap; split; [reflexivity | done]].
    destruct (enabled ts) eqn:Hen; [|apply IH].
    destruct (IH (with_heap (<[l := set_size total ts]> (heap w)) w))
      as [Hev Hwf].
    split.
    + etrans; [|exact Hev].
      eapply evolves_write; [done | by apply grows_set_size].
    + intros Hw. apply Hwf. by eapply ledger_wf_write.
Qed.

Lemma resized_nil total n ts : resized total [] n ts = ts.
Proof.
  unfold resized. rewrite (bool_decide_eq_false_2 (n ∈ names [])).
  - by rewrite andb_false_r.
  - apply not_elem_of_nil.
Qed.

Lemma resized_disabled total servers n ts :
  enabled ts = false → resized total servers n ts = ts.
Proof. intros Hen. unfold resized. by rewrite Hen. Qed.

Lemma resized_here total s rest ts :
  enabled ts = true → resized total (s :: rest) (name s) ts = set_size total ts.
Proof.
  intros Hen. unfold resized.
  rewrite (bool_decide_eq_true_2 (name s ∈ names (s :: rest))) by (by left).
  by rewrite Hen.
Qed.

Lemma resized_later total s rest n ts :
  name s ≠ n → resized total (s :: rest) n ts = resized total rest n ts.
Proof.
  intros Hne. unfold resized.
  rewrite (bool_decide_ext (n ∈ names (s :: rest)) (n ∈ names rest)); [done|].
  unfold names. simpl. rewrite elem_of_cons.
  split; [intros [Heq|Hin]; [by subst | done] | by right].
Qed.

Lemma resized_set_size total servers n ts :
  resized total servers n (set_size total ts) = set_size total ts.
Proof. unfold resized. by case_match. Qed.

Lemma resized_enabled total servers n ts :
  enabled (resized total servers n ts) = enabled ts.
Proof. unfold resized. by case_match. Qed.

Lemma resized_transferred total servers n ts :
  transferred (resized total servers n ts) = transferred ts.
Proof. unfold resized. by case_match. Qed.

(** When every destination has an entry the updater returns, and the new
    ledger is the old one with the enabled destinations resized. *)
Lemma sizeEntries_covered total servers : ∀ w,
  ledger_wf w → covers servers w →
  let r := sizeEntries total servers (transfersState w) (heap w) in
  r.1 = Ok tt ∧
  ∀ n, observe (with_heap r.2 w) !! n = resized total servers n <$> observe w !! n.
Proof.
  induction servers as [|s rest IH]; intros w Hwf Hcov; simpl.
  - split; [done|]. intros n. rewrite with_heap_heap.
    destruct (observe w !! n) as [ts|]; [|done].
    cbn [fmap option_fmap option_map]. by rewrite resized_nil.
  - destruct (Hcov s) as [l Hl]; [by left|]. rewrite Hl.
    destruct (proj1 Hwf _ _ Hl) as [ts Hts]. rewrite Hts.
    assert (Hobs : observe w !! name s = Some ts) by (apply observe_Some; eauto).
    assert (Hcov' : covers rest w) by (intros s' Hs'; apply Hcov; by right).
    destruct (enabled ts) eqn:Hen.
    + set (w1 := with_heap (<[l := set_size total ts]> (heap w)) w).
      assert (Hwf1 : ledger_wf w1) by (by eapply ledger_wf_write).
      assert (Hobs1 : observe w1 = <[name s := set_size total ts]> (observe w))
        by (by apply observe_write).
      destruct (IH w1 Hwf1 Hcov') as [Hok Hview].
      split; [exact Hok|]. intros n.
      change (with_heap ?h w) with (with_heap h w1).
      change (transfersState w) with (transfersState w1).
      rewrite Hview, Hobs1.
      destruct (decide (name s = n)) as [<-|Hne].
      * rewrite lookup_insert_eq, Hobs.
        cbn [fmap option_fmap option_map].
        by rewrite resized_set_size, resized_here.
      * rewrite lookup_insert_ne by done.
        destruct (observe w !! n) as [ts'|]; [|done].
        cbn [fmap option_fmap option_map]. by rewrite resized_later.
    + destruct (IH w Hwf Hcov') as [Hok Hview].
      split; [exact Hok|]. intros n. rewrite Hview.
      destruct (decide (name s = n)) as [<-|Hne].
      * rewrite Hobs. cbn [fmap option_fmap option_map].
        by rewrite !resized_disabled.
      * destruct (observe w !! n) as [ts'|]; [|done].
        cbn [fmap option_fmap option_map]. by rewrite resized_later.
Qed.

(** ** Sanitization *)

Lemma sanitize_spec E clean files : ∀ (i : nat) acc w,
  pendingState w = None →
  let x := sanitize E clean i files acc w in
  final x = w ∧
  Forall (λ e : Entry, (∃ f, e.1 = RemoveExifData f) ∧ e.2 = observe w) (trace x) ∧
  match outcome x with
  | Ok fs => length fs = (length acc + length files)%nat
  | Throw e => e = ExifRejected
  end.
Proof.
  induction files as [|f rest IH]; intros i acc w Hidle; simpl.
  - split_and!; [done | constructor | lia].
  - destruct clean.
    + destruct (removeExifData E i f) as [g|] eqn:Hg.
      * erewrite bind_run_Ok by (by apply await_run_Some).
        destruct (IH (S i) (acc ++ [g]) w Hidle) as (Hw & Hall & Hout). simpl.
        split_and!; [done | constructor; [by eauto | done] |].
        destruct (outcome _); [|done]. rewrite Hout, length_app. simpl. lia.
      * erewrite bind_run_Throw by (by apply await_run_None). simpl.
        split_and!; [done | repeat constructor; by eauto | done].
    + destruct (IH (S i) (acc ++ [f]) w Hidle) as (Hw & Hall & Hout).
      split_and!; [done | done |].
      destruct (outcome _); [|done]. rewrite Hout, length_app. simpl. lia.
Qed.

Lemma sanitize_events E clean files : ∀ (i : nat) acc w,
  Forall (λ e : Entry, ∃ f, e.1 = RemoveExifData f)
         (trace (sanitize E clean i files acc w)).
Proof.
  induction files as [|f rest IH]; intros i acc w; simpl; [constructor|].
  destruct clean; [|apply IH].
  destruct (removeExifData E i f) as [g|] eqn:Hg.
  - erewrite bind_run_Ok by apply await_Some. simpl.
    constructor; [by eexists | apply IH].
  - erewrite bind_run_Throw by apply await_None. simpl.
    repeat constructor. by eexists.
Qed.

(** What the sanitizer returns does not depend on the state. *)
Lemma sanitize_length E clean files : ∀ (i : nat) acc w,
  match outcome (sanitize E clean i files acc w) with
  | Ok fs => length fs = (length acc + length files)%nat
  | Throw e => e = ExifRejected
  end.
Proof.
  induction files as [|f rest IH]; intros i acc w; simpl.
  - lia.
  - destruct clean.
    + destruct (removeExifData E i f) as [g|] eqn:Hg.
      * erewrite bind_run_Ok by apply await_Some.
        specialize (IH (S i) (acc ++ [g]) (render w)). simpl.
        destruct (outcome _); [|done]. rewrite IH, length_app. simpl. lia.
      * erewrite bind_run_Throw by apply await_None. done.
    + specialize (IH (S i) (acc ++ [f]) w).
      destruct (outcome _); [|done]. rewrite IH, length_app. simpl. lia.
Qed.

(** ** The whole of [upload] *)

(** A batch that reaches the destination loop: sanitizer calls, then the
    sizing of the ledger, then the loop. *)
Lemma setTransfers_sizes_now total servers w :
  pendingState w = None →
  let sz := sizeEntries total servers (transfersState w) (heap w) in
  setTransfers_sizes 0 total servers w
  = (Ok tt, with_heap sz.2 w, [(sizing_event sz.1, observe (with_heap sz.2 w))]).
Proof.
  intros Hidle. unfold setTransfers_sizes, run_updater, with_heap.
  rewrite Hidle. by destruct (sizeEntries _ _ _ _) as [[[]|e] h].
Qed.

Lemma upload_run E servers serverInfo clean w ftu :
  ledger_wf w →
  outcome (sanitize E clean 0 (filesState w) [] w) = Ok ftu → ftu ≠ [] →
  let sz := sizeEntries (totalSize ftu) servers (transfersState w) (heap w) in
  let w1 := with_heap sz.2 w in
  let y := uploadServers E serverInfo (transfersState w) ftu 0 servers w1 in
  click_upload 0 E servers serverInfo clean w
  = (outcome y, final y,
     trace (sanitize E clean 0 (filesState w) [] w)
     ++ (sizing_event sz.1, observe w1) :: trace y).
Proof.
  intros Hwf Hs Hne sz w1 y. unfold click_upload, upload.
  pose proof (ledger_wf_idle w Hwf) as Hidle.
  destruct (sanitize_spec E clean (filesState w) 0 [] w Hidle) as (Hw & _ & _).
  erewrite bind_run_Ok
    by (rewrite (run_eta (sanitize _ _ _ _ _ _)), Hs, Hw; reflexivity).
  destruct ftu as [|f ftu]; [done|].
  erewrite bind_run_Ok by (by apply setTransfers_sizes_now).
  fold sz w1 y.
  destruct (sizeEntries_evolves (totalSize (f :: ftu)) servers (transfersState w) w)
    as [_ Hwf1].
  destruct (uploadServers_history E serverInfo (f :: ftu) 0 servers w1 (Hwf1 Hwf))
    as (Hwf' & _ & _).
  change (uploadServers E serverInfo (transfersState w1) (f :: ftu) 0 servers w1)
    with y in Hwf'.
  simpl. by rewrite (settle_idle _ (ledger_wf_idle _ Hwf')).
Qed.

(** A batch that stops before the ledger is touched. *)
Lemma upload_run_early delay E servers serverInfo clean w :
  ledger_wf w →
  match outcome (sanitize E clean 0 (filesState w) [] w) with
  | Ok (_ :: _) => False
  | _ => True
  end →
  click_upload delay E servers serverInfo clean w
  = (match outcome (sanitize E clean 0 (filesState w) [] w) with
     | Ok _ => Ok tt
     | Throw e => Throw e
     end, w, trace (sanitize E clean 0 (filesState w) [] w)).
Proof.
  intros Hwf Hs. unfold click_upload, upload.
  pose proof (ledger_wf_idle w Hwf) as Hidle.
  destruct (sanitize_spec E clean (filesState w) 0 [] w Hidle) as (Hw & _ & _).
  destruct (outcome (sanitize E clean 0 (filesState w) [] w)) as [ftu|e] eqn:Hout.
  - destruct ftu; [|done].
    erewrite bind_run_Ok
      by (rewrite (run_eta (sanitize _ _ _ _ _ _)), Hout, Hw; reflexivity).
    simpl. by rewrite app_nil_r, settle_idle.
  - erewrite bind_run_Throw
      by (rewrite (run_eta (sanitize _ _ _ _ _ _)), Hout, Hw; reflexivity).
    simpl. by rewrite settle_idle.
Qed.

(** The whole batch is a history. *)
Lemma upload_history E servers serverInfo clean w :
  ledger_wf w →
  let x := click_upload 0 E servers serverInfo clean w in
  ledger_wf (final x) ∧ transfersState (final x) = transfersState w ∧
  history w (trace x) (final x).
Proof.
  intros Hwf x. subst x.
  destruct (sanitize_spec E clean (filesState w) 0 [] w (ledger_wf_idle _ Hwf)) as (Hw & Hall & _).
  assert (Hpre : history w (trace (sanitize E clean 0 (filesState w) [] w)) w).
  { induction Hall as [|e t [_ He] _ IH]; [constructor; reflexivity|].
    destruct e as [ev v]. simpl in He. subst v.
    constructor; [reflexivity | done]. }
  destruct (outcome (sanitize E clean 0 (filesState w) [] w))
    as [[|f ftu]|e] eqn:Hout.
  - rewrite upload_run_early by (done || by rewrite Hout). done.
  - rewrite (upload_run E servers serverInfo clean w (f :: ftu)) by done.
    set (sz := sizeEntries (totalSize (f :: ftu)) servers (transfersState w) (heap w)).
    destruct (sizeEntries_evolves (totalSize (f :: ftu)) servers (transfersState w) w)
      as [Hev Hwf1]. fold sz in Hev, Hwf1.
    destruct (uploadServers_history E serverInfo (f :: ftu) 0 servers
                (with_heap sz.2 w) (Hwf1 Hwf)) as (Hwf' & Htr' & Hhist).
    simpl in *. split_and!; [done | done |].
    eapply history_app; [exact Hpre|]. by constructor.
  - rewrite upload_run_early by (done || by rewrite Hout). done.
Qed.

(** ** [clearTransfers] and the checkbox *)

Lemma fresh_not_in_heap (h : gmap loc TransferStats) : h !! fresh (dom h) = None.
Proof. apply not_elem_of_dom. apply is_fresh. Qed.

Lemma clear_step_fresh p s : fresh_ledger p → fresh_ledger (clear_step p s).
Proof.
  destruct p as [acc h]. intros [Hobj Hinj]. unfold clear_step, alloc; simpl in *.
  pose proof (fresh_not_in_heap h) as Hfresh.
  split; simpl.
  - intros n l. destruct (decide (name s = n)) as [<-|Hne].
    + rewrite lookup_insert_eq. intros [= <-]. apply lookup_insert_eq.
    + rewrite lookup_insert_ne by done. intros Hn.
      rewrite lookup_insert_ne; [by eapply Hobj|].
      intros <-. apply Hobj in Hn. congruence.
  - intros n1 n2 l.
    destruct (decide (name s = n1)) as [<-|Hne1],
             (decide (name s = n2)) as [<-|Hne2]; [done | | |].
    + rewrite lookup_insert_eq, lookup_insert_ne by done.
      intros [= <-] Hn%Hobj. congruence.
    + rewrite lookup_insert_eq, lookup_insert_ne by done.
      intros Hn%Hobj [= <-]. congruence.
    + rewrite !lookup_insert_ne by done. apply Hinj.
Qed.

Lemma clear_fold_fresh servers : ∀ p,
  fresh_ledger p → fresh_ledger (foldl clear_step p servers).
Proof.
  induction servers as [|s rest IH]; intros p Hp; simpl; [done|].
  apply IH. by apply clear_step_fresh.
Qed.

Lemma clear_fold_keys servers : ∀ p n,
  is_Some ((foldl clear_step p servers).1 !! n)
  ↔ is_Some (p.1 !! n) ∨ n ∈ names servers.
Proof.
  induction servers as [|s rest IH]; intros p n; simpl.
  - split; [by left | intros [?|?%not_elem_of_nil]; done].
  - rewrite IH. destruct p as [acc h]. unfold clear_step, alloc; simpl.
    rewrite lookup_insert_is_Some, elem_of_cons.
    destruct (decide (name s = n)) as [<-|Hne]; [by split; intros _; auto|].
    intuition congruence.
Qed.

Lemma clearTransfers_fold servers w :
  clearTransfers servers w
  = {| heap := (foldl clear_step (∅, heap w) servers).2;
       transfersState := (foldl clear_step (∅, heap w) servers).1;
       filesState := filesState w;
       pendingState := pendingState w |}.
Proof. unfold clearTransfers. by destruct (foldl _ _ _). Qed.

Lemma clearTransfers_lookup servers w n :
  observe (clearTransfers servers w) !! n
  = if bool_decide (n ∈ names servers) then Some fresh_stats else None.
Proof.
  rewrite clearTransfers_fold, observe_lookup. simpl.
  assert (Hf : fresh_ledger (foldl clear_step (∅, heap w) servers)).
  { apply clear_fold_fresh. split; simpl; intros *; by rewrite lookup_empty. }
  pose proof (clear_fold_keys servers (∅, heap w) n) as Hk. simpl in Hk.
  rewrite lookup_empty in Hk.
  case_bool_decide as Hn.
  - destruct (proj2 Hk (or_intror Hn)) as [l Hl]. rewrite Hl. simpl.
    by apply (proj1 Hf n).
  - destruct ((foldl clear_step (∅, heap w) servers).1 !! n) eqn:Hl; [|done].
    destruct (proj1 Hk (mk_is_Some _ _ eq_refl)) as [[? [=]]|?]; done.
Qed.

Lemma clearTransfers_wf servers w :
  pendingState w = None → ledger_wf (clearTransfers servers w).
Proof.
  intros Hidle. rewrite clearTransfers_fold.
  assert (Hf : fresh_ledger (foldl clear_step (∅, heap w) servers)).
  { apply clear_fold_fresh. split; simpl; intros *; by rewrite lookup_empty. }
  destruct Hf as [Hobj Hinj]. split; simpl; [|done].
  intros n l Hn. rewrite (Hobj _ _ Hn). by eexists.
Qed.

Lemma toggle_observe n checked w :
  ledger_wf w →
  observe (toggle n checked w)
  = <[n := {| enabled := checked; size := 0; transferred := 0 |}]> (observe w).
Proof.
  intros (Hdang & _ & _). unfold toggle, alloc.
  pose proof (fresh_not_in_heap (heap w)) as Hfresh.
  apply map_eq. intros n'. rewrite observe_lookup. simpl.
  destruct (decide (n = n')) as [<-|Hne].
  - rewrite !lookup_insert_eq. simpl. by rewrite lookup_insert_eq.
  - rewrite !lookup_insert_ne by done. rewrite observe_lookup.
    destruct (transfersState w !! n') as [l'|] eqn:Hl'; simpl; [|done].
    rewrite lookup_insert_ne; [done|].
    intros <-. destruct (Hdang _ _ Hl'). congruence.
Qed.

Lemma toggle_wf n checked w : ledger_wf w → ledger_wf (toggle n checked w).
Proof.
  intros (Hdang & Hinj & Hidle). unfold toggle, alloc.
  pose proof (fresh_not_in_heap (heap w)) as Hfresh.
  split_and!; simpl; [| |done].
  - intros n' l. destruct (decide (n = n')) as [<-|Hne].
    + rewrite lookup_insert_eq. intros [= <-]. rewrite lookup_insert_eq. by eexists.
    + rewrite lookup_insert_ne by done. intros Hl.
      rewrite lookup_insert_ne; [by eapply Hdang|].
      intros <-. destruct (Hdang _ _ Hl). congruence.
  - intros n1 n2 l.
    destruct (decide (n = n1)) as [<-|Hne1],
             (decide (n = n2)) as [<-|Hne2]; [done | | |].
    + rewrite lookup_insert_eq, lookup_insert_ne by done.
      intros [= <-] Hl. destruct (Hdang _ _ Hl). congruence.
    + rewrite lookup_insert_eq, lookup_insert_ne by done.
      intros Hl [= <-]. destruct (Hdang _ _ Hl). congruence.
    + rewrite !lookup_insert_ne by done. apply Hinj.
Qed.

(** * React's schedule *)

(** ** What the updater changes *)

Lemma resizes_refl h : resizes h h.
Proof.
  intros l. destruct (h !! l) as [ts|]; constructor. by destruct ts.
Qed.

Lemma resizes_trans h1 h2 h3 : resizes h1 h2 → resizes h2 h3 → resizes h1 h3.
Proof.
  intros H12 H23 l. specialize (H12 l). specialize (H23 l).
  destruct H12 as [a b Hab|]; inversion H23 as [? c Hbc|]; subst; constructor.
  destruct a, b, c. unfold set_size in *. simpl in *. congruence.
Qed.

Lemma sizeEntries_resizes total servers tr : ∀ h,
  resizes h (sizeEntries total servers tr h).2.
Proof.
  induction servers as [|s rest IH]; intros h; simpl; [apply resizes_refl|].
  destruct (tr !! name s) as [l|]; [|apply resizes_refl].
  destruct (h !! l) as [ts|] eqn:Hl; [|apply resizes_refl].
  destruct (enabled ts); [|apply IH].
  eapply resizes_trans; [|apply IH].
  intros l'. destruct (decide (l = l')) as [<-|Hne].
  - rewrite lookup_insert_eq, Hl. constructor. by destruct ts.
  - rewrite lookup_insert_ne by done. apply resizes_refl.
Qed.

Lemma sized_heap total servers w :
  resizes (heap w) (heap (sized total servers w)).
Proof.
  unfold sized, run_updater.
  pose proof (sizeEntries_resizes total servers (transfersState w) (heap w)) as H.
  by destruct (sizeEntries _ _ _ _) as [[[]|e] h].
Qed.

Lemma sized_transfersState total servers w :
  transfersState (sized total servers w) = transfersState w.
Proof.
  unfold sized, run_updater. by destruct (sizeEntries _ _ _ _) as [[[]|e] h].
Qed.

Lemma sized_filesState total servers w :
  filesState (sized total servers w) = filesState w.
Proof.
  unfold sized, run_updater. by destruct (sizeEntries _ _ _ _) as [[[]|e] h].
Qed.

Lemma sized_pendingState total servers w :
  pendingState (sized total servers w) = None.
Proof.
  unfold sized, run_updater. by destruct (sizeEntries _ _ _ _) as [[[]|e] h].
Qed.

(** The updater does not look at the selection nor at the queue. *)
Lemma sized_eq total servers w w' :
  heap w = heap w' → transfersState w = transfersState w' →
  filesState w = filesState w' →
  sized total servers w = sized total servers w'.
Proof.
  intros Hh Ht Hf. unfold sized, run_updater. rewrite Hh, Ht, Hf.
  by destruct (sizeEntries _ _ _ _) as [[[]|e] h].
Qed.

Lemma settle_Some w p :
  pendingState w = Some p → settle w = sized (p_total p) (p_servers p) w.
Proof. intros Hp. unfold settle. by rewrite Hp. Qed.

Lemma settle_pendingState w : pendingState (settle w) = None.
Proof.
  destruct (pendingState w) as [p|] eqn:Hp.
  - rewrite (settle_Some w p Hp). apply sized_pendingState.
  - by rewrite settle_idle.
Qed.

Lemma settle_transfersState w : transfersState (settle w) = transfersState w.
Proof.
  destruct (pendingState w) as [p|] eqn:Hp.
  - rewrite (settle_Some w p Hp). apply sized_transfersState.
  - by rewrite settle_idle.
Qed.

Lemma settle_heap w : resizes (heap w) (heap (settle w)).
Proof.
  destruct (pendingState w) as [p|] eqn:Hp.
  - rewrite (settle_Some w p Hp). apply sized_heap.
  - rewrite settle_idle by done. apply resizes_refl.
Qed.

Lemma lagging_0 w : lagging w = 0%nat ↔ pendingState w = None.
Proof. unfold lagging. by destruct (pendingState w). Qed.

Lemma settle_lagging w : lagging (settle w) = 0%nat.
Proof. apply lagging_0, settle_pendingState. Qed.

(** ** Sizes *)

Lemma with_sizes_lookup sz v n :
  with_sizes sz v !! n
  = (λ ts, match sz !! n with Some k => set_size k ts | None => ts end) <$> v !! n.
Proof. unfold with_sizes. rewrite map_lookup_imap. by destruct (v !! n). Qed.

Lemma with_sizes_own v : with_sizes (sizes v) v = v.
Proof.
  apply map_eq. intros n. rewrite with_sizes_lookup. unfold sizes.
  rewrite lookup_fmap. destruct (v !! n) as [ts|]; [|done]. simpl.
  by destruct ts.
Qed.

(** Undoing the sizing of the ledger. *)
Lemma with_sizes_settle w : with_sizes (sizes (observe w)) (observe (settle w)) = observe w.
Proof.
  apply map_eq. intros n. rewrite with_sizes_lookup. unfold sizes.
  rewrite lookup_fmap, !observe_lookup, settle_transfersState.
  destruct (transfersState w !! n) as [l|]; [|done]. simpl.
  destruct (settle_heap w l) as [ts ts' Hts|]; [|done]. simpl. by rewrite Hts.
Qed.

Lemma read_enabled_settle tr n w :
  read_enabled tr n (settle w) = read_enabled tr n w.
Proof.
  unfold read_enabled. destruct (tr !! n) as [l|]; [|done].
  destruct (settle_heap w l) as [ts ts' Hts|]; [|done]. by rewrite <- Hts.
Qed.

(** ** Traces *)

Lemma lag_0 sz t : lag sz 0 t = t.
Proof. by destruct t. Qed.

Lemma lag_app sz t1 : ∀ d t2,
  lag sz d (t1 ++ t2)
  = lag sz d t1 ++ lag sz (d - length (calls t1)) t2.
Proof.
  induction t1 as [|e t1 IH]; intros d t2.
  - simpl. replace (d - 0)%nat with d by lia. by destruct (lag sz d t2).
  - destruct d as [|d]; [by rewrite !lag_0|].
    cbn [app lag]. rewrite IH. f_equal. f_equal. f_equal.
    unfold calls. cbn [map]. rewrite filter_cons.
    destruct (is_call e.1) eqn:He.
    + rewrite decide_True by done. simpl. done.
    + rewrite decide_False by congruence. done.
Qed.

Lemma lag_events sz t : ∀ d, map fst (lag sz d t) = map fst t.
Proof.
  induction t as [|e t IH]; intros d; [done|].
  destruct d as [|d]; [done|]. cbn [lag map]. by rewrite IH.
Qed.

Lemma lag_length sz t : ∀ d, length (lag sz d t) = length t.
Proof.
  induction t as [|e t IH]; intros d; [done|].
  destruct d as [|d]; [done|]. cbn [lag length]. by rewrite IH.
Qed.

(** Entries that show the sizes [sz] and are not calls are not changed. *)
Lemma lag_fixed sz t : ∀ d,
  Forall (λ e : Entry, is_call e.1 = false ∧ with_sizes sz e.2 = e.2) t →
  lag sz d t = t.
Proof.
  induction t as [|e t IH]; intros d Hall; [done|].
  apply Forall_cons in Hall as [[Hc Hs] Hall].
  destruct d as [|d]; [done|]. cbn [lag]. rewrite Hc, Hs, IH by done.
  by destruct e.
Qed.

(** ** The steps of the loops *)

Lemma sim_ret {A} (a : A) : sim (ret a).
Proof. intros w. simpl. split_and!; [done | done | done | lia | done]. Qed.

Lemma sim_throw {A} (e : Error) : sim (throw (A := A) e).
Proof. intros w. simpl. split_and!; [done | done | done | lia | done]. Qed.

Lemma sim_bind {A B} (m : M A) (k : A → M B) :
  sim m → (∀ a, sim (k a)) → sim (bind m k).
Proof.
  intros Hm Hk w. destruct (Hm w) as (Ho & Hf & Ht & Hl & Hs).
  unfold bind.
  destruct (m w) as [[r1 w1] t1], (m (settle w)) as [[r1' w1'] t1'].
  simpl in *. subst r1' w1'.
  destruct r1 as [a|e]; [|done].
  destruct (Hk a w1) as (Ho2 & Hf2 & Ht2 & Hl2 & Hs2).
  destruct (k a w1) as [[r2 w2] t2], (k a (settle w1)) as [[r2' w2'] t2'].
  simpl in *. subst r2' w2'. split_and!; [done | done | | |].
  - rewrite lag_app, Ht, Ht2, <- Hl. f_equal.
    destruct (decide (lagging w1 = 0%nat)) as [->|Hne]; [by rewrite !lag_0|].
    by rewrite Hs.
  - rewrite Hl2, Hl. unfold calls. rewrite map_app, filter_app, length_app.
    symmetry. apply Nat.sub_add_distr.
  - intros Hne. rewrite Hs2 by done. apply Hs. rewrite Hl2 in Hne. lia.
Qed.

Lemma sim_emit ev : is_call ev = false → sim (emit ev).
Proof.
  intros Hev w. unfold emit. simpl.
  split_and!; [done | done | | | done].
  - destruct (lagging w) eqn:Hl.
    + apply lagging_0 in Hl. by rewrite settle_idle.
    + simpl. by rewrite with_sizes_settle.
  - unfold calls. simpl. rewrite filter_cons_False by (by rewrite Hev). simpl. lia.
Qed.

Lemma render_lagging w : lagging (render w) = (lagging w - 1)%nat.
Proof.
  unfold render, lagging. destruct (pendingState w) as [[total servers [|d]]|] eqn:Hp;
    simpl; [|lia|by rewrite Hp].
  fold (sized total servers w). by rewrite sized_pendingState.
Qed.

Lemma settle_render w : settle (render w) = settle w.
Proof.
  unfold render. destruct (pendingState w) as [[total servers [|d]]|] eqn:Hp;
    simpl; [| |done].
  - fold (sized total servers w).
    rewrite settle_idle by apply sized_pendingState.
    by rewrite (settle_Some w _ Hp).
  - rewrite (settle_Some w _ Hp). unfold settle. simpl. by apply sized_eq.
Qed.

Lemma render_sizes w :
  lagging (render w) ≠ 0%nat → observe (render w) = observe w.
Proof.
  unfold render. destruct (pendingState w) as [[total servers [|d]]|] eqn:Hp;
    simpl; [|done..].
  fold (sized total servers w). intros Hne. exfalso. apply Hne.
  apply lagging_0, sized_pendingState.
Qed.

Lemma sim_await {A} ev (o : option A) e : is_call ev = true → sim (await ev o e).
Proof.
  intros Hev w. rewrite !await_run. simpl.
  rewrite (render_idle (settle w)) by apply settle_pendingState.
  split_and!; [done | apply settle_render | | |].
  - destruct (lagging w) eqn:Hl.
    + apply lagging_0 in Hl. by rewrite settle_idle.
    + simpl. by rewrite with_sizes_settle.
  - rewrite render_lagging. unfold calls. simpl.
    rewrite filter_cons_True by done. simpl. lia.
  - intros Hne. by rewrite render_sizes.
Qed.

Lemma set_size_add_transferred n k ts :
  set_size n (add_transferred k ts) = add_transferred k (set_size n ts).
Proof. done. Qed.

(** The updater and the increment of line 60 commute. *)
Lemma sizeEntries_insert total servers tr k : ∀ h l ts,
  h !! l = Some ts →
  ∃ ts', (sizeEntries total servers tr h).2 !! l = Some ts' ∧
    sizeEntries total servers tr (<[l := add_transferred k ts]> h)
    = ((sizeEntries total servers tr h).1,
       <[l := add_transferred k ts']> (sizeEntries total servers tr h).2).
Proof.
  induction servers as [|s rest IH]; intros h l ts Hl; simpl.
  - by exists ts.
  - destruct (tr !! name s) as [ls|]; [|by exists ts].
    destruct (decide (ls = l)) as [->|Hne].
    + rewrite lookup_insert_eq, Hl. simpl.
      destruct (enabled ts) eqn:Hen; [|by apply IH].
      rewrite insert_insert_eq, set_size_add_transferred.
      destruct (IH (<[l := set_size total ts]> h) l (set_size total ts))
        as (ts' & Hts' & Heq); [apply lookup_insert_eq|].
      exists ts'. split; [done|]. by rewrite insert_insert_eq in Heq.
    + rewrite lookup_insert_ne by done.
      destruct (h !! ls) as [tss|] eqn:Hls; [|by exists ts].
      destruct (enabled tss); [|by apply IH].
      rewrite insert_insert_ne by done.
      apply IH. by rewrite lookup_insert_ne.
Qed.

Lemma sizes_observe_write w l ts ts' fs p :
  heap w !! l = Some ts → size ts' = size ts →
  sizes (observe {| heap := <[l := ts']> (heap w);
                    transfersState := transfersState w;
                    filesState := fs; pendingState := p |})
  = sizes (observe w).
Proof.
  intros Hl Hs. apply map_eq. intros n. unfold sizes.
  rewrite !lookup_fmap, !observe_lookup. simpl.
  destruct (transfersState w !! n) as [l'|]; [|done]. simpl.
  destruct (decide (l = l')) as [<-|Hne].
  - rewrite lookup_insert_eq, Hl. simpl. by rewrite Hs.
  - by rewrite lookup_insert_ne.
Qed.

Lemma sim_bump_transferred tr n k : sim (bump_transferred tr n k).
Proof.
  intros w. unfold bump_transferred.
  destruct (tr !! n) as [l|];
    [|simpl; split_and!; [done | done | done | lia | done]].
  pose proof (settle_heap w l) as Hres.
  destruct (heap w !! l) as [ts|] eqn:Hl;
    destruct (heap (settle w) !! l) as [ts'|] eqn:Hl';
    inversion Hres as [? ? Hts|]; subst;
    [|simpl; split_and!; [done | done | done | lia | done]].
  simpl. split_and!; [done | | done | | ].
  - destruct (pendingState w) as [p|] eqn:Hp.
    + rewrite (settle_Some _ p) by done.
      rewrite (settle_Some w p Hp) in *.
      unfold sized, run_updater in *. simpl in *.
      destruct (sizeEntries_insert (p_total p) (p_servers p) (transfersState w)
                  k (heap w) l ts Hl) as (ts'' & Hl'' & Heq).
      rewrite Heq.
      destruct (sizeEntries (p_total p) (p_servers p) (transfersState w) (heap w))
        as [[[]|e] h]; simpl in *;
        rewrite Hl'' in Hl'; injection Hl' as ->; done.
    + rewrite (settle_idle w Hp) in *.
      assert (ts' = ts) as -> by congruence.
      unfold settle. simpl. by rewrite Hp.
  - unfold lagging. simpl. lia.
  - intros _. by eapply sizes_observe_write.
Qed.

Lemma sim_setFiles fs : sim (setFiles fs).
Proof.
  intros w. unfold setFiles. simpl.
  assert (Hst : settle {| heap := heap w; transfersState := transfersState w;
                          filesState := fs; pendingState := pendingState w |}
                = {| heap := heap (settle w);
                     transfersState := transfersState (settle w);
                     filesState := fs;
                     pendingState := pendingState (settle w) |}).
  { unfold settle. simpl. destruct (pendingState w) as [p|] eqn:Hp; simpl.
    - unfold run_updater. simpl.
      by destruct (sizeEntries _ _ _ _) as [[[]|e] h].
    - by rewrite Hp. }
  split_and!; [done | exact Hst | | | done].
  - change (observe {| heap := heap (settle w);
                       transfersState := transfersState (settle w);
                       filesState := fs;
                       pendingState := pendingState (settle w) |})
      with (observe (settle w)).
    change (observe {| heap := heap w; transfersState := transfersState w;
                       filesState := fs; pendingState := pendingState w |})
      with (observe w).
    destruct (lagging w) eqn:Hl.
    + apply lagging_0 in Hl. by rewrite settle_idle.
    + simpl. by rewrite with_sizes_settle.
  - unfold calls, lagging. simpl. lia.
Qed.

(** ** The loops *)

Lemma uploadFiles_sim E tr i s serverUrl files : ∀ j,
  sim (uploadFiles E tr i s serverUrl j files).
Proof.
  induction files as [|file rest IH]; intros j; simpl; [apply sim_ret|].
  apply sim_bind; [by apply sim_await | intros a].
  apply sim_bind; [by apply sim_await | intros b].
  apply sim_bind; [apply sim_bump_transferred | intros _].
  apply sim_bind; [by apply sim_emit | intros _].
  apply IH.
Qed.

Lemma uploadServers_sim E serverInfo tr files servers : ∀ i,
  sim (uploadServers E serverInfo tr files i servers).
Proof.
  induction servers as [|s rest IH]; intros i; [apply sim_ret|].
  intros w. cbn [uploadServers]. rewrite read_enabled_settle.
  destruct (read_enabled tr (name s) w); cbn [negb]; [|apply IH].
  revert w. fold (sim (A := unit)).
  apply sim_bind; [destruct (serverInfo !! name s); [apply sim_ret | apply sim_throw]
                  | intros serverUrl].
  apply sim_bind; [apply uploadFiles_sim | intros _].
  apply sim_bind; [by apply sim_emit | intros _].
  apply sim_bind; [apply sim_setFiles | intros _].
  apply IH.
Qed.

Lemma lag_app_fixed sz t1 t2 d :
  Forall (λ e : Entry, is_call e.1 = false ∧ with_sizes sz e.2 = e.2) t1 →
  lag sz d (t1 ++ t2) = t1 ++ lag sz d t2.
Proof.
  intros Hall. rewrite lag_app, lag_fixed by done. f_equal. f_equal.
  assert (Hc : calls t1 = []); [|rewrite Hc; simpl; lia].
  unfold calls. induction Hall as [|e t [He _] _ IH]; [done|].
  cbn [map]. rewrite filter_cons_False by (by rewrite He). exact IH.
Qed.

(** ** The whole batch *)

(** A batch under any schedule is the batch in which the updater runs
    inside the [setTransfers] call, except for the sizes that its entries
    show up to the [delay]-th call. *)
Lemma upload_schedule delay E servers serverInfo clean w :
  ledger_wf w → covers servers w →
  click_upload delay E servers serverInfo clean w
  = (outcome (click_upload 0 E servers serverInfo clean w),
     final (click_upload 0 E servers serverInfo clean w),
     lag (sizes (observe w)) delay
       (trace (click_upload 0 E servers serverInfo clean w))).
Proof.
  intros Hwf Hcov. pose proof (ledger_wf_idle w Hwf) as Hidle.
  destruct delay as [|d]; [by rewrite lag_0, <- run_eta|].
  destruct (sanitize_spec E clean (filesState w) 0 [] w Hidle) as (Hw & Hall & _).
  assert (Hpre : Forall (λ e : Entry, is_call e.1 = false
                           ∧ with_sizes (sizes (observe w)) e.2 = e.2)
                   (trace (sanitize E clean 0 (filesState w) [] w))).
  { eapply Forall_impl; [exact Hall|]. intros e [[f ->] ->].
    split; [done | apply with_sizes_own]. }
  destruct (outcome (sanitize E clean 0 (filesState w) [] w))
    as [[|f ftu]|e] eqn:Hout.
  - rewrite !upload_run_early by (done || by rewrite Hout). simpl.
    by rewrite lag_fixed.
  - rewrite (upload_run E servers serverInfo clean w (f :: ftu)) by done.
    destruct (sizeEntries_covered (totalSize (f :: ftu)) servers w Hwf Hcov)
      as [Hok _].
    set (total := totalSize (f :: ftu)) in *.
    set (sz := sizeEntries total servers (transfersState w) (heap w)) in *.
    set (w1 := with_heap sz.2 w).
    set (wq := {| heap := heap w; transfersState := transfersState w;
                  filesState := filesState w;
                  pendingState := Some {| p_total := total; p_servers := servers;
                                          p_delay := d |} |}).
    assert (Hsettle : settle wq = w1).
    { unfold settle, wq, w1, with_heap, run_updater. simpl. fold sz.
      rewrite Hidle. by destruct sz as [[[]|e] h]. }
    destruct (uploadServers_sim E serverInfo (transfersState w) (f :: ftu) servers
                0 wq) as (Ho & Hf & Ht & _).
    rewrite Hsettle in Ho, Hf, Ht.
    assert (Hup : upload (S d) E servers serverInfo (transfersState w)
                    (filesState w) clean w
                  = (outcome (uploadServers E serverInfo (transfersState w)
                                (f :: ftu) 0 servers wq),
                     final (uploadServers E serverInfo (transfersState w)
                              (f :: ftu) 0 servers wq),
                     trace (sanitize E clean 0 (filesState w) [] w)
                     ++ (SetTransfers, observe w)
                     :: trace (uploadServers E serverInfo (transfersState w)
                                 (f :: ftu) 0 servers wq))).
    { unfold upload.
      erewrite bind_run_Ok
        by (rewrite (run_eta (sanitize _ _ _ _ _ _)), Hout, Hw; reflexivity).
      lazy beta iota. erewrite bind_run_Ok by reflexivity. done. }
    unfold click_upload. rewrite Hup. cbn [outcome final trace fst snd].
    rewrite Ho, Hf, Ht, lag_app_fixed by done. rewrite Hok.
    cbn [lag is_call fst snd sizing_event].
    change (lagging wq) with (S d). change (observe wq) with (observe w).
    pose proof (with_sizes_settle wq) as Hun. rewrite Hsettle in Hun.
    change (observe wq) with (observe w) in Hun. by rewrite Hun.
  - rewrite !upload_run_early by (done || by rewrite Hout). simpl.
    by rewrite lag_fixed.
Qed.

(** ** Invariants of the reachable states *)

Lemma disabled_inert_evolves w w' :
  evolves w w' → disabled_inert w → disabled_inert w'.
Proof.
  intros Hev Hin n ts' Hts' Hen'.
  pose proof (evolves_ledger_le w w' Hev n) as Hle. rewrite Hts' in Hle.
  inversion Hle as [ts ? (Hen & _ & Hfrozen) Hts|]; subst.
  rewrite Hfrozen by congruence.
  apply (Hin n); [done | congruence].
Qed.

Lemma reachable_invariant servers w :
  reachable servers w → ledger_wf w ∧ covers servers w ∧ disabled_inert w.
Proof.
  assert (Hclear : ∀ servers w,
            pendingState w = None →
            ledger_wf (clearTransfers servers w) ∧
            covers servers (clearTransfers servers w) ∧
            disabled_inert (clearTransfers servers w)).
  { clear. intros servers w Hidle. split_and!.
    - by apply clearTransfers_wf.
    - intros s Hs. rewrite clearTransfers_fold. simpl.
      apply clear_fold_keys. right. by apply list_elem_of_fmap_2.
    - intros n ts. rewrite clearTransfers_lookup.
      case_bool_decide; [|done]. by intros [= <-]. }
  induction 1 as [servers | servers servers' w _ IH | servers w s checked _ IH Hs
                  | servers w newFiles _ IH | servers w d E serverInfo clean _ IH].
  - by apply Hclear.
  - apply Hclear, ledger_wf_idle, IH.
  - destruct IH as (Hwf & Hcov & Hin). split_and!.
    + by apply toggle_wf.
    + intros s' Hs'. unfold toggle, alloc. simpl.
      apply lookup_insert_is_Some'. right. by apply Hcov.
    + intros n ts. rewrite toggle_observe by done.
      destruct (decide (name s = n)) as [<-|Hne].
      * rewrite lookup_insert_eq. intros [= <-]. simpl. by intros ->.
      * rewrite lookup_insert_ne by done. apply Hin.
  - destruct newFiles; [done|]. done.
  - destruct IH as (Hwf & Hcov & Hin).
    rewrite (upload_schedule d E servers serverInfo clean w Hwf Hcov).
    cbn [final fst snd].
    destruct (upload_history E servers serverInfo clean w Hwf)
      as (Hwf' & Htr' & Hhist).
    split_and!; [done | |].
    + intros s Hs. rewrite Htr'. by apply Hcov.
    + eapply disabled_inert_evolves; [eapply history_evolves, Hhist | done].
Qed.

(** ** What the schedule does not change *)

Lemma lag_signals sz d t : signals (lag sz d t) = signals t.
Proof. unfold signals. by rewrite lag_events. Qed.

Lemma lag_calls sz d t : calls (lag sz d t) = calls t.
Proof. unfold calls. by rewrite lag_events. Qed.

Lemma calls_app t1 t2 : calls (t1 ++ t2) = calls t1 ++ calls t2.
Proof. unfold calls. by rewrite map_app, filter_app. Qed.

Lemma lag_Forall_events (P : Event → Prop) sz d t :
  Forall (λ e : Entry, P e.1) (lag sz d t) ↔ Forall (λ e : Entry, P e.1) t.
Proof.
  rewrite <- (Forall_fmap fst P (lag sz d t)), <- (Forall_fmap fst P t).
  change (fmap fst) with (map (@fst Event (gmap string TransferStats))).
  by rewrite lag_events.
Qed.

(** The entry at position [k] shows the old sizes when fewer than [d] calls
    come before it. *)
Lemma lag_lookup sz t : ∀ d (k : nat) e,
  lag sz d t !! k = Some e →
  ∃ e0, t !! k = Some e0 ∧ e.1 = e0.1 ∧
        e.2 = if decide (length (calls (take k t)) < d)%nat
              then with_sizes sz e0.2 else e0.2.
Proof.
  induction t as [|e0 t IH]; intros d k e; [done|].
  destruct d as [|d].
  - rewrite lag_0. intros Hk. exists e. split_and!; [done | done |].
    destruct (decide _) as [Hlt|_]; [lia | done].
  - cbn [lag]. destruct k as [|k]; simpl.
    + intros [= <-]. exists e0. split_and!; [done | done |].
      done.
    + intros Hk. apply IH in Hk as (e1 & Hk & He1 & He2).
      exists e1. split_and!; [done | done |]. rewrite He2.
      unfold calls. cbn [map]. rewrite filter_cons.
      destruct (decide (is_call e0.1 = true)) as [Hc|Hc].
      * rewrite Hc. cbn [length].
        destruct (decide (_ < d)%nat), (decide (S _ < S d)%nat); (done || lia).
      * apply not_true_is_false in Hc. by rewrite Hc.
Qed.

Lemma lag_take_calls sz d t (k : nat) :
  calls (take k (lag sz d t)) = calls (take k t).
Proof.
  unfold calls.
  change (map fst) with (fmap (M := list) (@fst Event (gmap string TransferStats))).
  rewrite !fmap_take.
  change (fmap fst) with (map (@fst Event (gmap string TransferStats))).
  by rewrite lag_events.
Qed.

(** Every observation is one of the batch in which the updater runs at the
    call, or that one with the sizes of before. *)
Lemma lag_observations sz d t v0 vf (k : nat) v :
  (v0 :: map snd (lag sz d t) ++ [vf]) !! k = Some v →
  ∃ u, (v0 :: map snd t ++ [vf]) !! k = Some u ∧ (v = u ∨ v = with_sizes sz u).
Proof.
  change (map snd (lag sz d t)) with (snd <$> lag sz d t).
  change (map snd t) with (snd <$> t).
  destruct k as [|k]; simpl; [intros [= <-]; exists v0; auto|].
  intros Hk. apply lookup_app_Some in Hk as [Hk|[Hlen Hk]].
  - apply list_lookup_fmap_Some in Hk as (e & -> & Hk).
    apply lag_lookup in Hk as (e0 & Hk & _ & He).
    exists e0.2. split.
    + apply lookup_app_l_Some. apply list_lookup_fmap_Some. by exists e0.
    + rewrite He. destruct (decide _); auto.
  - rewrite length_fmap, lag_length in *. exists v. split; [|by left].
    apply lookup_app_Some. right. by rewrite length_fmap.
Qed.

Lemma lag_observations_Forall (P : gmap string TransferStats → Prop) sz d t v0 vf :
  (∀ u, P u → P (with_sizes sz u)) →
  Forall P (v0 :: map snd t ++ [vf]) →
  Forall P (v0 :: map snd (lag sz d t) ++ [vf]).
Proof.
  intros Hclosed Hall. apply Forall_lookup. intros k v Hk.
  apply lag_observations in Hk as (u & Hu & [->| ->]).
  - by eapply Forall_lookup_1.
  - apply Hclosed. by eapply Forall_lookup_1.
Qed.

(** The last entry. *)
Lemma lag_last sz d t t0 c u :
  t = t0 ++ [(c, u)] →
  lag sz d t
  = lag sz d t0
    ++ [(c, if decide (length (calls t0) < d)%nat then with_sizes sz u else u)].
Proof.
  intros ->. rewrite lag_app. f_equal.
  destruct (d - length (calls t0))%nat eqn:Hd; cbn [lag];
    destruct (decide _); (done || lia).
Qed.

(** A batch under the schedule [delay], seen as the batch in which the
    updater runs at the call. *)
Ltac schedule Hwf Hcov :=
  match goal with
  | |- context [click_upload ?d ?E ?servers ?serverInfo ?clean ?w] =>
      rewrite (upload_schedule d E servers serverInfo clean w Hwf Hcov);
      cbn [outcome final trace fst snd];
      rewrite ?lag_signals, ?lag_calls
  end.

(** * The claims *)

(** ** Destination membership changes *)

(** C8. Whenever the destination list changes, [clearTransfers] rebuilds the
    ledger from the new list alone: every destination of the list gets the
    entry [{enabled: true, size: 0, transferred: 0}] and nothing else is
    kept, whatever the ledger held before. *)
Theorem clearTransfers_resets servers w :
  (∀ s, s ∈ servers →
     observe (clearTransfers servers w) !! name s
     = Some {| enabled := true; size := 0; transferred := 0 |}) ∧
  (∀ n, n ∉ names servers → observe (clearTransfers servers w) !! n = None).
Proof.
  split.
  - intros s Hs. rewrite clearTransfers_lookup.
    rewrite bool_decide_eq_true_2; [done|]. by apply list_elem_of_fmap_2.
  - intros n Hn. rewrite clearTransfers_lookup.
    by rewrite bool_decide_eq_false_2.
Qed.

(** C9. Running [clearTransfers] twice in a row with the same destination
    list leaves the same ledger, and the same selection, as running it
    once. *)
Theorem clearTransfers_idempotent servers w :
  observe (clearTransfers servers (clearTransfers servers w))
  = observe (clearTransfers servers w) ∧
  filesState (clearTransfers servers (clearTransfers servers w))
  = filesState (clearTransfers servers w).
Proof.
  split.
  - apply map_eq. intros n. by rewrite !clearTransfers_lookup.
  - by rewrite !clearTransfers_fold.
Qed.

(** C10. Toggling the checkbox of a destination, in either direction,
    replaces its entry by [{enabled: checked, size: 0, transferred: 0}] and
    leaves every other entry as it was. *)
Theorem toggle_replaces_entry servers w n checked :
  reachable servers w →
  observe (toggle n checked w) !! n
  = Some {| enabled := checked; size := 0; transferred := 0 |} ∧
  (∀ n', n' ≠ n → observe (toggle n checked w) !! n' = observe w !! n').
Proof.
  intros (Hwf & _ & _)%reachable_invariant.
  rewrite toggle_observe by done. split.
  - apply lookup_insert_eq.
  - intros n' Hne. by rewrite lookup_insert_ne.
Qed.

(** ** Batches *)

Lemma upload_tags E servers serverInfo clean w :
  ledger_wf w →
  Forall (λ e : Entry, ∀ n, ev_server e.1 = Some n →
            ∃ s, s ∈ servers ∧ name s = n ∧ is_enabled w s = true)
    (trace (click_upload 0 E servers serverInfo clean w)).
Proof.
  intros Hwf.
  destruct (sanitize_spec E clean (filesState w) 0 [] w (ledger_wf_idle _ Hwf))
    as (_ & Hall & _).
  assert (Hpre : Forall (λ e : Entry, ∀ n, ev_server e.1 = Some n →
                     ∃ s, s ∈ servers ∧ name s = n ∧ is_enabled w s = true)
                   (trace (sanitize E clean 0 (filesState w) [] w))).
  { eapply Forall_impl; [exact Hall|]. intros e [[f Hf] _] n. by rewrite Hf. }
  destruct (outcome (sanitize E clean 0 (filesState w) [] w))
    as [[|f ftu]|e] eqn:Hout.
  - rewrite upload_run_early by (done || by rewrite Hout). done.
  - rewrite (upload_run E servers serverInfo clean w (f :: ftu)) by done.
    set (sz := sizeEntries (totalSize (f :: ftu)) servers (transfersState w) (heap w)).
    destruct (sizeEntries_evolves (totalSize (f :: ftu)) servers (transfersState w) w)
      as [Hev Hwf1]. fold sz in Hev, Hwf1.
    simpl. apply Forall_app. split; [done|]. constructor.
    + intros n. by destruct sz.1.
    + eapply Forall_impl;
        [exact (uploadServers_tags E serverInfo (f :: ftu) 0 servers
                  (with_heap sz.2 w) (Hwf1 Hwf))|].
      intros e He n Hn. destruct (He n Hn) as (s & Hs & Hname & Hen).
      exists s. split_and!; [done | done |].
      by rewrite <- (evolves_is_enabled _ _ s Hev).
  - rewrite upload_run_early by (done || by rewrite Hout). done.
Qed.

(** C7. A destination whose entry is disabled when the batch starts gets no
    Authorizer call, no Transport call and no other event of a pass, and at
    every observation point of the batch its entry is
    [{enabled: false, size: 0, transferred: 0}], whenever React runs the
    sizing updater. *)
Theorem disabled_destination_inert delay E servers serverInfo clean w D ts :
  reachable servers w →
  observe w !! D = Some ts → enabled ts = false →
  Forall (λ e : Entry, ev_server e.1 ≠ Some D)
         (trace (click_upload delay E servers serverInfo clean w)) ∧
  Forall (λ v, v !! D = Some inert_stats)
         (observations w (click_upload delay E servers serverInfo clean w)).
Proof.
  intros (Hwf & Hcov & Hinert)%reachable_invariant Hts Hen.
  assert (ts = inert_stats) as -> by (by eapply Hinert).
  unfold observations. schedule Hwf Hcov. split.
  - apply (lag_Forall_events (λ ev, ev_server ev ≠ Some D)).
    eapply Forall_impl; [exact (upload_tags E servers serverInfo clean w Hwf)|].
    intros e He HD. destruct (He D HD) as (s & _ & <- & Hs).
    apply is_enabled_true in Hs as (ts' & Hts' & Hen'). congruence.
  - apply lag_observations_Forall.
    { intros u Hu. rewrite with_sizes_lookup, Hu. unfold sizes.
      by rewrite lookup_fmap, Hts. }
    destruct (upload_history E servers serverInfo clean w Hwf) as (_ & _ & Hhist).
    constructor; [done|].
    eapply Forall_impl; [exact (history_Forall _ _ _ Hhist)|].
    intros v Hle. specialize (Hle D). rewrite Hts in Hle.
    inversion Hle as [? ts' (_ & _ & Hfrozen) |]; subst.
    by rewrite Hfrozen.
Qed.

(** Every observation of a batch is the initial ledger, or the resized
    ledger with whole files counted. *)
Lemma upload_observations E servers serverInfo clean w :
  ledger_wf w → covers servers w → NoDup (names servers) →
  ∃ v1,
    (∀ n, v1 !! n
          = resized (totalSize (sanitized E clean w)) servers n <$> observe w !! n) ∧
    Forall (λ v, v = observe w ∨
                 within (sanitized E clean w) (names servers) v1 v)
           (observations w (click_upload 0 E servers serverInfo clean w)).
Proof.
  intros Hwf Hcov Hnd.
  set (total := totalSize (sanitized E clean w)).
  set (v1 := map_imap (λ n ts, Some (resized total servers n ts)) (observe w)).
  assert (Hv1 : ∀ n, v1 !! n = resized total servers n <$> observe w !! n).
  { intros n. unfold v1. rewrite map_lookup_imap.
    by destruct (observe w !! n). }
  exists v1. split; [exact Hv1|].
  unfold sanitized, observations in *.
  destruct (sanitize_spec E clean (filesState w) 0 [] w (ledger_wf_idle _ Hwf)) as (_ & Hall & _).
  assert (Hpre : ∀ P : gmap string TransferStats → Prop,
            Forall (λ v, v = observe w ∨ P v)
                   (map snd (trace (sanitize E clean 0 (filesState w) [] w)))).
  { intros P. apply Forall_fmap. eapply Forall_impl; [exact Hall|].
    intros e [_ He]. by left. }
  destruct (outcome (sanitize E clean 0 (filesState w) [] w))
    as [[|f ftu]|e] eqn:Hout.
  - rewrite upload_run_early by (done || by rewrite Hout). simpl.
    constructor; [by left|]. apply Forall_app. split; [apply Hpre|].
    constructor; [by left | constructor].
  - rewrite (upload_run E servers serverInfo clean w (f :: ftu)) by done.
    destruct (sizeEntries_covered (totalSize (f :: ftu)) servers w Hwf Hcov)
      as [Hok Hview].
    destruct (sizeEntries_evolves (totalSize (f :: ftu)) servers (transfersState w) w)
      as [_ Hwf1].
    set (sz := sizeEntries (totalSize (f :: ftu)) servers (transfersState w) (heap w)) in *.
    set (w1 := with_heap sz.2 w) in *.
    assert (v1 = observe w1) as ->
      by (apply map_eq; intros n; by rewrite Hv1, Hview).
    simpl.
    constructor; [by left|]. rewrite map_app, <- app_assoc.
    apply Forall_app. split; [apply Hpre|]. simpl.
    constructor; [right; apply within_refl|].
    eapply Forall_impl;
      [exact (uploadServers_within E serverInfo (f :: ftu) 0 servers w1
                (Hwf1 Hwf) Hnd)|].
    intros v Hv. by right.
  - rewrite upload_run_early by (done || by rewrite Hout). simpl.
    constructor; [by left|]. apply Forall_app. split; [apply Hpre|].
    constructor; [by left | constructor].
Qed.

Lemma sanitize_signals E clean w :
  signals (trace (sanitize E clean 0 (filesState w) [] w)) = [].
Proof.
  apply signals_none.
  eapply Forall_impl; [apply sanitize_events|].
  intros e [f Hf]. by rewrite Hf.
Qed.

Lemma sanitized_nonempty E clean w :
  filesState w ≠ [] →
  match outcome (sanitize E clean 0 (filesState w) [] w) with
  | Ok [] => False
  | _ => True
  end.
Proof.
  intros Hne.
  pose proof (sanitize_length E clean (filesState w) 0 [] w) as Hlen.
  destruct (outcome _) as [[|f ftu]|e]; [|done..].
  destruct (filesState w); [done | simpl in Hlen; lia].
Qed.

(** A non-empty batch that ends normally. *)
Lemma upload_Ok E servers serverInfo clean w :
  ledger_wf w → filesState w ≠ [] →
  let x := click_upload 0 E servers serverInfo clean w in
  outcome x = Ok tt →
  signals (trace x)
    = flat_map pass_signals (filter (λ s, is_enabled w s = true) servers) ∧
  filesState (final x) = selection_after w servers (filesState w).
Proof.
  intros Hwf Hne x. subst x.
  pose proof (sanitized_nonempty E clean w Hne) as Hs.
  destruct (outcome (sanitize E clean 0 (filesState w) [] w))
    as [[|f ftu]|e] eqn:Hout; [done | |].
  - rewrite (upload_run E servers serverInfo clean w (f :: ftu)) by done.
    destruct (sizeEntries_evolves (totalSize (f :: ftu)) servers (transfersState w) w)
      as [Hev Hwf1].
    set (sz := sizeEntries (totalSize (f :: ftu)) servers (transfersState w) (heap w)) in *.
    simpl. intros Hok.
    destruct (uploadServers_Ok E serverInfo (f :: ftu) 0 servers (with_heap sz.2 w)
                (Hwf1 Hwf) Hok) as [Hsig Hfs].
    unfold selection_after in *.
    rewrite (filter_enabled_evolves _ _ servers Hev) in Hsig, Hfs.
    split; [|exact Hfs].
    rewrite signals_app, sanitize_signals. simpl.
    change (signals (?a :: ?t)) with (filter (λ ev, is_signal ev = true) (a.1 :: map fst t)).
    rewrite filter_cons_False by (simpl; by destruct sz.1). exact Hsig.
  - rewrite upload_run_early by (done || by rewrite Hout). by rewrite Hout.
Qed.

(** A batch stopped by a rejected Authorizer or Transport call. *)
Lemma upload_Throw E servers serverInfo clean w e :
  ledger_wf w → covers servers w → NoDup (names servers) →
  let x := click_upload 0 E servers serverInfo clean w in
  outcome x = Throw e → e = AuthRejected ∨ e = TransportRejected →
  ∃ before D after t0 call (j : nat) f ts0,
    servers = before ++ D :: after ∧
    is_enabled w D = true ∧
    signals (trace x)
      = flat_map pass_signals (filter (λ s, is_enabled w s = true) before) ∧
    filesState (final x) = selection_after w before (filesState w) ∧
    Forall (λ en : Entry, ∀ s, s ∈ after → ev_server en.1 ≠ Some (name s))
           (trace x) ∧
    trace x = t0 ++ [(call, observe (final x))] ∧
    sanitized E clean w !! j = Some f ∧
    observe w !! name D = Some ts0 ∧
    observe (final x) !! name D
      = Some {| enabled := true;
                size := totalSize (sanitized E clean w);
                transferred := transferred ts0
                               + totalSize (take j (sanitized E clean w)) |} ∧
    ((e = AuthRejected ∧ call = GetUploadAuth (name D) j f) ∨
     (e = TransportRejected ∧
      ∃ info, serverInfo !! name D = Some info ∧
              call = UploadBlob (name D) (url info) j f)).
Proof.
  intros Hwf Hcov Hnd x. subst x. unfold sanitized.
  destruct (sanitize_spec E clean (filesState w) 0 [] w (ledger_wf_idle _ Hwf)) as (_ & Hall & Hlen).
  destruct (outcome (sanitize E clean 0 (filesState w) [] w))
    as [[|f0 ftu]|e0] eqn:Hout.
  - rewrite upload_run_early by (done || by rewrite Hout). by rewrite Hout.
  - rewrite (upload_run E servers serverInfo clean w (f0 :: ftu)) by done.
    destruct (sizeEntries_covered (totalSize (f0 :: ftu)) servers w Hwf Hcov)
      as [Hok Hview].
    destruct (sizeEntries_evolves (totalSize (f0 :: ftu)) servers (transfersState w) w)
      as [Hev Hwf1].
    set (sz := sizeEntries (totalSize (f0 :: ftu)) servers (transfersState w) (heap w)) in *.
    set (w1 := with_heap sz.2 w) in *.
    simpl. intros Hthrow He.
    destruct (uploadServers_Throw E serverInfo (f0 :: ftu) 0 servers w1 e
                (Hwf1 Hwf) Hnd Hthrow)
      as (before & D & after & Hsplit & HD & Hsig & Hfs & Hafter & Hlast).
    destruct Hlast as [[-> _]|(t0 & call & j & f & ts1 & Ht & Hf & Hts1 & Hfin & Hcall)];
      [by destruct He|].
    change (transfersState w1) with (transfersState w) in *.
    unfold selection_after in *.
    rewrite (filter_enabled_evolves _ _ before Hev) in Hsig, Hfs.
    pose proof HD as (ts1' & Hts1' & Hen1)%is_enabled_true.
    rewrite (evolves_is_enabled _ _ D Hev) in HD.
    pose proof HD as (ts0 & Hts0 & Hen0)%is_enabled_true.
    assert (ts1' = ts1) as -> by congruence.
    assert (Hres : ts1 = set_size (totalSize (f0 :: ftu)) ts0).
    { rewrite Hview, Hts0 in Hts1. simpl in Hts1. injection Hts1 as <-.
      unfold resized. rewrite Hen0.
      rewrite bool_decide_eq_true_2; [done|].
      apply list_elem_of_fmap_2. rewrite Hsplit. apply elem_of_app. right. by left. }
    exists before, D, after,
      (trace (sanitize E clean 0 (filesState w) [] w)
       ++ (sizing_event sz.1, observe w1) :: t0), call, j, f, ts0.
    split_and!; try done.
    + rewrite signals_app, sanitize_signals. simpl.
      change (signals (?a :: ?t))
        with (filter (λ ev, is_signal ev = true) (a.1 :: map fst t)).
      rewrite filter_cons_False by (simpl; by destruct sz.1). exact Hsig.
    + apply Forall_app. split.
      * eapply Forall_impl; [exact Hall|]. intros en [[g Hg] _] s _. by rewrite Hg.
      * constructor; [|done]. intros s _. simpl. by destruct sz.1.
    + rewrite Ht. by rewrite <- app_assoc.
    + rewrite Hfin, Hres. unfold add_transferred, set_size. simpl.
      by rewrite Hen0.
  - rewrite upload_run_early by (done || by rewrite Hout). rewrite Hout. simpl.
    intros [= <-] [?|?]; subst; done.
Qed.

(** ** Counting signals *)

Lemma invalidations_signals n t :
  invalidations n t
  = length (filter (λ ev, ev = InvalidateQueries n) (signals t)).
Proof.
  unfold invalidations, signals.
  induction t as [|[ev v] t IH]; [done|].
  change (map fst ((ev, v) :: t)) with (ev :: map fst t).
  rewrite (filter_cons (λ e : Entry, e.1 = InvalidateQueries n)).
  rewrite (filter_cons (λ ev, is_signal ev = true)).
  destruct (decide (is_signal ev = true)) as [Hs|Hs].
  - rewrite filter_cons. simpl.
    destruct (decide (ev = InvalidateQueries n)); simpl; by rewrite IH.
  - simpl. destruct (decide (ev = InvalidateQueries n)) as [->|Hne]; [done | exact IH].
Qed.

Lemma clearings_signals t :
  clearings t = length (filter (λ ev, ev = SetFiles []) (signals t)).
Proof.
  unfold clearings, signals.
  induction t as [|[ev v] t IH]; [done|].
  change (map fst ((ev, v) :: t)) with (ev :: map fst t).
  rewrite (filter_cons (λ e : Entry, e.1 = SetFiles [])).
  rewrite (filter_cons (λ ev, is_signal ev = true)).
  destruct (decide (is_signal ev = true)) as [Hs|Hs].
  - rewrite filter_cons. simpl.
    destruct (decide (ev = SetFiles [])); simpl; by rewrite IH.
  - simpl. destruct (decide (ev = SetFiles [])) as [->|Hne]; [done | exact IH].
Qed.

Lemma passes_invalidations_absent n (l : list Server) :
  n ∉ names l →
  length (filter (λ ev, ev = InvalidateQueries n) (flat_map pass_signals l)) = 0%nat.
Proof.
  induction l as [|a l IH]; [done|]. intros [Hne Hnot]%not_elem_of_cons. simpl.
  rewrite filter_cons_False by congruence.
  rewrite filter_cons_False by done. by apply IH.
Qed.

Lemma passes_invalidations_once s (l : list Server) :
  NoDup (names l) → s ∈ l →
  length (filter (λ ev, ev = InvalidateQueries (name s)) (flat_map pass_signals l))
  = 1%nat.
Proof.
  induction l as [|a l IH]; intros Hnd Hs; [by apply not_elem_of_nil in Hs|].
  apply NoDup_cons in Hnd as [Hnot Hnd]. simpl.
  apply elem_of_cons in Hs as [->|Hs].
  - rewrite filter_cons_True by done. rewrite filter_cons_False by done.
    simpl. by rewrite passes_invalidations_absent.
  - rewrite filter_cons_False.
    + rewrite filter_cons_False by done. by apply IH.
    + intros [= Heq]. apply Hnot. rewrite Heq. by apply list_elem_of_fmap_2.
Qed.

Lemma names_filter_subseteq (P : Server → Prop) `{∀ s, Decision (P s)} l n :
  n ∈ names (filter P l) → n ∈ names l.
Proof.
  intros (s & -> & Hs)%list_elem_of_fmap. apply list_elem_of_filter in Hs as [_ Hs].
  by apply list_elem_of_fmap_2.
Qed.

Lemma NoDup_names_filter (P : Server → Prop) `{∀ s, Decision (P s)} l :
  NoDup (names l) → NoDup (names (filter P l)).
Proof.
  induction l as [|a l IH]; [done|]. intros [Hnot Hnd]%NoDup_cons.
  destruct (decide (P a)).
  - rewrite filter_cons_True by done. apply NoDup_cons. split; [|by apply IH].
    intros Hin. apply Hnot. by eapply names_filter_subseteq.
  - rewrite filter_cons_False by done. by apply IH.
Qed.

(** In the signals of the passes of the enabled destinations of [l], the
    key of a destination of [l] occurs once if it is enabled and not at all
    otherwise. *)
Lemma enabled_passes_invalidations w (l : list Server) s :
  NoDup (names l) → s ∈ l →
  length (filter (λ ev, ev = InvalidateQueries (name s))
            (flat_map pass_signals (filter (λ s, is_enabled w s = true) l)))
  = if is_enabled w s then 1%nat else 0%nat.
Proof.
  intros Hnd Hs. destruct (is_enabled w s) eqn:Hen.
  - apply passes_invalidations_once; [by apply NoDup_names_filter|].
    by apply list_elem_of_filter.
  - apply passes_invalidations_absent.
    intros (s' & Heq & Hs')%list_elem_of_fmap.
    apply list_elem_of_filter in Hs' as [Hen' Hs'].
    assert (s' = s) as ->; [|congruence].
    clear -Hnd Hs Hs' Heq. induction l as [|a l IH]; [by apply not_elem_of_nil in Hs|].
    apply NoDup_cons in Hnd as [Hnot Hnd].
    apply elem_of_cons in Hs as [->|Hs], Hs' as [->|Hs']; [done | | |by apply IH].
    + exfalso. apply Hnot. rewrite Heq. by apply list_elem_of_fmap_2.
    + exfalso. apply Hnot. rewrite <- Heq. by apply list_elem_of_fmap_2.
Qed.

Lemma passes_clearings (l : list Server) :
  length (filter (λ ev, ev = SetFiles []) (flat_map pass_signals l)) = length l.
Proof.
  induction l as [|a l IH]; [done|].
  change (flat_map pass_signals (a :: l))
    with (InvalidateQueries (name a) :: SetFiles [] :: flat_map pass_signals l).
  rewrite filter_cons_False by done. rewrite filter_cons_True by done.
  simpl. by rewrite IH.
Qed.

(** ** After the request *)

(** From the [setTransfers] call on, every observation of the batch in
    which the updater runs at the call is the resized ledger with whole
    files counted. *)
Lemma upload_after_request E servers serverInfo clean w ftu :
  ledger_wf w → covers servers w → NoDup (names servers) →
  outcome (sanitize E clean 0 (filesState w) [] w) = Ok ftu → ftu ≠ [] →
  ∃ v1 post,
    (∀ n, v1 !! n = resized (totalSize ftu) servers n <$> observe w !! n) ∧
    trace (click_upload 0 E servers serverInfo clean w)
      = trace (sanitize E clean 0 (filesState w) [] w)
        ++ (SetTransfers, v1) :: post ∧
    Forall (within ftu (names servers) v1)
           (map snd post
            ++ [observe (final (click_upload 0 E servers serverInfo clean w))]).
Proof.
  intros Hwf Hcov Hnd Hs Hne.
  rewrite (upload_run E servers serverInfo clean w ftu) by done.
  destruct (sizeEntries_covered (totalSize ftu) servers w Hwf Hcov) as [Hok Hview].
  destruct (sizeEntries_evolves (totalSize ftu) servers (transfersState w) w)
    as [_ Hwf1].
  set (sz := sizeEntries (totalSize ftu) servers (transfersState w) (heap w)) in *.
  set (w1 := with_heap sz.2 w) in *.
  exists (observe w1),
    (trace (uploadServers E serverInfo (transfersState w) ftu 0 servers w1)).
  cbn [outcome final trace fst snd]. rewrite Hok. split_and!; [done | done |].
  exact (uploadServers_within E serverInfo ftu 0 servers w1 (Hwf1 Hwf) Hnd).
Qed.

(** The updater changes nothing in a ledger of the batch that it has
    resized already, and undoes the restoring of the previous sizes. *)
Lemma resized_within total servers files nms v0 v1 u :
  (∀ n, v1 !! n = resized total servers n <$> v0 !! n) →
  within files nms v1 u →
  ∀ n, resized total servers n <$> u !! n = u !! n ∧
       resized total servers n <$> with_sizes (sizes v0) u !! n = u !! n.
Proof.
  intros Hv1 Hin n. specialize (Hin n). rewrite Hv1 in Hin.
  rewrite with_sizes_lookup. unfold sizes. rewrite lookup_fmap.
  destruct (v0 !! n) as [ts0|]; simpl in *.
  - destruct Hin as (m & -> & _). simpl.
    unfold resized, set_size, add_transferred. simpl.
    destruct (enabled ts0 && bool_decide (n ∈ names servers)) eqn:Hc; simpl;
      rewrite ?Hc; by destruct ts0.
  - by rewrite Hin.
Qed.

(** ** Counting transfers *)

Lemma transfers_app D t1 t2 :
  transfers D (t1 ++ t2) = (transfers D t1 + transfers D t2)%nat.
Proof. unfold transfers. by rewrite map_app, filter_app, length_app. Qed.

Lemma transfers_cons D e t :
  transfers D (e :: t)
  = ((if is_log D e.1 then 1 else 0) + transfers D t)%nat.
Proof.
  unfold transfers. cbn [map]. rewrite filter_cons.
  destruct (is_log D e.1) eqn:He.
  - by rewrite decide_True.
  - by rewrite decide_False by congruence.
Qed.

Lemma transfers_take_le D t (k : nat) :
  (transfers D (take k t) ≤ transfers D t)%nat.
Proof.
  rewrite <- (take_drop k t) at 2. rewrite transfers_app. lia.
Qed.

Lemma transfers_other D t :
  Forall (λ e : Entry, ev_server e.1 ≠ Some D) t → transfers D t = 0%nat.
Proof.
  induction 1 as [|e t He _ IH]; [done|].
  rewrite transfers_cons, IH. destruct e as [[] v]; simpl in *; try done.
  rewrite bool_decide_eq_false_2; [done|]. congruence.
Qed.

Lemma lag_transfers D sz d t : transfers D (lag sz d t) = transfers D t.
Proof. unfold transfers. by rewrite lag_events. Qed.

Lemma lag_take_transfers D sz d t (k : nat) :
  transfers D (take k (lag sz d t)) = transfers D (take k t).
Proof.
  unfold transfers.
  change (map fst) with (fmap (M := list) (@fst Event (gmap string TransferStats))).
  rewrite !fmap_take.
  change (fmap fst) with (map (@fst Event (gmap string TransferStats))).
  by rewrite lag_events.
Qed.

(** In the pass of an enabled destination every entry shows the files
    logged so far as transferred, and so does the ledger at the end. *)
Lemma uploadFiles_pinned E i s serverUrl files : ∀ (j : nat) w ts,
  ledger_wf w → observe w !! name s = Some ts → enabled ts = true →
  let x := uploadFiles E (transfersState w) i s serverUrl j files w in
  (∀ (k : nat) e, trace x !! k = Some e →
     e.2 = counted (name s)
             (totalSize (take (transfers (name s) (take (S k) (trace x))) files))
             ts (observe w)) ∧
  observe (final x)
  = counted (name s) (totalSize (take (transfers (name s) (trace x)) files)) ts
      (observe w) ∧
  (outcome x = Ok tt → transfers (name s) (trace x) = length files).
Proof.
  induction files as [|file rest IH]; intros j w ts Hwf Hobs Hen x.
  - subst x. simpl. split_and!; [done | | done].
    by rewrite totalSize_nil, counted_0.
  - pose proof (ledger_wf_idle w Hwf) as Hidle.
    assert (H0 : observe w = counted (name s) (totalSize (take 0 (file :: rest)))
                              ts (observe w))
      by (simpl; by rewrite totalSize_nil, counted_0).
    destruct (getUploadAuth E i j file) as [a|] eqn:Ha.
    2:{ subst x. rewrite (uploadFiles_auth_rejected _ _ _ _ _ _ _ _ _ Hidle Ha).
        cbn [outcome final trace fst snd]. split_and!; [| done | done].
        intros [|k] e; [|done]. by intros [= <-]. }
    destruct (uploadBlob E i j serverUrl file a) as [b|] eqn:Hb.
    2:{ subst x.
        rewrite (uploadFiles_transport_rejected _ _ _ _ _ _ _ _ _ Hidle _ Ha Hb).
        cbn [outcome final trace fst snd]. split_and!; [| done | done].
        intros [|[|k]] e; [| |done]; by intros [= <-]. }
    destruct (bump_transferred_run w (name s) ts (file_size file) Hobs)
      as (l & Hl & Hts & Hbump).
    set (w1 := {| heap := <[l := add_transferred (file_size file) ts]> (heap w);
                  transfersState := transfersState w;
                  filesState := filesState w;
                  pendingState := pendingState w |}) in *.
    assert (Hwf1 : ledger_wf w1) by (by eapply ledger_wf_write).
    assert (Hobs1 : observe w1
                    = counted (name s) (file_size file) ts (observe w))
      by (by apply observe_write).
    destruct (IH (S j) w1 (add_transferred (file_size file) ts) Hwf1)
      as (Hent & Hfin & Hok);
      [by rewrite Hobs1; apply lookup_insert_eq | done |].
    change (transfersState w1) with (transfersState w) in *.
    subst x.
    rewrite (uploadFiles_transferred _ _ _ _ _ _ _ _ _ Hidle _ _ _ Ha Hb Hbump).
    set (y := uploadFiles E (transfersState w) i s serverUrl (S j) rest w1) in *.
    assert (Hcount : ∀ m : nat,
      counted (name s) (totalSize (take m rest))
        (add_transferred (file_size file) ts) (observe w1)
      = counted (name s) (totalSize (take (S m) (file :: rest))) ts (observe w)).
    { intros m. rewrite Hobs1, counted_counted. simpl.
      by rewrite totalSize_cons. }
    assert (Hlog : is_log (name s) (ConsoleLog (name s) b) = true)
      by (simpl; by rewrite bool_decide_eq_true_2).
    cbn [outcome final trace fst snd]. split_and!.
    + intros [|[|[|k]]] e; cbn [lookup list_lookup take]; intros He.
      * by injection He as <-.
      * by injection He as <-.
      * injection He as <-. rewrite !transfers_cons. cbn [fst is_log].
        rewrite bool_decide_eq_true_2 by done. cbn [take transfers].
        unfold transfers. simpl. rewrite take_0, totalSize_cons, totalSize_nil.
        rewrite Hobs1. unfold counted. do 2 f_equal. lia.
      * rewrite (Hent k e He), Hcount. rewrite !transfers_cons. cbn [fst is_log].
        rewrite bool_decide_eq_true_2 by done. done.
    + rewrite Hfin, Hcount. rewrite !transfers_cons. cbn [fst is_log].
      rewrite bool_decide_eq_true_2 by done. done.
    + intros Hout. rewrite !transfers_cons. cbn [fst is_log].
      rewrite bool_decide_eq_true_2 by done. rewrite Hok by done. done.
Qed.

Lemma uploadFiles_pinned_all E i s serverUrl files (j : nat) w ts D ts0 :
  ledger_wf w → observe w !! name s = Some ts → enabled ts = true →
  observe w !! D = Some ts0 →
  let x := uploadFiles E (transfersState w) i s serverUrl j files w in
  (∀ (k : nat) e, trace x !! k = Some e →
     e.2 !! D
     = Some (add_transferred
               (totalSize (take (transfers D (take (S k) (trace x))) files)) ts0)) ∧
  observe (final x) !! D
  = Some (add_transferred (totalSize (take (transfers D (trace x)) files)) ts0).
Proof.
  intros Hwf Hts Hen HD x.
  destruct (uploadFiles_pinned E i s serverUrl files j w ts Hwf Hts Hen)
    as (Hent & Hfin & _).
  destruct (uploadFiles_spec E i s serverUrl files j w ts Hwf Hts Hen)
    as (k0 & _ & _ & _ & _ & _ & _ & Hall & _).
  fold x in Hent, Hfin, Hall.
  destruct (decide (D = name s)) as [->|Hne].
  - assert (ts0 = ts) as -> by congruence. split.
    + intros k e He. rewrite (Hent k e He). apply lookup_insert_eq.
    + rewrite Hfin. apply lookup_insert_eq.
  - assert (H0 : transfers D (trace x) = 0%nat).
    { apply transfers_other. eapply Forall_impl; [exact Hall|].
      intros e (Hsrv & _). rewrite Hsrv. congruence. }
    split.
    + intros k e He. rewrite (Hent k e He). unfold counted.
      rewrite lookup_insert_ne by done.
      pose proof (transfers_take_le D (trace x) (S k)) as Hle.
      replace (transfers D (take (S k) (trace x))) with 0%nat by lia.
      by rewrite take_0, totalSize_nil, add_transferred_0.
    + rewrite Hfin, H0. unfold counted. rewrite lookup_insert_ne by done.
      by rewrite take_0, totalSize_nil, add_transferred_0.
Qed.

(** In the destination loop every entry shows, for every destination, the
    files logged so far as transferred.  Destination names are unique. *)
Lemma uploadServers_pinned E serverInfo files i servers w :
  ledger_wf w → NoDup (names servers) →
  let x := uploadServers E serverInfo (transfersState w) files i servers w in
  ∀ D ts0, observe w !! D = Some ts0 →
    (∀ (k : nat) e, trace x !! k = Some e →
       e.2 !! D
       = Some (add_transferred
                 (totalSize (take (transfers D (take (S k) (trace x))) files))
                 ts0)) ∧
    observe (final x) !! D
    = Some (add_transferred (totalSize (take (transfers D (trace x)) files)) ts0).
Proof.
  intros Hwf. revert i servers w Hwf.
  apply (uploadServers_run_ind E serverInfo files
    (λ _ servers w x,
       NoDup (names servers) →
       ∀ D ts0, observe w !! D = Some ts0 →
         (∀ (k : nat) e, trace x !! k = Some e →
            e.2 !! D
            = Some (add_transferred
                      (totalSize (take (transfers D (take (S k) (trace x))) files))
                      ts0)) ∧
         observe (final x) !! D
         = Some (add_transferred
                   (totalSize (take (transfers D (trace x)) files)) ts0))).
  - intros i w _ _ D ts0 HD. simpl. split; [done|].
    by rewrite add_transferred_0.
  - intros i s rest w _ _ IH [_ Hnd]%NoDup_cons. by apply IH.
  - intros i s rest w _ _ _ _ D ts0 HD. simpl. split; [done|].
    by rewrite add_transferred_0.
  - intros i s rest w info ts e Hwf Hts Hen _ _ _ D ts0 HD.
    by apply (uploadFiles_pinned_all E i s (url info) files 0 w ts D ts0).
  - intros i s rest w info ts Hwf Hts Hen _ Hout IH [Hnot Hnd]%NoDup_cons D ts0 HD.
    destruct (uploadFiles_pinned_all E i s (url info) files 0 w ts D ts0
                Hwf Hts Hen HD) as [Hent Hfin].
    destruct (uploadFiles_pinned E i s (url info) files 0 w ts Hwf Hts Hen)
      as (_ & _ & Hall).
    specialize (Hall Hout).
    destruct (uploadFiles_spec E i s (url info) files 0 w ts Hwf Hts Hen)
      as (k0 & _ & Hwf' & Htr' & _ & _ & _ & Hev & _).
    set (tp := trace (uploadFiles E (transfersState w) i s (url info) 0 files w))
      in *.
    set (w1 := final (uploadFiles E (transfersState w) i s (url info) 0 files w))
      in *.
    set (w2 := {| heap := heap w1; transfersState := transfersState w1;
                  filesState := []; pendingState := pendingState w1 |}) in *.
    assert (Hwf2 : ledger_wf w2) by (by apply ledger_wf_files).
    set (y := uploadServers E serverInfo (transfersState w2) files (S i) rest w2)
      in *.
    destruct (IH Hnd D _ Hfin) as [IHent IHfin].
    (* the rest of the loop logs nothing for [s]; the pass logs nothing for
       the others *)
    assert (Hrest : D = name s → transfers D (trace y) = 0%nat).
    { intros ->. apply transfers_other.
      eapply Forall_impl;
        [exact (uploadServers_tags E serverInfo files (S i) rest w2 Hwf2)|].
      intros en Hen' Heq. destruct (Hen' _ Heq) as (s' & Hs' & Hname & _).
      apply Hnot. rewrite <- Hname. by apply list_elem_of_fmap_2. }
    assert (Hpass : D ≠ name s → transfers D tp = 0%nat).
    { intros Hne. apply transfers_other. eapply Forall_impl; [exact Hev|].
      intros en (Hsrv & _). rewrite Hsrv. congruence. }
    assert (Hadd : ∀ m : nat,
      (m ≤ transfers D (trace y))%nat →
      add_transferred (totalSize (take m files))
        (add_transferred (totalSize (take (transfers D tp) files)) ts0)
      = add_transferred (totalSize (take (transfers D tp + m) files)) ts0).
    { intros m Hm. destruct (decide (D = name s)) as [Heq|Hne].
      - rewrite (Hrest Heq) in Hm. replace m with 0%nat by lia.
        by rewrite take_0, totalSize_nil, add_transferred_0, Nat.add_0_r.
      - rewrite (Hpass Hne). by rewrite take_0, totalSize_nil, add_transferred_0. }
    cbn [outcome final trace fst snd]. split.
    + intros k e Hk. apply lookup_app_Some in Hk as [Hk|[Hlen Hk]];
        change (Event * gmap string TransferStats)%type with Entry in *.
      * rewrite (Hent k e Hk). do 4 f_equal.
        apply lookup_lt_Some in Hk. by rewrite take_app_le by lia.
      * rewrite take_app_ge by lia. rewrite transfers_app.
        destruct (k - length tp)%nat as [|[|k']] eqn:Hkk;
          cbn [lookup list_lookup] in Hk.
        -- injection Hk as <-. cbn [snd].
           replace (S k - length tp)%nat with 1%nat by lia.
           cbn [take]. rewrite ?take_0, transfers_cons. cbn [fst is_log].
           change (transfers D []) with 0%nat. rewrite Nat.add_0_r.
           exact Hfin.
        -- injection Hk as <-. cbn [snd].
           replace (S k - length tp)%nat with 2%nat by lia.
           cbn [take]. rewrite ?take_0, !transfers_cons. cbn [fst is_log].
           change (transfers D []) with 0%nat. rewrite Nat.add_0_r.
           exact Hfin.
        -- rewrite (IHent k' e Hk).
           replace (S k - length tp)%nat with (S (S (S k'))) by lia.
           cbn [take]. rewrite !transfers_cons. cbn [fst is_log].
           rewrite Hadd by apply transfers_take_le. done.
    + rewrite IHfin, transfers_app, !transfers_cons. cbn [fst is_log].
      by rewrite Hadd.
Qed.

Lemma sanitize_transfers E clean w D :
  transfers D (trace (sanitize E clean 0 (filesState w) [] w)) = 0%nat.
Proof.
  apply transfers_other. eapply Forall_impl; [apply sanitize_events|].
  intros e [f Hf]. by rewrite Hf.
Qed.

(** In the batch in which the updater runs at the call, every entry shows,
    for every destination, [transferred] as it was at the start plus the
    sizes of the files logged so far.  Destination names are unique. *)
Lemma upload_pinned E servers serverInfo clean w D ts0 :
  ledger_wf w → covers servers w → NoDup (names servers) →
  observe w !! D = Some ts0 →
  let x := click_upload 0 E servers serverInfo clean w in
  (∀ (k : nat) e, trace x !! k = Some e →
     ∃ ts, e.2 !! D = Some ts ∧
           transferred ts
           = transferred ts0
             + totalSize (take (transfers D (take (S k) (trace x)))
                            (sanitized E clean w))) ∧
  (∃ ts, observe (final x) !! D = Some ts ∧
         transferred ts
         = transferred ts0
           + totalSize (take (transfers D (trace x)) (sanitized E clean w))).
Proof.
  intros Hwf Hcov Hnd HD x. subst x. unfold sanitized.
  destruct (sanitize_spec E clean (filesState w) 0 [] w (ledger_wf_idle _ Hwf))
    as (_ & Hall & _).
  pose proof (sanitize_transfers E clean w D) as Hpre0.
  assert (Hpre : ∀ (k : nat) e,
            trace (sanitize E clean 0 (filesState w) [] w) !! k = Some e →
            e.2 !! D = Some ts0 ∧
            transfers D (take (S k) (trace (sanitize E clean 0 (filesState w) [] w)))
            = 0%nat).
  { intros k e Hk. split.
    - rewrite Forall_lookup in Hall. by destruct (Hall k e Hk) as [_ ->].
    - pose proof (transfers_take_le D (trace (sanitize E clean 0 (filesState w) [] w))
                    (S k)). lia. }
  assert (Hearly : ∀ fs,
    (∀ (k : nat) e,
       trace (sanitize E clean 0 (filesState w) [] w) !! k = Some e →
       ∃ ts, e.2 !! D = Some ts ∧
             transferred ts
             = transferred ts0
               + totalSize
                   (take (transfers D
                            (take (S k)
                               (trace (sanitize E clean 0 (filesState w) [] w))))
                         fs)) ∧
    (∃ ts, observe w !! D = Some ts ∧
           transferred ts
           = transferred ts0
             + totalSize
                 (take (transfers D
                          (trace (sanitize E clean 0 (filesState w) [] w)))
                       fs))).
  { intros fs. split.
    - intros k e Hk. destruct (Hpre k e Hk) as [He H0]. exists ts0.
      rewrite H0, take_0, totalSize_nil. split; [done | lia].
    - exists ts0. rewrite Hpre0, take_0, totalSize_nil. split; [done | lia]. }
  destruct (outcome (sanitize E clean 0 (filesState w) [] w))
    as [[|f ftu]|e] eqn:Hout.
  - rewrite upload_run_early by (done || by rewrite Hout).
    cbn [outcome final trace fst snd]. apply Hearly.
  - rewrite (upload_run E servers serverInfo clean w (f :: ftu)) by done.
    destruct (sizeEntries_covered (totalSize (f :: ftu)) servers w Hwf Hcov)
      as [Hok Hview].
    destruct (sizeEntries_evolves (totalSize (f :: ftu)) servers (transfersState w) w)
      as [_ Hwf1].
    set (sz := sizeEntries (totalSize (f :: ftu)) servers (transfersState w) (heap w))
      in *.
    set (w1 := with_heap sz.2 w) in *.
    set (ts1 := resized (totalSize (f :: ftu)) servers D ts0).
    assert (HD1 : observe w1 !! D = Some ts1) by (by rewrite Hview, HD).
    assert (Hts1 : transferred ts1 = transferred ts0)
      by apply resized_transferred.
    destruct (uploadServers_pinned E serverInfo (f :: ftu) 0 servers w1 (Hwf1 Hwf)
                Hnd D ts1 HD1) as [Hent Hfin].
    change (transfersState w1) with (transfersState w) in *.
    set (y := uploadServers E serverInfo (transfersState w) (f :: ftu) 0 servers w1)
      in *.
    set (pre := trace (sanitize E clean 0 (filesState w) [] w)) in *.
    cbn [outcome final trace fst snd]. split.
    + intros k e Hk. apply lookup_app_Some in Hk as [Hk|[Hlen Hk]];
        change (Event * gmap string TransferStats)%type with Entry in *.
      * destruct (Hpre k e Hk) as [He H0]. exists ts0. split; [done|].
        apply lookup_lt_Some in Hk. rewrite take_app_le by lia.
        rewrite H0, take_0, totalSize_nil. lia.
      * rewrite take_app_ge by lia. rewrite transfers_app, Hpre0.
        destruct (k - length pre)%nat as [|k'] eqn:Hkk;
          cbn [lookup list_lookup] in Hk.
        -- injection Hk as <-. exists ts1. split; [done|].
           replace (S k - length pre)%nat with 1%nat by lia.
           cbn [take]. rewrite ?take_0, transfers_cons.
           replace (is_log D (sizing_event sz.1, observe w1).1) with false
             by (by destruct sz.1).
           change (transfers D []) with 0%nat. cbn [Nat.add]. rewrite take_0.
           rewrite totalSize_nil. lia.
        -- replace (S k - length pre)%nat with (S (S k')) by lia.
           cbn [take]. rewrite transfers_cons.
           replace (is_log D (sizing_event sz.1, observe w1).1) with false
             by (by destruct sz.1).
           cbn [Nat.add]. eexists. split; [exact (Hent k' e Hk)|].
           simpl. lia.
    + rewrite transfers_app, Hpre0, transfers_cons.
      replace (is_log D (sizing_event sz.1, observe w1).1) with false
        by (by destruct sz.1).
      cbn [Nat.add]. eexists. split; [exact Hfin|]. simpl. lia.
  - rewrite upload_run_early by (done || by rewrite Hout).
    cbn [outcome final trace fst snd]. apply Hearly.
Qed.

(** ** The ledger during a batch *)

(** The request of the batch in which the updater runs at the call. *)
Lemma upload_request E servers serverInfo clean w ftu :
  ledger_wf w → covers servers w →
  outcome (sanitize E clean 0 (filesState w) [] w) = Ok ftu → ftu ≠ [] →
  ∃ v1 post,
    (∀ n, v1 !! n = resized (totalSize ftu) servers n <$> observe w !! n) ∧
    trace (click_upload 0 E servers serverInfo clean w)
      = trace (sanitize E clean 0 (filesState w) [] w)
        ++ (SetTransfers, v1) :: post ∧
    Forall (same_sizes v1)
           (v1 :: map snd post
            ++ [observe (final (click_upload 0 E servers serverInfo clean w))]).
Proof.
  intros Hwf Hcov Hs Hne.
  rewrite (upload_run E servers serverInfo clean w ftu) by done.
  destruct (sizeEntries_covered (totalSize ftu) servers w Hwf Hcov) as [Hok Hview].
  destruct (sizeEntries_evolves (totalSize ftu) servers (transfersState w) w)
    as [_ Hwf1].
  set (sz := sizeEntries (totalSize ftu) servers (transfersState w) (heap w)) in *.
  set (w1 := with_heap sz.2 w) in *.
  exists (observe w1),
    (trace (uploadServers E serverInfo (transfersState w) ftu 0 servers w1)).
  cbn [outcome final trace fst snd]. rewrite Hok. split_and!; [done | done |].
  constructor; [apply same_sizes_refl|].
  exact (uploadServers_sizes E serverInfo ftu 0 servers w1 (Hwf1 Hwf)).
Qed.

Lemma with_sizes_resized total servers v0 v1 :
  (∀ n, v1 !! n = resized total servers n <$> v0 !! n) →
  with_sizes (sizes v0) v1 = v0.
Proof.
  intros Hv1. apply map_eq. intros n. rewrite with_sizes_lookup, Hv1.
  unfold sizes. rewrite lookup_fmap. destruct (v0 !! n) as [ts|]; [|done].
  simpl. f_equal. unfold resized. destruct ts. by case_match.
Qed.

(** Whatever the schedule, a disabled entry is the same at every
    observation. *)
Lemma upload_disabled delay E servers serverInfo clean w n ts :
  ledger_wf w → covers servers w →
  observe w !! n = Some ts → enabled ts = false →
  Forall (λ v, v !! n = Some ts)
         (observations w (click_upload delay E servers serverInfo clean w)).
Proof.
  intros Hwf Hcov Hts Hen. unfold observations. schedule Hwf Hcov.
  apply lag_observations_Forall.
  { intros u Hu. rewrite with_sizes_lookup, Hu. unfold sizes.
    rewrite lookup_fmap, Hts. simpl. by destruct ts. }
  destruct (upload_history E servers serverInfo clean w Hwf) as (_ & _ & Hhist).
  constructor; [done|].
  eapply Forall_impl; [exact (history_Forall _ _ _ Hhist)|].
  intros v Hle. specialize (Hle n). rewrite Hts in Hle.
  inversion Hle as [? ts' (_ & _ & Hfrozen) |]; subst.
  by rewrite Hfrozen.
Qed.

(** C4 (amended). In a non-empty batch the sizing of the ledger is requested
    by one [setTransfers] call, after the sanitizer calls and before any
    Authorizer or Transport call.  React runs the updater inside that call
    ([delay = 0]: the entry of the call then shows every enabled destination
    with [size] equal to the sum of the sanitized sizes and [transferred] as
    it was) or later, during the [delay]-th of the calls that follow (the
    call changes nothing then), or once the batch is over when there are
    fewer calls.  An entry that has fewer than [delay] calls before it shows
    every enabled destination of the list with the size of before the
    batch; every other entry, and the ledger when the batch is over, shows
    all of them with the sum of the sanitized sizes: no entry shows some
    destinations sized and others not.  A disabled entry is the same at
    every observation. *)
Theorem ledger_initialization delay E servers serverInfo clean w ftu :
  reachable servers w →
  outcome (sanitize E clean 0 (filesState w) [] w) = Ok ftu → ftu ≠ [] →
  ∃ pre v post,
    trace (click_upload delay E servers serverInfo clean w)
      = pre ++ (SetTransfers, v) :: post ∧
    Forall (λ e : Entry, (∃ f, e.1 = RemoveExifData f) ∧ e.2 = observe w) pre ∧
    (delay = 0%nat →
     ∀ s ts, s ∈ servers → observe w !! name s = Some ts → enabled ts = true →
       v !! name s = Some {| enabled := true; size := totalSize ftu;
                             transferred := transferred ts |}) ∧
    (delay ≠ 0%nat → v = observe w) ∧
    (∀ (k : nat) e s ts,
       ((SetTransfers, v) :: post) !! k = Some e →
       s ∈ servers → observe w !! name s = Some ts → enabled ts = true →
       ∃ ts', e.2 !! name s = Some ts' ∧
              size ts'
              = if decide (length (calls (take k ((SetTransfers, v) :: post)))
                           < delay)%nat
                then size ts else totalSize ftu) ∧
    (∀ s ts, s ∈ servers → observe w !! name s = Some ts → enabled ts = true →
       ∃ ts', observe (final (click_upload delay E servers serverInfo clean w))
                !! name s = Some ts' ∧
              size ts' = totalSize ftu) ∧
    (∀ n ts, observe w !! n = Some ts → enabled ts = false →
       Forall (λ u, u !! n = Some ts)
              (observations w (click_upload delay E servers serverInfo clean w))).
Proof.
  intros (Hwf & Hcov & _)%reachable_invariant Hs Hne.
  pose proof (upload_disabled delay E servers serverInfo clean w) as Hdis.
  destruct (upload_request E servers serverInfo clean w ftu Hwf Hcov Hs Hne)
    as (v1 & post_s & Hv1 & Htr & Hsizes).
  destruct (sanitize_spec E clean (filesState w) 0 [] w (ledger_wf_idle _ Hwf))
    as (_ & Hall & _).
  assert (Hsized : ∀ s ts, s ∈ servers → observe w !! name s = Some ts →
            enabled ts = true →
            v1 !! name s = Some {| enabled := true; size := totalSize ftu;
                                   transferred := transferred ts |}).
  { intros s ts Hin Hts Hen. rewrite Hv1, Hts. simpl. unfold resized.
    rewrite bool_decide_eq_true_2 by (by apply list_elem_of_fmap_2).
    rewrite Hen. simpl. unfold set_size. by rewrite Hen. }
  schedule Hwf Hcov. rewrite Htr.
  rewrite lag_app_fixed.
  2:{ eapply Forall_impl; [exact Hall|]. intros e [[f ->] ->].
      split; [done | apply with_sizes_own]. }
  set (sz := sizes (observe w)) in *.
  assert (Hreq : ∃ v post,
            lag sz delay ((SetTransfers, v1) :: post_s) = (SetTransfers, v) :: post ∧
            (delay = 0%nat → v = v1) ∧ (delay ≠ 0%nat → v = observe w)).
  { destruct delay as [|d].
    - exists v1, post_s. by rewrite lag_0.
    - eexists _, _. cbn [lag]. split; [reflexivity|]. split; [done|]. intros _.
      by apply (with_sizes_resized (totalSize ftu) servers). }
  destruct Hreq as (v & post & Hreq & Hv0 & HvS).
  exists (trace (sanitize E clean 0 (filesState w) [] w)), v, post.
  rewrite Hreq. split_and!.
  - done.
  - exact Hall.
  - intros Hd s ts Hin Hts Hen. rewrite (Hv0 Hd). by apply Hsized.
  - exact HvS.
  - intros k e s ts Hk Hin Hts Hen. rewrite <- Hreq in Hk |- *.
    rewrite lag_take_calls.
    apply lag_lookup in Hk as (e0 & Hk & _ & He).
    assert (Hin0 : e0.2 ∈ v1 :: map snd post_s).
    { change (v1 :: map snd post_s) with (snd <$> ((SetTransfers, v1) :: post_s)).
      apply list_elem_of_fmap_2. by eapply list_elem_of_lookup_2. }
    rewrite Forall_forall in Hsizes.
    destruct (Hsizes e0.2) with (n := name s)
                                (ts := {| enabled := true; size := totalSize ftu;
                                          transferred := transferred ts |})
      as (ts' & Hts' & Hsz'); [| by apply Hsized |].
    { apply elem_of_cons in Hin0 as [->|Hin0]; [by left | right].
      apply elem_of_app. by left. }
    rewrite He. destruct (decide _).
    + eexists. rewrite with_sizes_lookup, Hts'. unfold sz, sizes.
      rewrite lookup_fmap, Hts. simpl. split; [reflexivity | done].
    + by exists ts'.
  - intros s ts Hin Hts Hen. rewrite Forall_forall in Hsizes.
    destruct (Hsizes (observe (final (click_upload 0 E servers serverInfo clean w))))
      with (n := name s)
           (ts := {| enabled := true; size := totalSize ftu;
                     transferred := transferred ts |})
      as (ts' & Hts' & Hsz'); [| by apply Hsized |].
    { right. apply elem_of_app. right. by left. }
    by exists ts'.
  - intros n ts Hts Hen. specialize (Hdis n ts Hwf Hcov Hts Hen).
    unfold observations in *.
    rewrite (upload_schedule delay E servers serverInfo clean w Hwf Hcov) in Hdis.
    cbn [outcome final trace fst snd] in Hdis. fold sz in Hdis.
    rewrite Htr, lag_app_fixed, Hreq in Hdis; [done|].
    eapply Forall_impl; [exact Hall|]. intros e [[f ->] ->].
    split; [done | apply with_sizes_own].
Qed.

(** In the batch in which the updater runs at the call, a counter that
    starts at 0 never exceeds [size]. *)
Lemma upload_bounded E servers serverInfo clean w D ts0 :
  ledger_wf w → covers servers w → NoDup (names servers) →
  observe w !! D = Some ts0 → transferred ts0 = 0 →
  Forall (λ v, ∃ ts, v !! D = Some ts ∧ transferred ts ≤ size ts)
         (observations w (click_upload 0 E servers serverInfo clean w)).
Proof.
  intros Hwf Hcov Hnd Hts0 H0.
  destruct (upload_observations E servers serverInfo clean w Hwf Hcov Hnd)
    as (v1 & Hv1 & Hall).
  eapply Forall_impl; [exact Hall|].
  intros v [->|Hin].
  - exists ts0. split; [done | lia].
  - specialize (Hin D). rewrite Hv1, Hts0 in Hin. simpl in Hin.
    destruct Hin as (m & Hv & Hnz). eexists. split; [exact Hv|].
    simpl. rewrite resized_transferred.
    destruct (decide (totalSize (take m (sanitized E clean w)) = 0)) as [Hz|Hz];
      [lia|].
    destruct (Hnz Hz) as [Hen HD]. rewrite resized_enabled in Hen.
    unfold resized. rewrite Hen, bool_decide_eq_true_2 by done. simpl.
    pose proof (totalSize_take_le m (sanitized E clean w)). lia.
Qed.

Lemma with_sizes_transferred sz u D ts :
  with_sizes sz u !! D = Some ts →
  ∃ ts', u !! D = Some ts' ∧ transferred ts = transferred ts' ∧
         enabled ts = enabled ts'.
Proof.
  rewrite with_sizes_lookup. destruct (u !! D) as [ts'|]; [|done].
  simpl. intros [= <-]. exists ts'. by destruct (sz !! D).
Qed.

Lemma with_sizes_Some sz u D ts' :
  u !! D = Some ts' →
  ∃ ts, with_sizes sz u !! D = Some ts ∧ transferred ts = transferred ts' ∧
        enabled ts = enabled ts'.
Proof.
  intros Hu. rewrite with_sizes_lookup, Hu. simpl. eexists. split; [done|].
  by destruct (sz !! D).
Qed.

(** C5 (amended). During a batch, whenever React runs the sizing updater and
    for every destination: [transferred] never decreases from one
    observation point to a later one; at every observation point it is its
    value at the start of the batch plus the sizes of the files that have
    been transferred to the destination so far, in the order of the batch
    (line 61 logs a transfer right after line 60 has counted it).  When it
    was 0 at the start, it never exceeds the sum of the sanitized sizes; it
    does not exceed [size] at any entry that has at least [delay] calls
    before it nor when the batch is over, but it can exceed [size] while
    the updater has not run.  Destination names are unique. *)
Theorem ledger_invariant delay E servers serverInfo clean w :
  reachable servers w → NoDup (names servers) →
  (∀ (i j : nat) vi vj D tsi,
     (i ≤ j)%nat →
     observations w (click_upload delay E servers serverInfo clean w) !! i
       = Some vi →
     observations w (click_upload delay E servers serverInfo clean w) !! j
       = Some vj →
     vi !! D = Some tsi →
     ∃ tsj, vj !! D = Some tsj ∧ transferred tsi ≤ transferred tsj) ∧
  (∀ (k : nat) v D ts0,
     observations w (click_upload delay E servers serverInfo clean w) !! k
       = Some v →
     observe w !! D = Some ts0 →
     ∃ ts, v !! D = Some ts ∧
           transferred ts
           = transferred ts0
             + totalSize
                 (take (transfers D
                          (take k (trace (click_upload delay E servers serverInfo
                                            clean w))))
                       (sanitized E clean w))) ∧
  (∀ D ts0,
     observe w !! D = Some ts0 → transferred ts0 = 0 →
     Forall (λ v, ∃ ts, v !! D = Some ts ∧
                        transferred ts ≤ totalSize (sanitized E clean w))
            (observations w (click_upload delay E servers serverInfo clean w)) ∧
     (∀ (k : nat) e ts,
        trace (click_upload delay E servers serverInfo clean w) !! k = Some e →
        e.2 !! D = Some ts →
        (delay ≤ length (calls (take k (trace (click_upload delay E servers
                                                 serverInfo clean w)))))%nat →
        transferred ts ≤ size ts) ∧
     (∃ ts, observe (final (click_upload delay E servers serverInfo clean w)) !! D
              = Some ts ∧
            transferred ts ≤ size ts)).
Proof.
  intros (Hwf & Hcov & _)%reachable_invariant Hnd.
  unfold observations. schedule Hwf Hcov.
  set (sz := sizes (observe w)).
  set (s := click_upload 0 E servers serverInfo clean w).
  assert (Hpin : ∀ (k : nat) v D ts0,
    (observe w :: map snd (lag sz delay (trace s)) ++ [observe (final s)]) !! k
      = Some v →
    observe w !! D = Some ts0 →
    ∃ ts, v !! D = Some ts ∧
          transferred ts
          = transferred ts0
            + totalSize (take (transfers D (take k (lag sz delay (trace s))))
                           (sanitized E clean w))).
  { intros k v D ts0 Hk HD. rewrite lag_take_transfers.
    destruct (upload_pinned E servers serverInfo clean w D ts0 Hwf Hcov Hnd HD)
      as [Hent Hfin]. fold s in Hent, Hfin.
    apply lag_observations in Hk as (u & Hu & Hv).
    assert (Hu' : ∃ ts, u !! D = Some ts ∧
              transferred ts
              = transferred ts0
                + totalSize (take (transfers D (take k (trace s)))
                               (sanitized E clean w))).
    { destruct k as [|k]; simpl in Hu.
      - injection Hu as <-. exists ts0. rewrite take_0.
        change (transfers D []) with 0%nat. rewrite ?take_0, totalSize_nil.
        split; [done | lia].
      - change (map snd (trace s)) with (snd <$> trace s) in Hu.
        apply lookup_app_Some in Hu as [Hu|[Hlen Hu]].
        + apply list_lookup_fmap_Some in Hu as (e & -> & Hu).
          exact (Hent k e Hu).
        + apply list_lookup_singleton_Some in Hu as [_ <-].
          rewrite length_fmap in Hlen.
          assert (Hlen' : (length (trace s) ≤ k)%nat) by exact Hlen.
          rewrite (take_ge (trace s)) by lia. exact Hfin. }
    destruct Hu' as (ts & Hts & Htr). destruct Hv as [->| ->]; [by exists ts|].
    destruct (with_sizes_Some sz u D ts Hts) as (ts' & Hts' & Htr' & _).
    exists ts'. split; [done | congruence]. }
  split_and!.
  - intros i j vi vj D tsi Hij Hi Hj HD.
    destruct (upload_history E servers serverInfo clean w Hwf) as (_ & _ & Hhist).
    apply lag_observations in Hi as (ui & Hi & Hvi).
    apply lag_observations in Hj as (uj & Hj & Hvj).
    assert (∃ tsi', ui !! D = Some tsi' ∧ transferred tsi = transferred tsi')
      as (tsi' & HDi & Hti).
    { destruct Hvi as [->| ->]; [by exists tsi|].
      apply with_sizes_transferred in HD as (ts' & ? & ? & _). by exists ts'. }
    pose proof (history_ordered _ _ _ i j ui uj Hhist Hij Hi Hj D) as Hle.
    rewrite HDi in Hle. inversion Hle as [? tsj (_ & Hmono & _) Heq1 Heq2|]; subst.
    symmetry in Heq2.
    destruct Hvj as [->| ->].
    + exists tsj. split; [done | lia].
    + destruct (with_sizes_Some sz uj D tsj Heq2) as (ts' & Hts' & Htr' & _).
      exists ts'. split; [done | lia].
  - exact Hpin.
  - intros D ts0 HD H0. split_and!.
    + apply Forall_lookup. intros k v Hk.
      destruct (Hpin k v D ts0 Hk HD) as (ts & Hts & Htr). exists ts.
      split; [done|]. rewrite Htr, H0.
      pose proof (totalSize_take_le
                    (transfers D (take k (lag sz delay (trace s))))
                    (sanitized E clean w)). lia.
    + intros k e ts Hk He Hcalls. rewrite lag_take_calls in Hcalls.
      apply lag_lookup in Hk as (e0 & Hk & _ & He0).
      rewrite decide_False in He0 by lia. rewrite He0 in He.
      pose proof (upload_bounded E servers serverInfo clean w D ts0 Hwf Hcov Hnd
                    HD H0) as Hb.
      rewrite Forall_forall in Hb. destruct (Hb e0.2) as (ts' & Hts' & Hle).
      { unfold observations. right. apply elem_of_app. left.
        apply (list_elem_of_fmap_2 snd). by eapply list_elem_of_lookup_2. }
      congruence.
    + pose proof (upload_bounded E servers serverInfo clean w D ts0 Hwf Hcov Hnd
                    HD H0) as Hb.
      rewrite Forall_forall in Hb. apply Hb.
      unfold observations. right. apply elem_of_app. right. by left.
Qed.

(** ** Failures *)

(** A batch stopped by a rejected Authorizer or Transport call, whatever
    the schedule. *)
Lemma upload_rejected delay E servers serverInfo clean w e :
  ledger_wf w → covers servers w → NoDup (names servers) →
  outcome (click_upload delay E servers serverInfo clean w) = Throw e →
  e = AuthRejected ∨ e = TransportRejected →
  ∃ before D after t0 call (j : nat) f ts0 v,
    servers = before ++ D :: after ∧
    is_enabled w D = true ∧
    signals (trace (click_upload delay E servers serverInfo clean w))
      = flat_map pass_signals (filter (λ s, is_enabled w s = true) before) ∧
    filesState (final (click_upload delay E servers serverInfo clean w))
      = selection_after w before (filesState w) ∧
    Forall (λ en : Entry, ∀ s, s ∈ after → ev_server en.1 ≠ Some (name s))
           (trace (click_upload delay E servers serverInfo clean w)) ∧
    trace (click_upload delay E servers serverInfo clean w) = t0 ++ [(call, v)] ∧
    (∀ n, observe (final (click_upload delay E servers serverInfo clean w)) !! n
          = resized (totalSize (sanitized E clean w)) servers n <$> v !! n) ∧
    ((delay ≤ length (calls t0))%nat →
     observe (final (click_upload delay E servers serverInfo clean w)) = v) ∧
    sanitized E clean w !! j = Some f ∧
    observe w !! name D = Some ts0 ∧
    observe (final (click_upload delay E servers serverInfo clean w)) !! name D
      = Some {| enabled := true;
                size := totalSize (sanitized E clean w);
                transferred := transferred ts0
                               + totalSize (take j (sanitized E clean w)) |} ∧
    v !! name D
      = Some {| enabled := true;
                size := if decide (length (calls t0) < delay)%nat
                        then size ts0
                        else totalSize (sanitized E clean w);
                transferred := transferred ts0
                               + totalSize (take j (sanitized E clean w)) |} ∧
    ((e = AuthRejected ∧ call = GetUploadAuth (name D) j f) ∨
     (e = TransportRejected ∧
      ∃ info, serverInfo !! name D = Some info ∧
              call = UploadBlob (name D) (url info) j f)).
Proof.
  intros Hwf Hcov Hnd. schedule Hwf Hcov. intros Hout He.
  destruct (upload_Throw E servers serverInfo clean w e Hwf Hcov Hnd Hout He)
    as (before & D & after & t0 & call & j & f & ts0 & Hsplit & HD & Hsig & Hfs
        & Hafter & Ht & Hf & Hts0 & Hfin & Hcall).
  set (sz := sizes (observe w)).
  set (u := observe (final (click_upload 0 E servers serverInfo clean w))) in *.
  assert (Hres : ∀ n,
    resized (totalSize (sanitized E clean w)) servers n <$> u !! n = u !! n ∧
    resized (totalSize (sanitized E clean w)) servers n <$> with_sizes sz u !! n
    = u !! n).
  { unfold sanitized.
    destruct (outcome (sanitize E clean 0 (filesState w) [] w))
      as [[|f0 ftu]|e0] eqn:Hs.
    - rewrite upload_run_early in Hout by (done || by rewrite Hs).
      by rewrite Hs in Hout.
    - destruct (upload_after_request E servers serverInfo clean w (f0 :: ftu)
                  Hwf Hcov Hnd Hs) as (v1 & post & Hv1 & _ & Hin); [done|].
      apply (resized_within _ _ (f0 :: ftu) (names servers) (observe w) v1);
        [done|].
      rewrite Forall_forall in Hin. apply Hin. apply elem_of_app. right. by left.
    - rewrite upload_run_early in Hout by (done || by rewrite Hs).
      rewrite Hs in Hout. simpl in Hout. injection Hout as <-.
      pose proof (sanitize_length E clean (filesState w) 0 [] w) as Hl.
      rewrite Hs in Hl. destruct He; congruence. }
  apply (lag_Forall_events
           (λ ev, ∀ s, s ∈ after → ev_server ev ≠ Some (name s)) sz delay)
    in Hafter.
  rewrite (lag_last sz delay _ t0 call u Ht) in *.
  exists before, D, after, (lag sz delay t0), call, j, f, ts0.
  eexists. split_and!; try done.
  - intros n. destruct (Hres n) as [H1 H2]. by destruct (decide _).
  - rewrite lag_calls. intros Hd. destruct (decide _); [lia | done].
  - rewrite lag_calls. destruct (decide _); [|done].
    rewrite with_sizes_lookup, Hfin. unfold sz, sizes.
    by rewrite lookup_fmap, Hts0.
Qed.



(** A batch that ends without a failure, whatever the schedule. *)
Lemma upload_completed delay E servers serverInfo clean w :
  ledger_wf w → covers servers w → filesState w ≠ [] →
  outcome (click_upload delay E servers serverInfo clean w) = Ok tt →
  signals (trace (click_upload delay E servers serverInfo clean w))
    = flat_map pass_signals (filter (λ s, is_enabled w s = true) servers) ∧
  filesState (final (click_upload delay E servers serverInfo clean w))
    = selection_after w servers (filesState w).
Proof.
  intros Hwf Hcov Hne. schedule Hwf Hcov.
  by apply upload_Ok.
Qed.

(** C2 (amended). In a non-empty batch that ends without a failure,
    [invalidateQueries] is called exactly once with the key of every enabled
    destination and never with the key of a disabled one.  When an
    Authorizer or Transport call is rejected in the pass of [D], it has been
    called once for every enabled destination before [D], and not at all
    for [D] nor for any destination after it.  Destination names are
    unique. *)
Theorem invalidation_signal delay E servers serverInfo clean w :
  reachable servers w → NoDup (names servers) → filesState w ≠ [] →
  (outcome (click_upload delay E servers serverInfo clean w) = Ok tt →
   ∀ s, s ∈ servers →
     invalidations (name s) (trace (click_upload delay E servers serverInfo clean w))
     = if is_enabled w s then 1%nat else 0%nat) ∧
  (∀ e,
     outcome (click_upload delay E servers serverInfo clean w) = Throw e →
     e = AuthRejected ∨ e = TransportRejected →
     ∃ before D after t0 call v,
       servers = before ++ D :: after ∧
       is_enabled w D = true ∧
       trace (click_upload delay E servers serverInfo clean w) = t0 ++ [(call, v)] ∧
       is_call call = true ∧ ev_server call = Some (name D) ∧
       (∀ s, s ∈ before →
          invalidations (name s) (trace (click_upload delay E servers serverInfo clean w))
          = if is_enabled w s then 1%nat else 0%nat) ∧
       (∀ s, s = D ∨ s ∈ after →
          invalidations (name s) (trace (click_upload delay E servers serverInfo clean w))
          = 0%nat)).
Proof.
  intros (Hwf & Hcov & _)%reachable_invariant Hnd Hne. split.
  - intros Hout s Hs.
    destruct (upload_completed delay E servers serverInfo clean w
                Hwf Hcov Hne Hout) as [Hsig _].
    rewrite invalidations_signals, Hsig.
    by apply enabled_passes_invalidations.
  - intros e Hout He.
    destruct (upload_rejected delay E servers serverInfo clean w e
                Hwf Hcov Hnd Hout He)
      as (before & D & after & t0 & call & j & f & ts0 & v & Hsplit & HD & Hsig
          & _ & _ & Ht & _ & _ & _ & _ & _ & _ & Hcall).
    exists before, D, after, t0, call, v.
    rewrite Hsplit in Hnd. unfold names in Hnd. rewrite map_app in Hnd.
    apply NoDup_app in Hnd as (Hnd1 & Hdisj & Hnd2).
    split_and!; try done.
    + destruct Hcall as [[_ ->]|[_ (info & _ & ->)]]; done.
    + destruct Hcall as [[_ ->]|[_ (info & _ & ->)]]; done.
    + intros s Hs. rewrite invalidations_signals, Hsig.
      by apply enabled_passes_invalidations.
    + intros s Hs. rewrite invalidations_signals, Hsig.
      apply passes_invalidations_absent. intros Hin.
      apply names_filter_subseteq in Hin.
      apply (Hdisj _ Hin). simpl.
      destruct Hs as [->|Hs]; [by left | right; by apply list_elem_of_fmap_2].
Qed.

(** C3 (amended). In a non-empty batch the selection is cleared by
    [setFiles([])] right after the [invalidateQueries] of each enabled
    destination whose pass completes: once per such destination, the first
    time before the later destinations have run.  A batch that ends without
    a failure has cleared it once per enabled destination and leaves it
    empty if at least one destination is enabled, untouched otherwise.  A
    batch stopped by a rejected call in the pass of [D] has cleared it only
    for the enabled destinations before [D]; when there is none the
    selection is left as it was.  Destination names are unique. *)
Theorem selection_clearing delay E servers serverInfo clean w :
  reachable servers w → NoDup (names servers) → filesState w ≠ [] →
  (outcome (click_upload delay E servers serverInfo clean w) = Ok tt →
   signals (trace (click_upload delay E servers serverInfo clean w))
     = flat_map pass_signals (filter (λ s, is_enabled w s = true) servers) ∧
   clearings (trace (click_upload delay E servers serverInfo clean w))
     = length (filter (λ s, is_enabled w s = true) servers) ∧
   filesState (final (click_upload delay E servers serverInfo clean w))
     = selection_after w servers (filesState w)) ∧
  (∀ e,
     outcome (click_upload delay E servers serverInfo clean w) = Throw e →
     e = AuthRejected ∨ e = TransportRejected →
     ∃ before D after t0 call v,
       servers = before ++ D :: after ∧
       is_enabled w D = true ∧
       trace (click_upload delay E servers serverInfo clean w) = t0 ++ [(call, v)] ∧
       is_call call = true ∧ ev_server call = Some (name D) ∧
       signals (trace (click_upload delay E servers serverInfo clean w))
         = flat_map pass_signals (filter (λ s, is_enabled w s = true) before) ∧
       clearings (trace (click_upload delay E servers serverInfo clean w))
         = length (filter (λ s, is_enabled w s = true) before) ∧
       filesState (final (click_upload delay E servers serverInfo clean w))
         = selection_after w before (filesState w)).
Proof.
  intros (Hwf & Hcov & _)%reachable_invariant Hnd Hne. split.
  - intros Hout.
    destruct (upload_completed delay E servers serverInfo clean w
                Hwf Hcov Hne Hout) as [Hsig Hfs].
    split_and!; [done | | done].
    by rewrite clearings_signals, Hsig, passes_clearings.
  - intros e Hout He.
    destruct (upload_rejected delay E servers serverInfo clean w e
                Hwf Hcov Hnd Hout He)
      as (before & D & after & t0 & call & j & f & ts0 & v & Hsplit & HD & Hsig
          & Hfs & _ & Ht & _ & _ & _ & _ & _ & _ & Hcall).
    exists before, D, after, t0, call, v.
    split_and!; try done.
    + destruct Hcall as [[_ ->]|[_ (info & _ & ->)]]; done.
    + destruct Hcall as [[_ ->]|[_ (info & _ & ->)]]; done.
    + by rewrite clearings_signals, Hsig, passes_clearings.
Qed.

(** * The claims on concrete batches *)

(** In the batches below React runs the sizing updater while [upload] is
    suspended in one of the calls that follow the request; which one is
    the first argument of [click_upload]. *)

Lemma reachable_ready_AB : reachable [srvA; srvB] ready_AB.
Proof. apply reach_addFiles, reach_mount. Qed.

Lemma reachable_ready_A_only : reachable [srvA; srvB] ready_A_only.
Proof.
  apply reach_addFiles. apply (reach_toggle _ _ srvB false); [apply reach_mount|].
  right. left.
Qed.

Lemma reachable_ready_one : reachable [srvA] ready_one.
Proof. apply reach_addFiles, reach_mount. Qed.

Lemma reachable_second_batch : reachable [srvA] second_batch.
Proof. apply reach_addFiles, reach_upload, reach_addFiles, reach_mount. Qed.

Lemma NoDup_names_AB : NoDup (names [srvA; srvB]).
Proof.
  apply NoDup_cons. split; [|apply NoDup_singleton].
  intros Hin%list_elem_of_singleton. discriminate Hin.
Qed.


(** Counterexample to C2: A's pass completes, B's pass ends by a rejected
    Transport call, and [invalidateQueries] is never called for B. *)
Lemma invalidation_counterexample :
  reachable [srvA; srvB] ready_AB ∧
  is_enabled ready_AB srvB = true ∧
  outcome (click_upload 1 (transport_rejects 1 0) [srvA; srvB] info_AB true ready_AB)
    = Throw TransportRejected ∧
  invalidations "A"
    (trace (click_upload 1 (transport_rejects 1 0) [srvA; srvB] info_AB true ready_AB))
    = 1%nat ∧
  invalidations "B"
    (trace (click_upload 1 (transport_rejects 1 0) [srvA; srvB] info_AB true ready_AB))
    = 0%nat.
Proof. split; [exact reachable_ready_AB | by vm_compute]. Qed.

(** Counterexample to C3: one file of 50 bytes, one destination, the
    Transport call fails; [setFiles([])] is never called and the selection
    is still there.  And with two enabled destinations and no failure the
    selection is cleared twice, the first time before B's pass begins. *)
Lemma selection_counterexample :
  reachable [srvA] ready_one ∧
  outcome (click_upload 1 (transport_rejects 0 0) [srvA] info_AB true ready_one)
    = Throw TransportRejected ∧
  clearings (trace (click_upload 1 (transport_rejects 0 0) [srvA] info_AB true
                      ready_one)) = 0%nat ∧
  filesState (final (click_upload 1 (transport_rejects 0 0) [srvA] info_AB true
                       ready_one)) = [file50] ∧
  clearings (trace (click_upload 1 all_resolve [srvA; srvB] info_AB true ready_AB))
    = 2%nat ∧
  map fst (trace (click_upload 1 all_resolve [srvA; srvB] info_AB true ready_AB))
    !! 10%nat = Some (SetFiles []) ∧
  map fst (trace (click_upload 1 all_resolve [srvA; srvB] info_AB true ready_AB))
    !! 11%nat = Some (GetUploadAuth "B" 0 file100).
Proof. split; [exact reachable_ready_one | by vm_compute]. Qed.

(** Counterexample to C4: React runs the updater while [upload] is
    suspended in the first Authorizer call.  That call is issued with every
    destination still at size 0, although the sanitized batch has 300
    bytes; the next entry shows both destinations sized. *)
Lemma ledger_initialization_counterexample :
  reachable [srvA; srvB] ready_AB ∧
  totalSize (sanitized all_resolve true ready_AB) = 300 ∧
  map fst (take 4 (trace (click_upload 1 all_resolve [srvA; srvB] info_AB true
                            ready_AB)))
    = [RemoveExifData file100; RemoveExifData file200; SetTransfers;
       GetUploadAuth "A" 0 file100] ∧
  (∃ v, trace (click_upload 1 all_resolve [srvA; srvB] info_AB true ready_AB)
          !! 3%nat = Some (GetUploadAuth "A" 0 file100, v) ∧
        v !! "A" = Some {| enabled := true; size := 0; transferred := 0 |} ∧
        v !! "B" = Some {| enabled := true; size := 0; transferred := 0 |}) ∧
  (∃ v, trace (click_upload 1 all_resolve [srvA; srvB] info_AB true ready_AB)
          !! 4%nat = Some (UploadBlob "A" "https://a.example" 0 file100, v) ∧
        v !! "A" = Some {| enabled := true; size := 300; transferred := 0 |} ∧
        v !! "B" = Some {| enabled := true; size := 300; transferred := 0 |}).
Proof.
  split_and!; [exact reachable_ready_AB | by vm_compute.. | |];
    eexists; (split; [by vm_compute | by vm_compute]).
Qed.

(** Counterexample to C5: a second batch of 50 bytes after a first one of
    300 bytes ends with [transferred = 350] and [size = 50].  And in a
    first batch, when the two calls for the first file resolve before React
    has run the updater, line 61 logs the transfer with
    [transferred = 100] and [size = 0]. *)
Lemma ledger_invariant_counterexample :
  reachable [srvA] second_batch ∧
  observe second_batch !! "A"
    = Some {| enabled := true; size := 300; transferred := 300 |} ∧
  outcome (click_upload 1 all_resolve [srvA] info_AB true second_batch) = Ok tt ∧
  observe (final (click_upload 1 all_resolve [srvA] info_AB true second_batch)) !! "A"
    = Some {| enabled := true; size := 50; transferred := 350 |} ∧
  ¬ (350 ≤ 50) ∧
  reachable [srvA; srvB] ready_AB ∧
  (∃ b v, trace (click_upload 3 all_resolve [srvA; srvB] info_AB true ready_AB)
            !! 5%nat = Some (ConsoleLog "A" b, v) ∧
          v !! "A" = Some {| enabled := true; size := 0; transferred := 100 |}) ∧
  ¬ (100 ≤ 0).
Proof.
  split_and!;
    [exact reachable_second_batch | by vm_compute.. | lia
    | exact reachable_ready_AB | | lia].
  do 2 eexists. split; by vm_compute.
Qed.


(** C10 on a destination that is re-enabled after a batch: its counters
    are zeroed. *)
Lemma toggle_replaces_entry_witness :
  reachable [srvA] after_first_batch ∧
  observe after_first_batch !! "A"
    = Some {| enabled := true; size := 300; transferred := 300 |} ∧
  observe (toggle "A" true after_first_batch) !! "A" = Some fresh_stats.
Proof.
  assert (H : reachable [srvA] after_first_batch)
    by apply reach_upload, reach_addFiles, reach_mount.
  split_and!.
  - exact H.
  - vm_compute. reflexivity.
  - exact (proj1 (toggle_replaces_entry [srvA] after_first_batch "A" true H)).
Defined.

(** C7 on the batch with B unchecked. *)
Lemma disabled_destination_inert_witness :
  reachable [srvA; srvB] ready_A_only ∧
  observe ready_A_only !! "B" = Some inert_stats ∧
  enabled inert_stats = false ∧
  Forall (λ e : Entry, ev_server e.1 ≠ Some "B")
         (trace (click_upload 1 all_resolve [srvA; srvB] info_AB true ready_A_only)) ∧
  Forall (λ v, v !! "B" = Some inert_stats)
         (observations ready_A_only
            (click_upload 1 all_resolve [srvA; srvB] info_AB true ready_A_only)).
Proof.
  assert (H : reachable [srvA; srvB] ready_A_only) by exact reachable_ready_A_only.
  assert (HB : observe ready_A_only !! "B" = Some inert_stats)
    by (vm_compute; reflexivity).
  split_and!; [exact H | exact HB | reflexivity | |];
    apply (disabled_destination_inert 1 all_resolve [srvA; srvB] info_AB true
             ready_A_only "B" inert_stats H HB eq_refl).
Defined.

(** C4 on the batch with B unchecked, the updater running during the first
    call: the request changes nothing, the first Authorizer call is issued
    with A at size 0, the Transport call that follows with A at 300, and B
    is left alone. *)
Lemma ledger_initialization_witness :
  reachable [srvA; srvB] ready_A_only ∧
  outcome (sanitize all_resolve true 0 (filesState ready_A_only) [] ready_A_only)
    = Ok [file100; file200] ∧
  [file100; file200] ≠ [] ∧
  ∃ pre v post,
    trace (click_upload 1 all_resolve [srvA; srvB] info_AB true ready_A_only)
      = pre ++ (SetTransfers, v) :: post ∧
    Forall (λ e : Entry, (∃ f, e.1 = RemoveExifData f) ∧ e.2 = observe ready_A_only)
           pre ∧
    v = observe ready_A_only ∧
    (∀ e, ((SetTransfers, v) :: post) !! 1%nat = Some e →
          ∃ ts, e.2 !! "A" = Some ts ∧ size ts = 0) ∧
    (∀ e, ((SetTransfers, v) :: post) !! 2%nat = Some e →
          ∃ ts, e.2 !! "A" = Some ts ∧ size ts = 300) ∧
    (∃ ts, observe (final (click_upload 1 all_resolve [srvA; srvB] info_AB true
                             ready_A_only)) !! "A" = Some ts ∧
           size ts = 300) ∧
    Forall (λ u, u !! "B" = Some inert_stats)
           (observations ready_A_only
              (click_upload 1 all_resolve [srvA; srvB] info_AB true ready_A_only)).
Proof.
  assert (H : reachable [srvA; srvB] ready_A_only) by exact reachable_ready_A_only.
  assert (Hs : outcome (sanitize all_resolve true 0 (filesState ready_A_only) []
                          ready_A_only) = Ok [file100; file200])
    by (vm_compute; reflexivity).
  assert (Hne : [file100; file200] ≠ []) by discriminate.
  assert (HA : observe ready_A_only !! name srvA = Some fresh_stats)
    by (vm_compute; reflexivity).
  split_and!; [exact H | exact Hs | exact Hne |].
  destruct (ledger_initialization 1 all_resolve [srvA; srvB] info_AB true
              ready_A_only [file100; file200] H Hs Hne)
    as (pre & v & post & Ht & Hpre & _ & Hreq & Hat & Hfin & Hdis).
  assert (Hpost : (SetTransfers, v) :: post
    = drop 2 (trace (click_upload 1 all_resolve [srvA; srvB] info_AB true
                       ready_A_only))).
  { assert (Hev : map fst pre ++ SetTransfers :: map fst post
                   = map fst (trace (click_upload 1 all_resolve [srvA; srvB]
                                       info_AB true ready_A_only)))
      by (by rewrite Ht, map_app).
    rewrite Ht.
    destruct pre as [|e1 [|e2 [|e3 pre]]]; [discriminate Hev.. | reflexivity |].
    apply Forall_cons in Hpre as [_ Hpre]. apply Forall_cons in Hpre as [_ Hpre].
    apply Forall_cons in Hpre as [[[f Hf] _] _].
    simpl in Hev. rewrite Hf in Hev. discriminate Hev. }
  exists pre, v, post. split_and!; [exact Ht | exact Hpre | | | | |].
  - apply Hreq. discriminate.
  - intros e He.
    destruct (Hat 1%nat e srvA fresh_stats He (list_elem_of_here _ _) HA eq_refl)
      as (ts & Hts & Hsz).
    exists ts. split; [exact Hts|]. rewrite Hsz, Hpost. vm_compute. reflexivity.
  - intros e He.
    destruct (Hat 2%nat e srvA fresh_stats He (list_elem_of_here _ _) HA eq_refl)
      as (ts & Hts & Hsz).
    exists ts. split; [exact Hts|]. rewrite Hsz, Hpost. vm_compute. reflexivity.
  - destruct (Hfin srvA fresh_stats (list_elem_of_here _ _) HA eq_refl)
      as (ts & Hts & Hsz).
    exists ts. split; [exact Hts|]. rewrite Hsz. vm_compute. reflexivity.
  - apply (Hdis "B" inert_stats); [vm_compute; reflexivity | reflexivity].
Defined.

(** C5 on a first batch in which the updater runs during the third call:
    A never shows more transferred than the 300 bytes of the batch, the
    observation after the first transfer shows 100, and from the fourth
    call on no entry shows more transferred than planned. *)
Lemma ledger_invariant_witness :
  reachable [srvA; srvB] ready_AB ∧ NoDup (names [srvA; srvB]) ∧
  observe ready_AB !! "A" = Some fresh_stats ∧ transferred fresh_stats = 0 ∧
  Forall (λ v, ∃ ts, v !! "A" = Some ts ∧ transferred ts ≤ 300)
         (observations ready_AB
            (click_upload 3 all_resolve [srvA; srvB] info_AB true ready_AB)) ∧
  (∀ v, observations ready_AB
          (click_upload 3 all_resolve [srvA; srvB] info_AB true ready_AB) !! 6%nat
        = Some v →
        ∃ ts, v !! "A" = Some ts ∧ transferred ts = 100) ∧
  (∀ e ts, trace (click_upload 3 all_resolve [srvA; srvB] info_AB true ready_AB)
             !! 7%nat = Some e →
           e.2 !! "A" = Some ts → transferred ts ≤ size ts).
Proof.
  assert (HA : observe ready_AB !! "A" = Some fresh_stats)
    by (vm_compute; reflexivity).
  split_and!;
    [exact reachable_ready_AB | exact NoDup_names_AB | exact HA | reflexivity
    | | |].
  - exact (proj1 (proj2 (proj2 (ledger_invariant 3 all_resolve [srvA; srvB]
                                  info_AB true ready_AB reachable_ready_AB
                                  NoDup_names_AB))
                    "A" fresh_stats HA eq_refl)).
  - intros v Hv.
    destruct (proj1 (proj2 (ledger_invariant 3 all_resolve [srvA; srvB] info_AB
                              true ready_AB reachable_ready_AB NoDup_names_AB))
                6%nat v "A" fresh_stats Hv HA) as (ts & Hts & Htr).
    exists ts. split; [exact Hts|]. rewrite Htr. vm_compute. reflexivity.
  - intros e ts He Hts.
    apply (proj1 (proj2 (proj2 (proj2 (ledger_invariant 3 all_resolve [srvA; srvB]
                                         info_AB true ready_AB reachable_ready_AB
                                         NoDup_names_AB))
                           "A" fresh_stats HA eq_refl)) 7%nat e ts He Hts).
    vm_compute. lia.
Defined.



(** C2 on the batch with B unchecked, all calls resolving: one call for A,
    none for B. *)
Lemma invalidation_signal_witness :
  reachable [srvA; srvB] ready_A_only ∧ NoDup (names [srvA; srvB]) ∧
  filesState ready_A_only ≠ [] ∧
  invalidations "A"
    (trace (click_upload 1 all_resolve [srvA; srvB] info_AB true ready_A_only))
    = 1%nat ∧
  invalidations "B"
    (trace (click_upload 1 all_resolve [srvA; srvB] info_AB true ready_A_only))
    = 0%nat.
Proof.
  assert (Hne : filesState ready_A_only ≠ []) by (vm_compute; discriminate).
  assert (Hout : outcome (click_upload 1 all_resolve [srvA; srvB] info_AB true
                            ready_A_only) = Ok tt)
    by (vm_compute; reflexivity).
  split_and!;
    [exact reachable_ready_A_only | exact NoDup_names_AB | exact Hne | |].
  - pose proof (proj1 (invalidation_signal 1 all_resolve [srvA; srvB] info_AB true
                         ready_A_only reachable_ready_A_only NoDup_names_AB Hne)
                  Hout srvA (list_elem_of_here _ _)) as H.
    change (is_enabled ready_A_only srvA) with true in H. exact H.
  - pose proof (proj1 (invalidation_signal 1 all_resolve [srvA; srvB] info_AB true
                         ready_A_only reachable_ready_A_only NoDup_names_AB Hne)
                  Hout srvB (list_elem_of_further _ _ _ (list_elem_of_here _ _)))
      as H.
    change (is_enabled ready_A_only srvB) with false in H. exact H.
Defined.

(** C3 on a batch with two enabled destinations, all calls resolving: the
    selection is cleared twice and is empty at the end. *)
Lemma selection_clearing_witness :
  reachable [srvA; srvB] ready_AB ∧ NoDup (names [srvA; srvB]) ∧
  filesState ready_AB ≠ [] ∧
  signals (trace (click_upload 1 all_resolve [srvA; srvB] info_AB true ready_AB))
    = [InvalidateQueries "A"; SetFiles []; InvalidateQueries "B"; SetFiles []] ∧
  clearings (trace (click_upload 1 all_resolve [srvA; srvB] info_AB true ready_AB))
    = 2%nat ∧
  filesState (final (click_upload 1 all_resolve [srvA; srvB] info_AB true ready_AB))
    = [].
Proof.
  assert (Hne : filesState ready_AB ≠ []) by (vm_compute; discriminate).
  assert (Hout : outcome (click_upload 1 all_resolve [srvA; srvB] info_AB true
                            ready_AB) = Ok tt)
    by (vm_compute; reflexivity).
  split_and!;
    [exact reachable_ready_AB | exact NoDup_names_AB | exact Hne | ..];
    destruct (proj1 (selection_clearing 1 all_resolve [srvA; srvB] info_AB true
                       ready_AB reachable_ready_AB NoDup_names_AB Hne) Hout)
      as (Hsig & Hclr & Hfs).
  - rewrite Hsig. vm_compute. reflexivity.
  - rewrite Hclr. vm_compute. reflexivity.
  - rewrite Hfs. vm_compute. reflexivity.
Defined.

(** * Further properties of [upload] *)

(** ** The sanitization pass *)

Lemma sanitize_unclean E files : ∀ (i : nat) acc w,
  sanitize E false i files acc w = (Ok (acc ++ files), w, []).
Proof.
  induction files as [|f rest IH]; intros i acc w; simpl.
  - by rewrite app_nil_r.
  - rewrite IH. by rewrite <- app_assoc.
Qed.

Lemma sanitize_clean_Ok E files : ∀ (i : nat) acc w ftu,
  outcome (sanitize E true i files acc w) = Ok ftu →
  (∀ k g, acc !! k = Some g → ftu !! k = Some g) ∧
  (∀ (k : nat) f, files !! k = Some f →
     ∃ g, removeExifData E (i + k) f = Some g ∧
          ftu !! (length acc + k)%nat = Some g) ∧
  map fst (trace (sanitize E true i files acc w)) = map RemoveExifData files.
Proof.
  induction files as [|f rest IH]; intros i acc w ftu; simpl.
  - intros [= <-]. split_and!; [done | | done]. intros k f Hk. by destruct k.
  - destruct (removeExifData E i f) as [g|] eqn:Hg.
    2:{ erewrite bind_run_Throw by apply await_None. done. }
    erewrite bind_run_Ok by apply await_Some. simpl. intros Hout.
    destruct (IH (S i) (acc ++ [g]) (render w) ftu Hout) as (Hacc & Hfiles & Htr).
    split_and!.
    + intros k g' Hk. apply Hacc. by apply lookup_app_l_Some.
    + intros [|k] f' Hk; simpl in Hk.
      * injection Hk as <-. exists g. rewrite Nat.add_0_r. split; [done|].
        apply Hacc. rewrite Nat.add_0_r. by apply list_lookup_middle.
      * destruct (Hfiles k f' Hk) as (g' & Hg' & Hl). exists g'.
        rewrite length_app in Hl. simpl in Hl.
        replace (i + S k)%nat with (S i + k)%nat by lia.
        replace (length acc + S k)%nat with (length acc + 1 + k)%nat by lia.
        done.
    + by rewrite Htr.
Qed.

Lemma sanitize_Throw E clean files : ∀ (i : nat) acc w,
  (∃ e, outcome (sanitize E clean i files acc w) = Throw e)
  ↔ clean = true ∧ ∃ (k : nat) f, files !! k = Some f ∧
                                  removeExifData E (i + k) f = None.
Proof.
  destruct clean.
  2:{ intros i acc w. rewrite sanitize_unclean. split; [by intros [e ?] | by intros [? _]]. }
  induction files as [|f rest IH]; intros i acc w; simpl.
  - split; [by intros [e ?] | by intros (_ & k & f & ? & _)].
  - destruct (removeExifData E i f) as [g|] eqn:Hg.
    + erewrite bind_run_Ok by apply await_Some. simpl. rewrite IH.
      split; intros (_ & k & f' & Hk & Hnone); (split; [done|]).
      * exists (S k), f'. split; [done|].
        by replace (i + S k)%nat with (S i + k)%nat by lia.
      * destruct k as [|k]; simpl in Hk.
        -- injection Hk as <-. rewrite Nat.add_0_r in Hnone. congruence.
        -- exists k, f'. split; [done|].
           by replace (S i + k)%nat with (i + S k)%nat by lia.
    + erewrite bind_run_Throw by apply await_None. simpl.
      split; [intros _ | by eexists].
      split; [done|]. exists 0%nat, f. by rewrite Nat.add_0_r.
Qed.

(** The errors of the destination loop are those of its awaited calls and
    of line 55. *)
Lemma uploadServers_errors E serverInfo files i servers w e :
  ledger_wf w →
  outcome (uploadServers E serverInfo (transfersState w) files i servers w)
    = Throw e →
  e = TypeError ∨ e = AuthRejected ∨ e = TransportRejected.
Proof.
  intros Hwf. revert i servers w Hwf e.
  apply (uploadServers_run_ind E serverInfo files
    (λ _ _ _ x, ∀ e, outcome x = Throw e →
       e = TypeError ∨ e = AuthRejected ∨ e = TransportRejected)).
  - done.
  - done.
  - intros i s rest w _ _ _ e [= <-]. by left.
  - intros i s rest w info ts e0 Hwf Hts Hen _ Hout e Hout'.
    destruct (uploadFiles_spec E i s (url info) files 0 w ts Hwf Hts Hen)
      as (k & _ & _ & _ & _ & _ & _ & _ & Hk).
    rewrite Hout' in Hk. destruct Hk as (_ & _ & _ & _ & _ & [[-> _]|[-> _]]); auto.
  - intros i s rest w info ts _ _ _ _ _ IH e He. by apply IH.
Qed.

(** X1. With nothing selected a click does nothing at all (no update is
    pending when a handler starts). *)
Theorem upload_empty_selection delay E servers serverInfo clean w :
  filesState w = [] → pendingState w = None →
  click_upload delay E servers serverInfo clean w = (Ok tt, w, []).
Proof.
  intros Hfs Hidle. unfold click_upload, upload. rewrite Hfs. simpl.
  by rewrite settle_idle.
Qed.

(** X2. A batch is abandoned with [ExifRejected] exactly when private data
    is to be cleaned and the sanitizer rejects one of the selected files;
    then nothing but sanitizer calls has happened: the ledger and the
    selection are as before. *)
Theorem sanitizer_rejection_aborts delay E servers serverInfo clean w :
  reachable servers w →
  (outcome (click_upload delay E servers serverInfo clean w) = Throw ExifRejected
   ↔ clean = true ∧
     ∃ (k : nat) f, filesState w !! k = Some f ∧ removeExifData E k f = None) ∧
  (outcome (click_upload delay E servers serverInfo clean w) = Throw ExifRejected →
   final (click_upload delay E servers serverInfo clean w) = w ∧
   Forall (λ e : Entry, (∃ f, e.1 = RemoveExifData f) ∧ e.2 = observe w)
          (trace (click_upload delay E servers serverInfo clean w))).
Proof.
  intros (Hwf & Hcov & _)%reachable_invariant.
  destruct (sanitize_spec E clean (filesState w) 0 [] w (ledger_wf_idle _ Hwf)) as (_ & Hall & Herr).
  pose proof (sanitize_Throw E clean (filesState w) 0 [] w) as Hiff.
  destruct (outcome (sanitize E clean 0 (filesState w) [] w))
    as [[|f ftu]|e0] eqn:Hout.
  - rewrite upload_run_early by (done || by rewrite Hout). rewrite Hout. simpl.
    split; [|done]. split; [done|]. intros H. apply Hiff in H as [e ?]. done.
  - schedule Hwf Hcov.
    rewrite (upload_run E servers serverInfo clean w (f :: ftu)) by done.
    destruct (sizeEntries_evolves (totalSize (f :: ftu)) servers (transfersState w) w)
      as [_ Hwf1].
    assert (Hno : outcome (uploadServers E serverInfo (transfersState w) (f :: ftu) 0
                             servers
                             (with_heap (sizeEntries (totalSize (f :: ftu)) servers
                                           (transfersState w) (heap w)).2 w))
                  ≠ Throw ExifRejected).
    { intros H.
      apply (uploadServers_errors E serverInfo (f :: ftu) 0 servers _ _ (Hwf1 Hwf))
        in H as [?|[?|?]]; done. }
    simpl. split; [|done].
    split; [done|]. intros H. apply Hiff in H as [e ?]. done.
  - subst e0. rewrite upload_run_early by (done || by rewrite Hout). rewrite Hout. simpl.
    split; [|done]. split; [intros _ | done]. apply Hiff. by eexists.
Qed.

(** X3. The sanitized batch keeps the order and the length of the
    selection.  Without cleaning it is the selection itself and the
    sanitizer is not called; with cleaning the sanitizer is called once per
    file, in order, and each file is replaced by what it returned. *)
Theorem sanitize_keeps_order E files w :
  sanitize E false 0 files [] w = (Ok files, w, []) ∧
  (∀ ftu,
     outcome (sanitize E true 0 files [] w) = Ok ftu →
     length ftu = length files ∧
     (∀ (k : nat) f, files !! k = Some f →
        ∃ g, removeExifData E k f = Some g ∧ ftu !! k = Some g) ∧
     map fst (trace (sanitize E true 0 files [] w)) = map RemoveExifData files).
Proof.
  split; [apply sanitize_unclean|]. intros ftu Hout.
  destruct (sanitize_clean_Ok E files 0 [] w ftu Hout) as (_ & Hfiles & Htr).
  pose proof (sanitize_length E true files 0 [] w) as Hlen.
  rewrite Hout in Hlen. split_and!; [done | exact Hfiles | done].
Qed.

(** ** The ledger after a batch *)

Lemma counted_all_nil total n ts : counted_all total [] n ts = ts.
Proof.
  unfold counted_all. rewrite (bool_decide_eq_false_2 (n ∈ names [])).
  - by rewrite andb_false_r.
  - apply not_elem_of_nil.
Qed.

Lemma counted_all_disabled total servers n ts :
  enabled ts = false → counted_all total servers n ts = ts.
Proof. intros Hen. unfold counted_all. by rewrite Hen. Qed.

Lemma counted_all_absent total servers n ts :
  n ∉ names servers → counted_all total servers n ts = ts.
Proof.
  intros Hn. unfold counted_all. rewrite bool_decide_eq_false_2 by done.
  by rewrite andb_false_r.
Qed.

Lemma counted_all_here total s rest ts :
  enabled ts = true →
  counted_all total (s :: rest) (name s) ts = add_transferred total ts.
Proof.
  intros Hen. unfold counted_all.
  rewrite (bool_decide_eq_true_2 (name s ∈ names (s :: rest))) by (by left).
  by rewrite Hen.
Qed.

Lemma counted_all_later total s rest n ts :
  name s ≠ n → counted_all total (s :: rest) n ts = counted_all total rest n ts.
Proof.
  intros Hne. unfold counted_all.
  rewrite (bool_decide_ext (n ∈ names (s :: rest)) (n ∈ names rest)); [done|].
  unfold names. simpl. rewrite elem_of_cons.
  split; [intros [Heq|Hin]; [by subst | done] | by right].
Qed.

(** A destination loop that ends normally has counted the whole batch for
    every enabled destination of the list and for nothing else. *)
Lemma uploadServers_Ok_ledger E serverInfo files i servers w :
  ledger_wf w → NoDup (names servers) →
  let x := uploadServers E serverInfo (transfersState w) files i servers w in
  outcome x = Ok tt →
  ∀ n, observe (final x) !! n
       = counted_all (totalSize files) servers n <$> observe w !! n.
Proof.
  intros Hwf. revert i servers w Hwf.
  apply (uploadServers_run_ind E serverInfo files
    (λ _ servers w x,
       NoDup (names servers) → outcome x = Ok tt →
       ∀ n, observe (final x) !! n
            = counted_all (totalSize files) servers n <$> observe w !! n)).
  - intros i w _ _ _ n. simpl. destruct (observe w !! n); [|done].
    simpl. by rewrite counted_all_nil.
  - intros i s rest w _ Hen IH [_ Hnd]%NoDup_cons Hout n.
    rewrite (IH Hnd Hout n).
    destruct (decide (name s = n)) as [<-|Hne].
    + rewrite is_enabled_observe in Hen.
      destruct (observe w !! name s) as [ts|]; [|done]. simpl.
      by rewrite !counted_all_disabled.
    + destruct (observe w !! n); [|done]. simpl. by rewrite counted_all_later.
  - done.
  - intros i s rest w info ts e _ _ _ _ Hout _ Hout'. congruence.
  - intros i s rest w info ts Hwf Hts Hen _ Hout IH [Hnot Hnd]%NoDup_cons Hout' n.
    destruct (uploadFiles_spec E i s (url info) files 0 w ts Hwf Hts Hen)
      as (k & _ & _ & _ & _ & Hobs & _ & _ & Hk).
    rewrite Hout in Hk. subst k. rewrite take_ge in Hobs by done.
    simpl in *. rewrite (IH Hnd Hout' n), observe_files, Hobs. unfold counted.
    destruct (decide (name s = n)) as [<-|Hne].
    + rewrite lookup_insert_eq, Hts. simpl.
      by rewrite counted_all_absent, counted_all_here.
    + rewrite lookup_insert_ne by done.
      destruct (observe w !! n); [|done]. simpl. by rewrite counted_all_later.
Qed.

(** X4. When a non-empty batch ends without a failure, every enabled
    destination has [size] equal to the total of the sanitized batch and
    [transferred] equal to its value before the batch plus that total;
    every disabled entry is as before.  Destination names are unique. *)
Theorem successful_batch_ledger delay E servers serverInfo clean w :
  reachable servers w → NoDup (names servers) → filesState w ≠ [] →
  outcome (click_upload delay E servers serverInfo clean w) = Ok tt →
  (∀ s ts, s ∈ servers → observe w !! name s = Some ts → enabled ts = true →
     observe (final (click_upload delay E servers serverInfo clean w)) !! name s
     = Some {| enabled := true;
               size := totalSize (sanitized E clean w);
               transferred := transferred ts
                              + totalSize (sanitized E clean w) |}) ∧
  (∀ n ts, observe w !! n = Some ts → enabled ts = false →
     observe (final (click_upload delay E servers serverInfo clean w)) !! n = Some ts).
Proof.
  intros (Hwf & Hcov & _)%reachable_invariant Hnd Hne.
  schedule Hwf Hcov. unfold sanitized.
  pose proof (sanitized_nonempty E clean w Hne) as Hs.
  destruct (outcome (sanitize E clean 0 (filesState w) [] w))
    as [[|f ftu]|e] eqn:Hout; [done | |].
  2:{ rewrite upload_run_early by (done || by rewrite Hout). by rewrite Hout. }
  rewrite (upload_run E servers serverInfo clean w (f :: ftu)) by done.
  destruct (sizeEntries_covered (totalSize (f :: ftu)) servers w Hwf Hcov)
    as [_ Hview].
  destruct (sizeEntries_evolves (totalSize (f :: ftu)) servers (transfersState w) w)
    as [_ Hwf1].
  set (w1 := with_heap (sizeEntries (totalSize (f :: ftu)) servers
                          (transfersState w) (heap w)).2 w) in *.
  simpl. intros Hok.
  pose proof (uploadServers_Ok_ledger E serverInfo (f :: ftu) 0 servers w1
                (Hwf1 Hwf) Hnd Hok) as Hfin.
  change (transfersState w1) with (transfersState w) in Hfin.
  split.
  - intros s ts Hs' Hts Hen. rewrite Hfin, Hview, Hts. simpl.
    assert (Hin : name s ∈ names servers) by (by apply list_elem_of_fmap_2).
    unfold counted_all, resized.
    rewrite !(bool_decide_eq_true_2 _ Hin), Hen. simpl. rewrite Hen. simpl.
    unfold add_transferred, set_size. simpl. by rewrite Hen.
  - intros n ts Hts Hen. rewrite Hfin, Hview, Hts. simpl.
    rewrite resized_disabled by done. by rewrite counted_all_disabled.
Qed.

(** ** What a batch leaves alone *)

Lemma with_sizes_enabled sz u : enabled <$> with_sizes sz u = enabled <$> u.
Proof.
  apply map_eq. intros n. rewrite !lookup_fmap.
  destruct (u !! n) as [ts'|] eqn:Hu.
  - destruct (with_sizes_Some sz u n ts' Hu) as (ts & -> & _ & Hen).
    simpl. by rewrite Hen.
  - by rewrite with_sizes_lookup, Hu.
Qed.

(** X11. A batch never enables or disables a destination and never adds or
    removes a ledger entry: at every observation point the ledger has the
    keys and the [enabled] flags it had at the start. *)
Theorem upload_keeps_flags delay E servers serverInfo clean w :
  reachable servers w →
  Forall (λ v, enabled <$> v = enabled <$> observe w)
         (observations w (click_upload delay E servers serverInfo clean w)).
Proof.
  intros (Hwf & Hcov & _)%reachable_invariant.
  unfold observations. schedule Hwf Hcov.
  apply lag_observations_Forall.
  { intros u Hu. by rewrite with_sizes_enabled. }
  destruct (upload_history E servers serverInfo clean w Hwf) as (_ & _ & Hhist).
  constructor; [done|].
  eapply Forall_impl; [exact (history_Forall _ _ _ Hhist)|].
  intros v Hle. apply map_eq. intros n. rewrite !lookup_fmap.
  specialize (Hle n). destruct Hle as [ts ts' (Hen & _ & _)|]; [|done].
  simpl. by rewrite Hen.
Qed.

(** The selection after a destination loop. *)
Lemma uploadServers_selection E serverInfo files i servers w :
  ledger_wf w →
  let x := uploadServers E serverInfo (transfersState w) files i servers w in
  filesState (final x)
  = match signals (trace x) with [] => filesState w | _ :: _ => [] end.
Proof.
  revert i servers w.
  apply (uploadServers_run_ind E serverInfo files
    (λ _ _ w x,
       filesState (final x)
       = match signals (trace x) with [] => filesState w | _ :: _ => [] end)).
  - done.
  - done.
  - done.
  - intros i s rest w info ts e Hwf Hts Hen _ _.
    destruct (uploadFiles_spec E i s (url info) files 0 w ts Hwf Hts Hen)
      as (k & _ & _ & _ & Hfs & _).
    by rewrite (uploadFiles_signals E i s (url info) files w ts).
  - intros i s rest w info ts Hwf Hts Hen _ _ IH. simpl in *.
    rewrite signals_app, (uploadFiles_signals E i s (url info) files w ts) by done.
    simpl. change (signals (?a :: ?b :: ?t)) with (a.1 :: b.1 :: signals t).
    simpl. rewrite IH. by case_match.
Qed.

(** X12. A batch touches the selection in one way only: it is emptied once
    the pass of some destination has completed (an end-of-pass signal was
    given); otherwise it is exactly the selection of before.  No file is
    ever removed from it individually. *)
Theorem upload_selection delay E servers serverInfo clean w :
  reachable servers w →
  filesState (final (click_upload delay E servers serverInfo clean w))
  = match signals (trace (click_upload delay E servers serverInfo clean w)) with
    | [] => filesState w
    | _ :: _ => []
    end.
Proof.
  intros (Hwf & Hcov & _)%reachable_invariant.
  schedule Hwf Hcov.
  destruct (outcome (sanitize E clean 0 (filesState w) [] w))
    as [[|f ftu]|e] eqn:Hout.
  - rewrite upload_run_early by (done || by rewrite Hout). simpl.
    by rewrite sanitize_signals.
  - rewrite (upload_run E servers serverInfo clean w (f :: ftu)) by done.
    destruct (sizeEntries_evolves (totalSize (f :: ftu)) servers (transfersState w) w)
      as [_ Hwf1].
    set (sz := sizeEntries (totalSize (f :: ftu)) servers (transfersState w) (heap w))
      in *.
    simpl. rewrite signals_app, sanitize_signals. simpl.
    change (signals (?a :: ?t))
      with (filter (λ ev, is_signal ev = true) (a.1 :: map fst t)).
    rewrite filter_cons_False by (simpl; by destruct sz.1).
    exact (uploadServers_selection E serverInfo (f :: ftu) 0 servers
             (with_heap sz.2 w) (Hwf1 Hwf)).
  - rewrite upload_run_early by (done || by rewrite Hout). simpl.
    by rewrite sanitize_signals.
Qed.

(** ** The schedule of calls *)

Lemma calls_none t :
  Forall (λ e : Entry, is_call e.1 = false) t → calls t = [].
Proof.
  induction 1 as [|e t He _ IH]; [done|].
  unfold calls in *. simpl. rewrite filter_cons_False; [done|]. congruence.
Qed.

Lemma calls_cons_call e t :
  is_call e.1 = true → calls (e :: t) = e.1 :: calls t.
Proof. intros He. unfold calls. simpl. by rewrite filter_cons_True. Qed.

Lemma calls_cons_other e t :
  is_call e.1 = false → calls (e :: t) = calls t.
Proof. intros He. unfold calls. simpl. rewrite filter_cons_False; [done|]. congruence. Qed.

(** The calls of a pass are an initial segment of its schedule, and the
    whole of it when the pass completes. *)
Lemma uploadFiles_calls E i s serverUrl files : ∀ (j : nat) w ts,
  ledger_wf w → observe w !! name s = Some ts →
  let y := uploadFiles E (transfersState w) i s serverUrl j files w in
  calls (trace y) `prefix_of` file_calls (name s) serverUrl j files ∧
  (outcome y = Ok tt → calls (trace y) = file_calls (name s) serverUrl j files).
Proof.
  induction files as [|file rest IH]; intros j w ts Hwf Hts y; subst y.
  - simpl. split; [apply prefix_nil | done].
  - destruct (getUploadAuth E i j file) as [a|] eqn:Ha.
    2:{ rewrite (uploadFiles_auth_rejected _ _ _ _ _ _ _ _ _ (ledger_wf_idle _ Hwf) Ha). simpl.
        split; [|done]. rewrite calls_cons_call by done.
        apply prefix_cons, prefix_nil. }
    destruct (uploadBlob E i j serverUrl file a) as [b|] eqn:Hb.
    2:{ rewrite (uploadFiles_transport_rejected _ _ _ _ _ _ _ _ _ (ledger_wf_idle _ Hwf) _ Ha Hb). simpl.
        split; [|done]. rewrite !calls_cons_call by done.
        apply prefix_cons, prefix_cons, prefix_nil. }
    destruct (bump_transferred_run w (name s) ts (file_size file) Hts)
      as (l & Hl & Hobj & Hbump).
    set (w1 := {| heap := <[l := add_transferred (file_size file) ts]> (heap w);
                  transfersState := transfersState w;
                  filesState := filesState w;
                  pendingState := pendingState w |}) in *.
    assert (Hwf1 : ledger_wf w1) by (by eapply ledger_wf_write).
    assert (Hts1 : observe w1 !! name s = Some (add_transferred (file_size file) ts)).
    { unfold w1. rewrite (observe_write w (name s) l) by done. apply lookup_insert_eq. }
    destruct (IH (S j) w1 _ Hwf1 Hts1) as [Hpre Hall].
    change (transfersState w1) with (transfersState w) in *.
    rewrite (uploadFiles_transferred _ _ _ _ _ _ _ _ _ (ledger_wf_idle _ Hwf) _ _ _ Ha Hb Hbump). simpl.
    rewrite !calls_cons_call by done. rewrite calls_cons_other by done.
    split.
    + by apply prefix_cons, prefix_cons.
    + intros Hok. by rewrite (Hall Hok).
Qed.

Lemma pass_signals_no_calls (s : Server) v1 v2 t :
  calls ((InvalidateQueries (name s), v1) :: (SetFiles [], v2) :: t) = calls t.
Proof. by rewrite !calls_cons_other. Qed.

Lemma uploadServers_calls E serverInfo files i servers w :
  ledger_wf w →
  let x := uploadServers E serverInfo (transfersState w) files i servers w in
  calls (trace x)
    `prefix_of` flat_map (pass_calls serverInfo files)
                  (filter (λ s, is_enabled w s = true) servers) ∧
  (outcome x = Ok tt →
   calls (trace x)
   = flat_map (pass_calls serverInfo files)
       (filter (λ s, is_enabled w s = true) servers)).
Proof.
  revert i servers w.
  apply (uploadServers_run_ind E serverInfo files
    (λ _ servers w x,
       calls (trace x)
         `prefix_of` flat_map (pass_calls serverInfo files)
                       (filter (λ s, is_enabled w s = true) servers) ∧
       (outcome x = Ok tt →
        calls (trace x)
        = flat_map (pass_calls serverInfo files)
            (filter (λ s, is_enabled w s = true) servers)))).
  - intros i w _. simpl. split; [apply prefix_nil | done].
  - intros i s rest w _ Hen IH. by rewrite filter_cons_False by congruence.
  - intros i s rest w _ _ _. simpl. split; [apply prefix_nil | done].
  - intros i s rest w info ts e Hwf Hts Hen Hinfo Hout.
    destruct (uploadFiles_calls E i s (url info) files 0 w ts Hwf Hts) as [Hpre _].
    rewrite filter_cons_True by (apply is_enabled_true; eauto).
    simpl. unfold pass_calls at 1. rewrite Hinfo. rewrite Hout.
    split; [by apply prefix_app_r | done].
  - intros i s rest w info ts Hwf Hts Hen Hinfo Hout [IHpre IHall].
    destruct (uploadFiles_calls E i s (url info) files 0 w ts Hwf Hts) as [_ Hy].
    destruct (uploadFiles_spec E i s (url info) files 0 w ts Hwf Hts Hen)
      as (k & _ & _ & _ & _ & _ & Hhist & _).
    set (w1 := final (uploadFiles E (transfersState w) i s (url info) 0 files w))
      in *.
    assert (Hev : evolves w {| heap := heap w1; transfersState := transfersState w1;
                               filesState := [];
                               pendingState := pendingState w1 |})
      by (etrans; [eapply history_evolves, Hhist | apply evolves_files]).
    rewrite (filter_enabled_evolves _ _ rest Hev) in IHpre, IHall.
    rewrite filter_cons_True by (apply is_enabled_true; eauto).
    simpl in *. unfold pass_calls at 1 3. rewrite Hinfo.
    rewrite calls_app, (Hy Hout), pass_signals_no_calls.
    split; [by apply prefix_app | intros Hok; by rewrite (IHall Hok)].
Qed.

Lemma sanitize_calls E clean w :
  calls (trace (sanitize E clean 0 (filesState w) [] w)) = [].
Proof.
  apply calls_none. eapply Forall_impl; [apply sanitize_events|].
  intros e [f Hf]. by rewrite Hf.
Qed.

(** X5. The Authorizer and Transport calls of a batch follow one schedule:
    for each enabled destination in the order of the list, for each file of
    the sanitized batch in its order, one Authorizer call and then one
    Transport call to the base address of that destination.  The calls of
    any batch are an initial segment of this schedule, and the whole of it
    when the batch ends without a failure. *)
Theorem call_schedule delay E servers serverInfo clean w :
  reachable servers w →
  calls (trace (click_upload delay E servers serverInfo clean w))
    `prefix_of` flat_map (pass_calls serverInfo (sanitized E clean w))
                  (filter (λ s, is_enabled w s = true) servers) ∧
  (outcome (click_upload delay E servers serverInfo clean w) = Ok tt →
   calls (trace (click_upload delay E servers serverInfo clean w))
   = flat_map (pass_calls serverInfo (sanitized E clean w))
       (filter (λ s, is_enabled w s = true) servers)).
Proof.
  intros (Hwf & Hcov & _)%reachable_invariant.
  schedule Hwf Hcov. unfold sanitized.
  assert (Hnil : ∀ l : list Server, flat_map (pass_calls serverInfo []) l = []).
  { induction l as [|s l IH]; [done|]. simpl. rewrite IH.
    unfold pass_calls. by destruct (serverInfo !! name s). }
  destruct (outcome (sanitize E clean 0 (filesState w) [] w))
    as [[|f ftu]|e] eqn:Hout.
  - rewrite upload_run_early by (done || by rewrite Hout). simpl.
    rewrite sanitize_calls, Hnil. split; [apply prefix_nil | done].
  - rewrite (upload_run E servers serverInfo clean w (f :: ftu)) by done.
    destruct (sizeEntries_evolves (totalSize (f :: ftu)) servers (transfersState w) w)
      as [Hev Hwf1].
    set (sz := sizeEntries (totalSize (f :: ftu)) servers (transfersState w) (heap w))
      in *.
    destruct (uploadServers_calls E serverInfo (f :: ftu) 0 servers
                (with_heap sz.2 w) (Hwf1 Hwf)) as [Hpre Hall].
    rewrite (filter_enabled_evolves _ _ servers Hev) in Hpre, Hall.
    simpl. rewrite calls_app, sanitize_calls. simpl.
    rewrite calls_cons_other by (simpl; by destruct sz.1).
    done.
  - rewrite upload_run_early by (done || by rewrite Hout). simpl.
    rewrite sanitize_calls, Hnil. split; [apply prefix_nil | done].
Qed.

(** ** A destination without base address *)

Lemma uploadServers_TypeError E serverInfo files i servers w :
  ledger_wf w → NoDup (names servers) →
  let x := uploadServers E serverInfo (transfersState w) files i servers w in
  outcome x = Throw TypeError →
  ∃ before D after,
    servers = before ++ D :: after ∧
    is_enabled w D = true ∧ serverInfo !! name D = None ∧
    Forall (λ en : Entry, ∀ s, s = D ∨ s ∈ after → ev_server en.1 ≠ Some (name s))
           (trace x).
Proof.
  intros Hwf. revert i servers w Hwf.
  apply (uploadServers_run_ind E serverInfo files
    (λ _ servers w x,
       NoDup (names servers) → outcome x = Throw TypeError →
       ∃ before D after,
         servers = before ++ D :: after ∧
         is_enabled w D = true ∧ serverInfo !! name D = None ∧
         Forall (λ en : Entry, ∀ s, s = D ∨ s ∈ after →
                    ev_server en.1 ≠ Some (name s))
                (trace x))).
  - done.
  - intros i s rest w _ Hen IH [_ Hnd]%NoDup_cons Hout.
    destruct (IH Hnd Hout) as (before & D & after & -> & HD & Hinfo & Hall).
    by exists (s :: before), D, after.
  - intros i s rest w _ Hen Hinfo _ _. exists [], s, rest.
    split_and!; [done | done | done | constructor].
  - intros i s rest w info ts e Hwf Hts Hen _ Hout _ Hout'.
    destruct (uploadFiles_spec E i s (url info) files 0 w ts Hwf Hts Hen)
      as (k & _ & _ & _ & _ & _ & _ & _ & Hk).
    rewrite Hout' in Hk.
    destruct Hk as (_ & _ & _ & _ & _ & [[[=] _]|[[=] _]]).
  - intros i s rest w info ts Hwf Hts Hen _ Hout IH [Hnot Hnd]%NoDup_cons Hout'.
    destruct (uploadFiles_spec E i s (url info) files 0 w ts Hwf Hts Hen)
      as (k & _ & _ & _ & _ & _ & Hhist & Hall & _).
    set (w1 := final (uploadFiles E (transfersState w) i s (url info) 0 files w))
      in *.
    assert (Hev : evolves w {| heap := heap w1; transfersState := transfersState w1;
                               filesState := [];
                               pendingState := pendingState w1 |})
      by (etrans; [eapply history_evolves, Hhist | apply evolves_files]).
    destruct (IH Hnd Hout') as (before & D & after & -> & HD & Hinfo & Hrest).
    rewrite (evolves_is_enabled _ _ D Hev) in HD.
    assert (Hfar : ∀ s', s' = D ∨ s' ∈ after → name s ≠ name s').
    { intros s' Hs' Heq. apply Hnot. rewrite Heq. apply list_elem_of_fmap_2.
      apply elem_of_app. right. destruct Hs' as [->|Hs']; [by left | by right]. }
    exists (s :: before), D, after. simpl in *.
    split_and!; [done | done | done |].
    apply Forall_app. split; [|constructor; [|constructor]].
    + eapply Forall_impl; [exact Hall|]. intros en (Hsrv & _) s' Hs'.
      rewrite Hsrv. intros [= Heq]. by apply (Hfar s' Hs').
    + simpl. intros s' Hs' [= Heq]. by apply (Hfar s' Hs').
    + simpl. done.
    + done.
Qed.

Lemma uploadServers_no_TypeError E serverInfo files i servers w :
  ledger_wf w →
  (∀ s, s ∈ servers → is_enabled w s = true → is_Some (serverInfo !! name s)) →
  outcome (uploadServers E serverInfo (transfersState w) files i servers w)
    ≠ Throw TypeError.
Proof.
  intros Hwf. revert i servers w Hwf.
  apply (uploadServers_run_ind E serverInfo files
    (λ _ servers w x,
       (∀ s, s ∈ servers → is_enabled w s = true →
             is_Some (serverInfo !! name s)) →
       outcome x ≠ Throw TypeError)).
  - done.
  - intros i s rest w _ _ IH Hinfo. apply IH. intros s' Hs'. apply Hinfo. by right.
  - intros i s rest w _ Hen Hnone Hinfo.
    destruct (Hinfo s) as [info Hi]; [by left | done | congruence].
  - intros i s rest w info ts e Hwf Hts Hen _ Hout _ Hout'.
    destruct (uploadFiles_spec E i s (url info) files 0 w ts Hwf Hts Hen)
      as (k & _ & _ & _ & _ & _ & _ & _ & Hk).
    rewrite Hout' in Hk.
    destruct Hk as (_ & _ & _ & _ & _ & [[[=] _]|[[=] _]]).
  - intros i s rest w info ts Hwf Hts Hen _ Hout IH Hinfo. simpl.
    destruct (uploadFiles_spec E i s (url info) files 0 w ts Hwf Hts Hen)
      as (k & _ & _ & _ & _ & _ & Hhist & _).
    set (w1 := final (uploadFiles E (transfersState w) i s (url info) 0 files w))
      in *.
    assert (Hev : evolves w {| heap := heap w1; transfersState := transfersState w1;
                               filesState := [];
                               pendingState := pendingState w1 |})
      by (etrans; [eapply history_evolves, Hhist | apply evolves_files]).
    apply IH. intros s' Hs' Hen'. apply Hinfo; [by right|].
    by rewrite <- (evolves_is_enabled _ _ s' Hev).
Qed.

(** A [TypeError] in the batch in which the updater runs at the call. *)
Lemma upload_TypeError E servers serverInfo clean w :
  reachable servers w → NoDup (names servers) →
  (outcome (click_upload 0 E servers serverInfo clean w) = Throw TypeError →
   ∃ before D after,
     servers = before ++ D :: after ∧
     is_enabled w D = true ∧ serverInfo !! name D = None ∧
     Forall (λ en : Entry, ∀ s, s = D ∨ s ∈ after →
                ev_server en.1 ≠ Some (name s))
            (trace (click_upload 0 E servers serverInfo clean w))) ∧
  ((∀ s, s ∈ servers → is_enabled w s = true → is_Some (serverInfo !! name s)) →
   outcome (click_upload 0 E servers serverInfo clean w) ≠ Throw TypeError).
Proof.
  intros (Hwf & _ & _)%reachable_invariant Hnd.
  destruct (sanitize_spec E clean (filesState w) 0 [] w (ledger_wf_idle _ Hwf)) as (_ & Hall & Herr).
  destruct (outcome (sanitize E clean 0 (filesState w) [] w))
    as [[|f ftu]|e] eqn:Hout.
  - rewrite upload_run_early by (done || by rewrite Hout). by rewrite Hout.
  - rewrite (upload_run E servers serverInfo clean w (f :: ftu)) by done.
    destruct (sizeEntries_evolves (totalSize (f :: ftu)) servers (transfersState w) w)
      as [Hev Hwf1].
    set (sz := sizeEntries (totalSize (f :: ftu)) servers (transfersState w) (heap w))
      in *.
    simpl. split.
    + intros Hthrow.
      destruct (uploadServers_TypeError E serverInfo (f :: ftu) 0 servers
                  (with_heap sz.2 w) (Hwf1 Hwf) Hnd Hthrow)
        as (before & D & after & Hsplit & HD & Hinfo & Htags).
      rewrite (evolves_is_enabled _ _ D Hev) in HD.
      exists before, D, after. split_and!; [done | done | done |].
      apply Forall_app. split.
      * eapply Forall_impl; [exact Hall|]. intros en [[g Hg] _] s _. by rewrite Hg.
      * constructor; [|done]. intros s _. simpl. by destruct sz.1.
    + intros Hinfo.
      apply (uploadServers_no_TypeError E serverInfo (f :: ftu) 0 servers
               (with_heap sz.2 w) (Hwf1 Hwf)).
      intros s Hs Hen. apply Hinfo; [done|].
      by rewrite <- (evolves_is_enabled _ _ s Hev).
  - subst e. rewrite upload_run_early by (done || by rewrite Hout). by rewrite Hout.
Qed.

(** X6. A batch throws a [TypeError] only at line 55, for an enabled
    destination [D] that has no entry in [serverInfo]: nothing has happened
    for [D] nor for the destinations after it.  When every enabled
    destination has an entry, no batch throws a [TypeError].  Destination
    names are unique. *)
Theorem missing_base_address delay E servers serverInfo clean w :
  reachable servers w → NoDup (names servers) →
  (outcome (click_upload delay E servers serverInfo clean w) = Throw TypeError →
   ∃ before D after,
     servers = before ++ D :: after ∧
     is_enabled w D = true ∧ serverInfo !! name D = None ∧
     Forall (λ en : Entry, ∀ s, s = D ∨ s ∈ after →
                ev_server en.1 ≠ Some (name s))
            (trace (click_upload delay E servers serverInfo clean w))) ∧
  ((∀ s, s ∈ servers → is_enabled w s = true → is_Some (serverInfo !! name s)) →
   outcome (click_upload delay E servers serverInfo clean w) ≠ Throw TypeError).
Proof.
  intros Hr Hnd. pose proof Hr as (Hwf & Hcov & _)%reachable_invariant.
  destruct (upload_TypeError E servers serverInfo clean w Hr Hnd) as [H1 H2].
  schedule Hwf Hcov. split; [|exact H2].
  intros Hout. destruct (H1 Hout) as (before & D & after & Hs & Hen & Hi & Hall).
  exists before, D, after. split_and!; try done.
  by apply (lag_Forall_events
              (λ ev, ∀ s, s = D ∨ s ∈ after → ev_server ev ≠ Some (name s))).
Qed.

(** ** The sizing updater run twice *)

Lemma set_size_same n ts : size ts = n → set_size n ts = ts.
Proof. intros <-. by destruct ts. Qed.

(** An object is left as it is by the updater when it already has the
    size, and when it is disabled. *)
Lemma sizeEntries_keeps total servers tr : ∀ h l ts,
  h !! l = Some ts → size ts = total ∨ enabled ts = false →
  (sizeEntries total servers tr h).2 !! l = Some ts.
Proof.
  induction servers as [|s rest IH]; intros h l ts Hl Hts; simpl; [done|].
  destruct (tr !! name s) as [l'|]; [|done].
  destruct (h !! l') as [ts'|] eqn:Hl'; [|done].
  destruct (enabled ts') eqn:Hen'; [|by apply IH].
  apply IH; [|done].
  destruct (decide (l' = l)) as [->|Hne]; [|by rewrite lookup_insert_ne].
  rewrite lookup_insert_eq. assert (ts' = ts) as -> by congruence.
  destruct Hts as [Hs|Hd]; [by rewrite set_size_same | congruence].
Qed.

Lemma sizeEntries_twice total servers tr : ∀ h,
  sizeEntries total servers tr (sizeEntries total servers tr h).2
  = sizeEntries total servers tr h.
Proof.
  induction servers as [|s rest IH]; intros h; [done|].
  cbn [sizeEntries].
  destruct (tr !! name s) as [l|] eqn:Hl; [|done].
  destruct (h !! l) as [ts|] eqn:Hts; [|simpl; by rewrite Hts].
  destruct (enabled ts) eqn:Hen.
  - rewrite (sizeEntries_keeps total rest tr _ l (set_size total ts))
      by (by rewrite ?lookup_insert_eq; auto).
    cbn [enabled set_size]. rewrite Hen. rewrite insert_id; [apply IH|].
    apply sizeEntries_keeps; [by rewrite lookup_insert_eq | by left].
  - rewrite (sizeEntries_keeps total rest tr h l ts) by auto.
    rewrite Hen. apply IH.
Qed.

(** The updater run on its own result. *)
Lemma run_updater_twice total servers w :
  run_updater total servers (run_updater total servers w).2
  = run_updater total servers w.
Proof.
  pose proof (sizeEntries_twice total servers (transfersState w) (heap w)) as H2.
  unfold run_updater.
  destruct (sizeEntries total servers (transfersState w) (heap w))
    as [[[]|e] h] eqn:Hsz; cbn [fst snd heap transfersState filesState] in *;
    by rewrite H2.
Qed.

(** X7. The sizing updater of lines 41-49 can be run again on its own
    result: the second run changes nothing and reports the same. *)
Theorem sizing_twice total servers w :
  run_updater total servers (run_updater total servers w).2
  = run_updater total servers w ∧
  setTransfers_sizes 0 total servers (final (setTransfers_sizes 0 total servers w))
  = setTransfers_sizes 0 total servers w.
Proof.
  split; [apply run_updater_twice|].
  pose proof (run_updater_twice total servers w) as H2.
  unfold setTransfers_sizes.
  destruct (run_updater total servers w) as [r w'] eqn:H1.
  cbn [final fst snd] in *. by rewrite H2.
Qed.

(** ** The ledger and the destination list *)


(** ** Checkbox and selection handlers composed *)

(** X9. For one destination the last toggle wins; toggles of different
    destinations commute. *)
Theorem toggle_compose servers w n1 n2 b1 b2 :
  reachable servers w →
  observe (toggle n1 b2 (toggle n1 b1 w)) = observe (toggle n1 b2 w) ∧
  (n1 ≠ n2 →
   observe (toggle n1 b1 (toggle n2 b2 w))
   = observe (toggle n2 b2 (toggle n1 b1 w))).
Proof.
  intros (Hwf & _ & _)%reachable_invariant. split.
  - rewrite !toggle_observe by (done || by apply toggle_wf).
    by rewrite insert_insert_eq.
  - intros Hne. rewrite !toggle_observe by (done || by apply toggle_wf).
    by apply insert_insert_ne.
Qed.

(** X10. Selecting files leaves the ledger alone and appends to the
    selection: two selections in a row amount to selecting the two lists at
    once, and an empty one is no selection. *)
Theorem addFiles_compose new1 new2 w :
  addFiles new2 (addFiles new1 w) = addFiles (new1 ++ new2) w ∧
  observe (addFiles new1 w) = observe w ∧
  filesState (addFiles new1 w) = filesState w ++ new1.
Proof.
  split_and!.
  - destruct new1 as [|f1 new1], new2 as [|f2 new2]; simpl;
      rewrite ?app_nil_r; try done.
    by rewrite <- app_assoc.
  - by destruct new1.
  - destruct new1; simpl; [by rewrite app_nil_r | done].
Qed.

(** ** When nothing is rejected *)

Lemma uploadFiles_resolves E i s serverUrl files : ∀ (j : nat) w ts,
  (∀ j f, is_Some (getUploadAuth E i j f)) →
  (∀ j f a, is_Some (uploadBlob E i j serverUrl f a)) →
  ledger_wf w → observe w !! name s = Some ts →
  outcome (uploadFiles E (transfersState w) i s serverUrl j files w) = Ok tt.
Proof.
  induction files as [|file rest IH]; intros j w ts Hauth Hblob Hwf Hts; [done|].
  destruct (Hauth j file) as [a Ha]. destruct (Hblob j file a) as [b Hb].
  destruct (bump_transferred_run w (name s) ts (file_size file) Hts)
    as (l & Hl & Hobj & Hbump).
  rewrite (uploadFiles_transferred _ _ _ _ _ _ _ _ _ (ledger_wf_idle _ Hwf) _ _ _ Ha Hb Hbump). simpl.
  set (w1 := {| heap := <[l := add_transferred (file_size file) ts]> (heap w);
                transfersState := transfersState w;
                filesState := filesState w;
                pendingState := pendingState w |}).
  apply (IH (S j) w1 (add_transferred (file_size file) ts)); [done | done | |].
  - by eapply ledger_wf_write.
  - unfold w1. rewrite (observe_write w (name s) l) by done. apply lookup_insert_eq.
Qed.

Lemma uploadServers_resolves E serverInfo files i servers w :
  (∀ i j f, is_Some (getUploadAuth E i j f)) →
  (∀ i j u f a, is_Some (uploadBlob E i j u f a)) →
  ledger_wf w →
  (∀ s, s ∈ servers → is_enabled w s = true → is_Some (serverInfo !! name s)) →
  outcome (uploadServers E serverInfo (transfersState w) files i servers w) = Ok tt.
Proof.
  intros Hauth Hblob Hwf. revert i servers w Hwf.
  apply (uploadServers_run_ind E serverInfo files
    (λ _ servers w x,
       (∀ s, s ∈ servers → is_enabled w s = true →
             is_Some (serverInfo !! name s)) →
       outcome x = Ok tt)).
  - done.
  - intros i s rest w _ _ IH Hinfo. apply IH. intros s' Hs'. apply Hinfo. by right.
  - intros i s rest w _ Hen Hnone Hinfo.
    destruct (Hinfo s) as [info Hi]; [by left | done | congruence].
  - intros i s rest w info ts e Hwf Hts Hen _ Hout _.
    rewrite (uploadFiles_resolves E i s (url info) files 0 w ts) in Hout; done.
  - intros i s rest w info ts Hwf Hts Hen _ Hout IH Hinfo. simpl.
    destruct (uploadFiles_spec E i s (url info) files 0 w ts Hwf Hts Hen)
      as (k & _ & _ & _ & _ & _ & Hhist & _).
    set (w1 := final (uploadFiles E (transfersState w) i s (url info) 0 files w))
      in *.
    assert (Hev : evolves w {| heap := heap w1; transfersState := transfersState w1;
                               filesState := [];
                               pendingState := pendingState w1 |})
      by (etrans; [eapply history_evolves, Hhist | apply evolves_files]).
    apply IH. intros s' Hs' Hen'. apply Hinfo; [by right|].
    by rewrite <- (evolves_is_enabled _ _ s' Hev).
Qed.

(** X13. A batch ends without error when none of its collaborators rejects
    a call and every enabled destination has a base address. *)
Theorem upload_resolves delay E servers serverInfo clean w :
  reachable servers w →
  (∀ k f, is_Some (removeExifData E k f)) →
  (∀ i j f, is_Some (getUploadAuth E i j f)) →
  (∀ i j u f a, is_Some (uploadBlob E i j u f a)) →
  (∀ s, s ∈ servers → is_enabled w s = true → is_Some (serverInfo !! name s)) →
  outcome (click_upload delay E servers serverInfo clean w) = Ok tt.
Proof.
  intros (Hwf & Hcov & _)%reachable_invariant Hexif Hauth Hblob Hinfo.
  schedule Hwf Hcov.
  pose proof (sanitize_Throw E clean (filesState w) 0 [] w) as Hiff.
  destruct (outcome (sanitize E clean 0 (filesState w) [] w))
    as [[|f ftu]|e] eqn:Hout.
  - rewrite upload_run_early by (done || by rewrite Hout). by rewrite Hout.
  - rewrite (upload_run E servers serverInfo clean w (f :: ftu)) by done.
    destruct (sizeEntries_evolves (totalSize (f :: ftu)) servers (transfersState w) w)
      as [Hev Hwf1].
    set (sz := sizeEntries (totalSize (f :: ftu)) servers (transfersState w) (heap w))
      in *.
    simpl.
    apply (uploadServers_resolves E serverInfo (f :: ftu) 0 servers
             (with_heap sz.2 w) Hauth Hblob (Hwf1 Hwf)).
    intros s Hs Hen. apply Hinfo; [done|].
    by rewrite <- (evolves_is_enabled _ _ s Hev).
  - destruct (proj1 Hiff (ex_intro _ e eq_refl)) as (_ & k & f & _ & Hnone).
    destruct (Hexif k f) as [g Hg]. simpl in Hnone. congruence.
Qed.

(** * The blob list *)

Section BlobList_facts.
Import BlobList.
Context (S : Sorting) (blobs : list BlobDescriptor).

Lemma startsWith_exclusive (p1 p2 : string) b :
  (∀ t, String.prefix p1 t = true → String.prefix p2 t = false) →
  type_startsWith p1 b = true → type_startsWith p2 b = false.
Proof.
  intros Hex. unfold type_startsWith. destruct (type b) as [t|]; [apply Hex | done].
Qed.

Lemma prefix_first_char (a1 a2 : Ascii.ascii) p1 p2 t :
  a1 ≠ a2 →
  String.prefix (String a1 p1) t = true → String.prefix (String a2 p2) t = false.
Proof.
  intros Hne. destruct t as [|c t]; [done|]. simpl.
  destruct (Ascii.ascii_dec a1 c) as [->|]; [|done]. intros _.
  by destruct (Ascii.ascii_dec a2 c) as [->|].
Qed.

Lemma prefix_second_char (a b1 b2 : Ascii.ascii) p1 p2 t :
  b1 ≠ b2 →
  String.prefix (String a (String b1 p1)) t = true →
  String.prefix (String a (String b2 p2)) t = false.
Proof.
  intros Hne. destruct t as [|c t]; [done|]. simpl.
  destruct (Ascii.ascii_dec a c) as [->|]; [|done].
  apply (prefix_first_char b1 b2). done.
Qed.

Lemma gallery_prefix_exclusive m1 m2 t :
  m1 ≠ mode_list → m2 ≠ mode_list → m1 ≠ m2 →
  String.prefix (gallery_prefix m1) t = true →
  String.prefix (gallery_prefix m2) t = false.
Proof.
  intros H1 H2 H12.
  destruct m1, m2; try done; simpl;
    first [ apply prefix_first_char; discriminate
          | apply prefix_second_char; discriminate ].
Qed.

Lemma listed_gallery m b :
  m ≠ mode_list →
  b ∈ listed S blobs m ↔ b ∈ blobs ∧ type_startsWith (gallery_prefix m) b = true.
Proof.
  intros Hm. destruct m; try done; simpl;
    unfold images, videos, audioFiles, docs;
    rewrite (newest_first_perm S), list_elem_of_filter; tauto.
Qed.

(** X14. A blob is listed by at most one of the four galleries. *)
Theorem galleries_disjoint m1 m2 b :
  m1 ≠ mode_list → m2 ≠ mode_list → m1 ≠ m2 →
  b ∈ listed S blobs m1 → b ∉ listed S blobs m2.
Proof.
  intros H1 H2 H12. rewrite !listed_gallery by done. intros [_ Hp1] [_ Hp2].
  rewrite (startsWith_exclusive (gallery_prefix m1) (gallery_prefix m2)) in Hp2;
    [done | | done].
  intros t. by apply gallery_prefix_exclusive.
Qed.

(** X15. Every blob is counted once: in one gallery, or in none. *)
Theorem galleries_partition :
  (length (images S blobs) + length (videos S blobs)
   + length (audioFiles S blobs) + length (docs S blobs)
   + length (filter (λ b, uncategorised b = true) blobs))%nat
  = length blobs.
Proof.
  unfold images, videos, audioFiles, docs.
  rewrite !(newest_first_perm S). clear S.
  induction blobs as [|b l IH]; [done|].
  pose proof (λ m1 m2 H1 H2 H12,
    startsWith_exclusive (gallery_prefix m1) (gallery_prefix m2) b
      (λ t, gallery_prefix_exclusive m1 m2 t H1 H2 H12)) as Hex.
  pose proof (Hex mode_gallery mode_video) as Hiv.
  pose proof (Hex mode_gallery mode_audio) as Hia.
  pose proof (Hex mode_gallery mode_docs) as Hid.
  pose proof (Hex mode_video mode_audio) as Hva.
  pose proof (Hex mode_video mode_docs) as Hvd.
  pose proof (Hex mode_audio mode_docs) as Had.
  simpl in Hiv, Hia, Hid, Hva, Hvd, Had. clear Hex.
  assert (Hu : uncategorised b
               = negb (type_startsWith "image/" b || type_startsWith "video/" b
                       || type_startsWith "audio/" b
                       || type_startsWith "application/pdf" b)) by done.
  rewrite !filter_cons.
  destruct (type_startsWith "image/" b) eqn:Hi.
  { rewrite Hiv, Hia, Hid in * by done. simpl in Hu. rewrite Hu.
    repeat case_decide; try done. simpl. lia. }
  destruct (type_startsWith "video/" b) eqn:Hv.
  { rewrite Hva, Hvd in * by done. simpl in Hu. rewrite Hu.
    repeat case_decide; try done. simpl. lia. }
  destruct (type_startsWith "audio/" b) eqn:Ha.
  { rewrite Had in * by done. simpl in Hu. rewrite Hu.
    repeat case_decide; try done. simpl. lia. }
  destruct (type_startsWith "application/pdf" b) eqn:Hd; simpl in Hu; rewrite Hu;
    repeat case_decide; try done; simpl; lia.
Qed.

Lemma length_0_nil {A} (l : list A) : Nat.eqb (length l) 0 = true ↔ l = [].
Proof. destruct l; simpl; split; done. Qed.

(** X16. The effect leaves a mode whose list is not empty, or the plain
    list; run again it changes nothing. *)
Theorem effect_settles mode :
  (effect S blobs mode = mode_list ∨ listed S blobs (effect S blobs mode) ≠ []) ∧
  effect S blobs (effect S blobs mode) = effect S blobs mode.
Proof.
  destruct mode; simpl; (split; [|try done]);
    try (by left);
    destruct (Nat.eqb (length _) 0) eqn:Hlen; simpl; rewrite ?Hlen; try done;
    try (by left);
    right; intros Hnil; by rewrite Hnil in Hlen.
Qed.

(** X17. A click on any button but that of the documents leaves nothing
    for the effect to correct: the button of a mode is disabled exactly when
    the effect would leave that mode. *)
Theorem guarded_click m mode :
  m ≠ mode_docs → effect S blobs mode = mode →
  effect S blobs (click S blobs m mode) = click S blobs m mode.
Proof.
  intros Hm Hmode. unfold click.
  destruct (disabled S blobs m) eqn:Hdis; [done|].
  destruct m; try done; simpl in *; by rewrite Hdis.
Qed.

Lemma effect_not_docs mode :
  mode ≠ mode_docs → effect S blobs mode ≠ mode_docs.
Proof. destruct mode; simpl; try done; by case_match. Qed.

(** X18. The documents view opens when there are documents and videos: the
    button is guarded by the number of videos, the effect by the number of
    documents. *)
Theorem docs_click mode :
  effect S blobs (click S blobs mode_docs mode) = mode_docs
  ↔ docs S blobs ≠ [] ∧ (videos S blobs ≠ [] ∨ mode = mode_docs).
Proof.
  assert (Hdocs : effect S blobs mode_docs = mode_docs ↔ docs S blobs ≠ []).
  { simpl. destruct (Nat.eqb (length (docs S blobs)) 0) eqn:Hd.
    - apply length_0_nil in Hd as ->. done.
    - split; [intros _ | done]. intros Hnil. by rewrite Hnil in Hd. }
  unfold click. simpl disabled.
  destruct (Nat.eqb (length (videos S blobs)) 0) eqn:Hv.
  - apply length_0_nil in Hv as Hv'. rewrite Hv'.
    destruct (decide (mode = mode_docs)) as [->|Hne].
    + rewrite Hdocs. split; [intros ?; split; [done | by right] | by intros [? _]].
    + split; [by intros ?%effect_not_docs | by intros [_ [?|?]]].
  - rewrite Hdocs. split; [intros ?; split; [done|] | by intros [? _]].
    left. intros Hnil. by rewrite Hnil in Hv.
Qed.

End BlobList_facts.

(** * The further properties on concrete inputs *)

(** X1 with two destinations and nothing selected. *)
Lemma upload_empty_selection_witness :
  filesState idle_AB = [] ∧ pendingState idle_AB = None ∧
  click_upload 2 all_resolve [srvA; srvB] info_AB true idle_AB = (Ok tt, idle_AB, []).
Proof.
  split_and!; [reflexivity | reflexivity |].
  apply (upload_empty_selection 2 all_resolve [srvA; srvB] info_AB true idle_AB);
    reflexivity.
Defined.

(** X2 when the sanitizer rejects the second of two files. *)
Lemma sanitizer_rejection_aborts_witness :
  reachable [srvA; srvB] ready_AB ∧
  outcome (click_upload 2 (exif_rejects 1) [srvA; srvB] info_AB true ready_AB)
    = Throw ExifRejected ∧
  final (click_upload 2 (exif_rejects 1) [srvA; srvB] info_AB true ready_AB)
    = ready_AB.
Proof.
  destruct (sanitizer_rejection_aborts 2 (exif_rejects 1) [srvA; srvB] info_AB true
              ready_AB reachable_ready_AB) as [Hiff Hthen].
  assert (Hout : outcome (click_upload 2 (exif_rejects 1) [srvA; srvB] info_AB true
                            ready_AB) = Throw ExifRejected).
  { apply Hiff. split; [reflexivity|]. exists 1%nat, file200.
    split; reflexivity. }
  split_and!; [exact reachable_ready_AB | exact Hout | exact (proj1 (Hthen Hout))].
Defined.

(** X4 on the batch with B unchecked: A ends with 300 of 300, B is as
    before. *)
Lemma successful_batch_ledger_witness :
  reachable [srvA; srvB] ready_A_only ∧ NoDup (names [srvA; srvB]) ∧
  filesState ready_A_only ≠ [] ∧
  outcome (click_upload 2 all_resolve [srvA; srvB] info_AB true ready_A_only)
    = Ok tt ∧
  observe (final (click_upload 2 all_resolve [srvA; srvB] info_AB true
                    ready_A_only)) !! "A"
    = Some {| enabled := true; size := 300; transferred := 300 |} ∧
  observe (final (click_upload 2 all_resolve [srvA; srvB] info_AB true
                    ready_A_only)) !! "B"
    = Some {| enabled := false; size := 0; transferred := 0 |}.
Proof.
  assert (Hne : filesState ready_A_only ≠ []) by (vm_compute; discriminate).
  assert (Hout : outcome (click_upload 2 all_resolve [srvA; srvB] info_AB true
                            ready_A_only) = Ok tt)
    by (vm_compute; reflexivity).
  destruct (successful_batch_ledger 2 all_resolve [srvA; srvB] info_AB true
              ready_A_only reachable_ready_A_only NoDup_names_AB Hne Hout)
    as [Hen Hdis].
  split_and!;
    [exact reachable_ready_A_only | exact NoDup_names_AB | exact Hne | exact Hout
    | |].
  - refine (eq_trans (Hen srvA {| enabled := true; size := 0; transferred := 0 |}
                        (list_elem_of_here _ _) _ eq_refl) _);
      vm_compute; reflexivity.
  - apply Hdis; [vm_compute; reflexivity | reflexivity].
Defined.

(** X5 on the same batch: two calls per file for A, none for B. *)
Lemma call_schedule_witness :
  reachable [srvA; srvB] ready_A_only ∧
  outcome (click_upload 2 all_resolve [srvA; srvB] info_AB true ready_A_only)
    = Ok tt ∧
  calls (trace (click_upload 2 all_resolve [srvA; srvB] info_AB true ready_A_only))
  = [GetUploadAuth "A" 0 file100; UploadBlob "A" "https://a.example" 0 file100;
     GetUploadAuth "A" 1 file200; UploadBlob "A" "https://a.example" 1 file200].
Proof.
  assert (Hout : outcome (click_upload 2 all_resolve [srvA; srvB] info_AB true
                            ready_A_only) = Ok tt)
    by (vm_compute; reflexivity).
  split_and!; [exact reachable_ready_A_only | exact Hout |].
  rewrite (proj2 (call_schedule 2 all_resolve [srvA; srvB] info_AB true ready_A_only
                    reachable_ready_A_only) Hout).
  vm_compute. reflexivity.
Defined.

(** X6 when only A has a base address: B's pass throws at once. *)
Lemma missing_base_address_witness :
  reachable [srvA; srvB] ready_AB ∧ NoDup (names [srvA; srvB]) ∧
  outcome (click_upload 2 all_resolve [srvA; srvB] info_A true ready_AB)
    = Throw TypeError ∧
  ∃ before D after,
    [srvA; srvB] = before ++ D :: after ∧
    is_enabled ready_AB D = true ∧ info_A !! name D = None ∧
    Forall (λ en : Entry, ∀ s, s = D ∨ s ∈ after →
               ev_server en.1 ≠ Some (name s))
           (trace (click_upload 2 all_resolve [srvA; srvB] info_A true ready_AB)).
Proof.
  assert (Hout : outcome (click_upload 2 all_resolve [srvA; srvB] info_A true
                            ready_AB) = Throw TypeError)
    by (vm_compute; reflexivity).
  split_and!; [exact reachable_ready_AB | exact NoDup_names_AB | exact Hout |].
  exact (proj1 (missing_base_address 2 all_resolve [srvA; srvB] info_A true ready_AB
                  reachable_ready_AB NoDup_names_AB) Hout).
Defined.


(** X9 after a batch: unchecking and checking A again, and toggling A and
    B in either order. *)
Lemma toggle_compose_witness :
  reachable [srvA; srvB] ready_AB ∧
  observe (toggle "A" true (toggle "A" false ready_AB))
    = observe (toggle "A" true ready_AB) ∧
  observe (toggle "A" false (toggle "B" false ready_AB))
    = observe (toggle "B" false (toggle "A" false ready_AB)).
Proof.
  destruct (toggle_compose [srvA; srvB] ready_AB "A" "B" false true
              reachable_ready_AB) as [Hlast _].
  destruct (toggle_compose [srvA; srvB] ready_AB "A" "B" false false
              reachable_ready_AB) as [_ Hcomm].
  split_and!; [exact reachable_ready_AB | exact Hlast |].
  apply Hcomm. discriminate.
Defined.

(** X11 on a batch stopped in A's pass. *)
Lemma upload_keeps_flags_witness :
  reachable [srvA; srvB] ready_A_only ∧
  Forall (λ v, enabled <$> v = enabled <$> observe ready_A_only)
         (observations ready_A_only
            (click_upload 2 (transport_rejects 0 1) [srvA; srvB] info_AB true
               ready_A_only)).
Proof.
  split; [exact reachable_ready_A_only|].
  exact (upload_keeps_flags 2 (transport_rejects 0 1) [srvA; srvB] info_AB true
           ready_A_only reachable_ready_A_only).
Defined.

(** X12 on a batch stopped in A's pass, the first: the selection is
    kept. *)
Lemma upload_selection_witness :
  reachable [srvA; srvB] ready_AB ∧
  filesState (final (click_upload 2 (transport_rejects 0 1) [srvA; srvB] info_AB
                       true ready_AB))
  = [file100; file200].
Proof.
  split; [exact reachable_ready_AB|].
  rewrite (upload_selection 2 (transport_rejects 0 1) [srvA; srvB] info_AB true
             ready_AB reachable_ready_AB).
  vm_compute. reflexivity.
Defined.

(** X13 on two enabled destinations with every call resolving. *)
Lemma upload_resolves_witness :
  reachable [srvA; srvB] ready_AB ∧
  (∀ k f, is_Some (removeExifData all_resolve k f)) ∧
  (∀ i j f, is_Some (getUploadAuth all_resolve i j f)) ∧
  (∀ i j u f a, is_Some (uploadBlob all_resolve i j u f a)) ∧
  (∀ s, s ∈ [srvA; srvB] → is_enabled ready_AB s = true →
        is_Some (info_AB !! name s)) ∧
  outcome (click_upload 2 all_resolve [srvA; srvB] info_AB true ready_AB) = Ok tt.
Proof.
  assert (H1 : ∀ k f, is_Some (removeExifData all_resolve k f))
    by (intros; eexists; reflexivity).
  assert (H2 : ∀ i j f, is_Some (getUploadAuth all_resolve i j f))
    by (intros; eexists; reflexivity).
  assert (H3 : ∀ i j u f a, is_Some (uploadBlob all_resolve i j u f a))
    by (intros; eexists; reflexivity).
  assert (H4 : ∀ s, s ∈ [srvA; srvB] → is_enabled ready_AB s = true →
                    is_Some (info_AB !! name s)).
  { intros s Hs _. apply elem_of_cons in Hs as [->|Hs];
      [eexists; reflexivity|].
    apply list_elem_of_singleton in Hs as ->. eexists; reflexivity. }
  split_and!; [exact reachable_ready_AB | exact H1 | exact H2 | exact H3 | exact H4 |].
  exact (upload_resolves 2 all_resolve [srvA; srvB] info_AB true ready_AB
           reachable_ready_AB H1 H2 H3 H4).
Defined.

(** X14: the picture is in the gallery of images and not in that of the
    videos. *)
Lemma galleries_disjoint_witness :
  BlobList.mode_gallery ≠ BlobList.mode_list ∧
  BlobList.mode_video ≠ BlobList.mode_list ∧
  BlobList.mode_gallery ≠ BlobList.mode_video ∧
  blob_png ∈ BlobList.listed BlobList.merge_sorting some_blobs
               BlobList.mode_gallery ∧
  blob_png ∉ BlobList.listed BlobList.merge_sorting some_blobs
               BlobList.mode_video.
Proof.
  assert (Hin : blob_png ∈ BlobList.listed BlobList.merge_sorting some_blobs
                             BlobList.mode_gallery)
    by (vm_compute; apply list_elem_of_here).
  split_and!; [discriminate | discriminate | discriminate | exact Hin |].
  apply (galleries_disjoint BlobList.merge_sorting some_blobs
           BlobList.mode_gallery BlobList.mode_video blob_png);
    [discriminate | discriminate | discriminate | exact Hin].
Defined.

(** X17: from the plain list a click on the button of the videos opens the
    videos, and the effect leaves them open. *)
Lemma guarded_click_witness :
  BlobList.mode_video ≠ BlobList.mode_docs ∧
  BlobList.effect BlobList.merge_sorting some_blobs BlobList.mode_list
    = BlobList.mode_list ∧
  BlobList.click BlobList.merge_sorting some_blobs BlobList.mode_video
    BlobList.mode_list = BlobList.mode_video ∧
  BlobList.effect BlobList.merge_sorting some_blobs
    (BlobList.click BlobList.merge_sorting some_blobs BlobList.mode_video
       BlobList.mode_list)
  = BlobList.click BlobList.merge_sorting some_blobs BlobList.mode_video
      BlobList.mode_list.
Proof.
  split_and!; [discriminate | reflexivity | vm_compute; reflexivity |].
  apply (guarded_click BlobList.merge_sorting some_blobs BlobList.mode_video
           BlobList.mode_list); [discriminate | reflexivity].
Defined.
